(** * Staged generation of grounded semantic graphs

    A shallow embedding of [questionanswering/construction/staged_generation.py]:
    the gold-guided and model-guided search loops, the grounding enumerator,
    the candidate scorers and the entity enrichment functions, together with
    the properties of them that the specification states.

    Conventions of the embedding.
    - Python dictionaries used as records (graphs, edges) are records with one
      optional field per key the code reads or writes; a key that is absent is
      [None].  The grounding returned by the knowledge base is a genuine
      dictionary and is a [gmap string string].
    - Scores (precision, recall, F1, model scores) are rationals [Q]; the code
      only compares them with each other and with decimal constants.
    - Functions of other modules ([stages], [wdaccess], [graph],
      [entity_linking], [evaluation], the scoring model) are parameters of the
      sections below.
    - Calls that the specification counts (grounding queries, scorer calls)
      are recorded in a trace; exceptions and exhausted fuel are outcomes. *)

From Stdlib Require Import QArith Lia Ascii String Sorted.
From stdpp Require Import base option list gmap strings pretty.

Local Open Scope string_scope.
Local Open Scope list_scope.

(** ** Data model *)

(** An entity of the question: a tuple [(span, tag)] before linking and
    [(span, tag, ids)] after it. *)
Record Entity := mkEntity {
  ent_span : list string;
  ent_tag : string;
  ent_links : option (list string)
}.

(** An edge dictionary.  ['hopUp'] and ['hopDown'] may be present with the
    value [None] (a hop that is still to be grounded). *)
Record Edge := mkEdge {
  e_type : option string;
  e_kbID : option string;
  e_rightkbID : option string;
  e_hopUp : option (option string);
  e_hopDown : option (option string);
  e_canonical_right : option string;
  e_right : option (list string)
}.

(** A graph dictionary. *)
Record Graph := mkGraph {
  g_edgeSet : option (list Edge);
  g_entities : option (list Entity);
  g_tokens : option (list string);
  g_filter : option string
}.

#[global] Instance Entity_eq_dec : EqDecision Entity.
Proof. solve_decision. Defined.
#[global] Instance Edge_eq_dec : EqDecision Edge.
Proof. solve_decision. Defined.
#[global] Instance Graph_eq_dec : EqDecision Graph.
Proof. solve_decision. Defined.

Definition empty_edge : Edge := mkEdge None None None None None None None.

(** [edge[k] = v] for each key. *)
Definition set_type (v : string) (e : Edge) : Edge :=
  mkEdge (Some v) (e_kbID e) (e_rightkbID e) (e_hopUp e) (e_hopDown e)
         (e_canonical_right e) (e_right e).
Definition set_kbID (v : string) (e : Edge) : Edge :=
  mkEdge (e_type e) (Some v) (e_rightkbID e) (e_hopUp e) (e_hopDown e)
         (e_canonical_right e) (e_right e).
Definition set_rightkbID (v : string) (e : Edge) : Edge :=
  mkEdge (e_type e) (e_kbID e) (Some v) (e_hopUp e) (e_hopDown e)
         (e_canonical_right e) (e_right e).
Definition set_hopUp (v : string) (e : Edge) : Edge :=
  mkEdge (e_type e) (e_kbID e) (e_rightkbID e) (Some (Some v)) (e_hopDown e)
         (e_canonical_right e) (e_right e).
Definition set_hopDown (v : string) (e : Edge) : Edge :=
  mkEdge (e_type e) (e_kbID e) (e_rightkbID e) (e_hopUp e) (Some (Some v))
         (e_canonical_right e) (e_right e).
Definition set_canonical_right (v : string) (e : Edge) : Edge :=
  mkEdge (e_type e) (e_kbID e) (e_rightkbID e) (e_hopUp e) (e_hopDown e)
         (Some v) (e_right e).

(** [g.get('edgeSet', [])], [g.get('entities', [])], [g.get('tokens', [])]. *)
Definition get_edgeSet (g : Graph) : list Edge := default [] (g_edgeSet g).
Definition get_entities (g : Graph) : list Entity := default [] (g_entities g).
Definition get_tokens (g : Graph) : list string := default [] (g_tokens g).

Definition set_edgeSet (es : option (list Edge)) (g : Graph) : Graph :=
  mkGraph es (g_entities g) (g_tokens g) (g_filter g).
Definition set_entities (ents : list Entity) (g : Graph) : Graph :=
  mkGraph (g_edgeSet g) (Some ents) (g_tokens g) (g_filter g).
Definition set_filter (v : string) (g : Graph) : Graph :=
  mkGraph (g_edgeSet g) (g_entities g) (g_tokens g) (Some v).

(** Modelled from the spec: [graph.copy_graph] is not among the sources.  The
    specification describes it as returning a copy of the graph (edges,
    entities, optional tokens, optional filter); the doctests of
    [apply_grounding] show that the copy always carries ['edgeSet'] and
    ['entities'], empty when the input lacks them, and ['tokens'] only when
    the input has it. *)
Definition copy_graph (g : Graph) : Graph :=
  mkGraph (Some (get_edgeSet g)) (Some (get_entities g)) (g_tokens g) (g_filter g).

(** ** Applying a grounding *)

(** The variable names of a grounding: ["e2" + str(i)], ["hop{}v".format(i)],
    ["r{}d".format(i)], ["r{}r".format(i)], ["r{}v".format(i)]. *)
Definition var_e2 (i : nat) : string := "e2" +:+ pretty i.
Definition var_hop (i : nat) : string := "hop" +:+ pretty i +:+ "v".
Definition var_rd (i : nat) : string := "r" +:+ pretty i +:+ "d".
Definition var_rr (i : nat) : string := "r" +:+ pretty i +:+ "r".
Definition var_rv (i : nat) : string := "r" +:+ pretty i +:+ "v".

(** The body of the loop of [apply_grounding] for the edge at index [i]. *)
Definition ground_edge (grounding : gmap string string) (i : nat) (edge : Edge) : Edge :=
  let edge :=
    match grounding !! var_e2 i with
    | Some v => set_rightkbID v edge
    | None => edge
    end in
  let edge :=
    match grounding !! var_hop i with
    | Some v => if bool_decide (is_Some (e_hopUp edge))
                then set_hopUp v edge else set_hopDown v edge
    | None => edge
    end in
  match grounding !! var_rd i with
  | Some v => set_type "direct" (set_kbID v edge)
  | None =>
    match grounding !! var_rr i with
    | Some v => set_type "reverse" (set_kbID v edge)
    | None =>
      match grounding !! var_rv i with
      | Some v => set_type "v-structure" (set_kbID v edge)
      | None => edge
      end
    end
  end.

Definition apply_grounding (g : Graph) (grounding : gmap string string) : Graph :=
  let grounded := copy_graph g in
  set_edgeSet (imap (ground_edge grounding) <$> g_edgeSet grounded) grounded.

(** ** Python helpers *)

(** Truthiness of a string and of an optional string ([None] and [""] are
    false). *)
Definition truthy (s : string) : bool := negb (bool_decide (s = "")).
Definition has {A} (o : option A) : bool :=
  match o with Some _ => true | None => false end.

(** [s[:-1]]. *)
Fixpoint drop_last_char (s : string) : string :=
  match s with
  | EmptyString => EmptyString
  | String c EmptyString => EmptyString
  | String c s' => String c (drop_last_char s')
  end.

(** [s[-1]], which raises [IndexError] on the empty string. *)
Fixpoint last_char (s : string) : option ascii :=
  match s with
  | EmptyString => None
  | String c EmptyString => Some c
  | String c s' => last_char s'
  end.

(** ["{}".format(v)] for an optional string. *)
Definition py_str (o : option string) : string := default "None" o.

(** [x in l] for a list or set of strings. *)
Definition str_in (x : string) (l : list string) : bool := bool_decide (x ∈ l).

(** Comparison of scores. *)
Definition Qltb (x y : Q) : bool := negb (Qle_bool y x).

(** [sorted(l, key=key, reverse=True)]: a stable sort into non-increasing
    order of the key; elements with equal keys keep their order. *)
Fixpoint insert_desc {A} (key : A → Q) (x : A) (l : list A) : list A :=
  match l with
  | [] => [x]
  | y :: ys => if Qltb (key x) (key y) then y :: insert_desc key x ys
               else x :: y :: ys
  end.
Definition sorted_desc {A} (key : A → Q) (l : list A) : list A :=
  foldr (insert_desc key) [] l.

(** [max(key(x) for x in l)] for a non-empty [x :: l]. *)
Definition Qmax (x y : Q) : Q := if Qltb x y then y else x.
Definition max_key {A} (key : A → Q) (x : A) (l : list A) : Q :=
  foldl (λ m y, Qmax m (key y)) (key x) l.

(** ** Outcomes *)

Inductive exn := AssertionError | IndexError | TypeError.

(** The result of a computation: a value, a raised exception, or a loop that
    did not finish within its fuel. *)
Inductive Res (A : Type) :=
  | Ok (a : A)
  | Raise (e : exn)
  | OutOfFuel.
Arguments Ok {A} a.
Arguments Raise {A} e.
Arguments OutOfFuel {A}.

#[global] Instance Res_ret : MRet Res := λ A a, Ok a.
#[global] Instance Res_bind : MBind Res := λ A B f m,
  match m with
  | Ok a => f a
  | Raise e => Raise e
  | OutOfFuel => OutOfFuel
  end.

(** The calls to collaborators that the specification counts. *)
Inductive Event :=
  | QueryGroundings (g : Graph)
  | ScoresForInstance (gs : list Graph).

(** A computation that calls collaborators: its outcome and the calls it has
    made, in order. *)
Definition M (A : Type) : Type := Res A * list Event.

#[global] Instance M_ret : MRet M := λ A a, (Ok a, []).
#[global] Instance M_bind : MBind M := λ A B f m,
  match m with
  | (Ok a, log) => let '(r, log') := f a in (r, log ++ log')
  | (Raise e, log) => (Raise e, log)
  | (OutOfFuel, log) => (OutOfFuel, log)
  end.

Definition lift {A} (r : Res A) : M A := (r, []).

(** [acc = []; for x in l: acc += f(x)]. *)
Fixpoint extend_each {A B} (f : A → M (list B)) (l : list A) (acc : list B) : M (list B) :=
  match l with
  | [] => mret acc
  | x :: xs => r ← f x; extend_each f xs (acc ++ r)
  end.

(** [[x for x in l if f(x)]] and [all(f(x) for x in l)] where [f] may raise. *)
Fixpoint filter_res {A} (f : A → Res bool) (l : list A) : Res (list A) :=
  match l with
  | [] => mret []
  | x :: xs => b ← f x; r ← filter_res f xs; mret (if b : bool then x :: r else r)
  end.
Fixpoint all_res {A} (f : A → Res bool) (l : list A) : Res bool :=
  match l with
  | [] => mret true
  | x :: xs => b ← f x; if b : bool then all_res f xs else mret false
  end.

(** ** Collaborators and configuration *)

(** The module-level dictionary [generation_p]. *)
Record Config := mkConfig {
  label_query_results_on : bool;  (* 'label.query.results' *)
  replace_entities_on : bool;     (* 'replace.entities' *)
  use_whitelist : bool            (* 'use.whitelist' *)
}.
Definition generation_p : Config := mkConfig true true false.

(** The functions and constants of the other modules.  Each is a function of
    its arguments.  [character_linkings name film_id] stands for
    [post_process_entity_linkings(query_wikidata(character_query(name, film_id)))].
    [post_process_answers_given_graph] rewrites answer labels only; the
    functions below use the answer sets it returns as they are. *)
Record Externals := mkExternals {
  restrict : Graph → list Graph;
  expand : Graph → list Graph;
  v_structure_markers : list string;
  kb_groundings : Graph → list (gmap string string);
  query_graph_denotations : Graph → list string;
  filter_denotation_by_importance : list string → list string;
  label_query_results : list string → list (list string);
  map_query_results : list string → list (list string);
  label_entity : string → option string;
  property_whitelist : list string;
  character_linkings : string → string → list string;
  link_entity : Entity → list string;
  max_entity_options : nat;
  add_string_representations_to_edges : bool → Graph → Graph;
  replace_entities : Graph → Graph;
  get_graph_last_edge : Graph → Edge;
  retrieval_prec_rec_f1_with_altlabels : list string → list (list string) → Q * Q * Q;
  post_process_answers_given_graph : list (list string) → Graph → list (list string);
  config : Config
}.

(** The third component of an entry of the gold-guided search: the answer
    sets of a chosen candidate, or the number of answer sets of a rejected
    one. *)
Inductive Payload :=
  | Answers (a : list (list string))
  | Count (n : nat).

(** An entry [(graph, (precision, recall, f1), payload)] of the gold-guided
    pool and result lists, and an entry [(graph, score)] of the model-guided
    ones. *)
Definition GoldEntry : Type := Graph * (Q * Q * Q) * Payload.
Definition ModelEntry : Type := Graph * Q.

(** [x[1][2]] and [x[1]]. *)
Definition entry_f1 (x : GoldEntry) : Q := snd (snd (fst x)).
Definition entry_score (x : ModelEntry) : Q := snd x.

(** An entity while [link_entities_in_graph] works on it: [w_mutable] tells
    a list made by [list(entity) + [linkings]] from a tuple of the input.
    (The graphs of the functions on values hold their entities as tuples, as
    the program builds them; entities that a caller gives as lists are
    covered by the functions on objects, [Heap.link_entities_in_graph_ref].) *)
Record WEntity := mkWEntity {
  w_mutable : bool;
  w_span : list string;
  w_tag : string;
  w_links : option (list string)
}.
#[global] Instance WEntity_eq_dec : EqDecision WEntity.
Proof. solve_decision. Defined.

Definition of_tuple (e : Entity) : WEntity :=
  mkWEntity false (ent_span e) (ent_tag e) (ent_links e).
Definition to_tuple (w : WEntity) : Entity :=
  mkEntity (w_span w) (w_tag w) (w_links w).

(** [" ".join(l)]. *)
Fixpoint join_space (l : list string) : string :=
  match l with
  | [] => ""
  | [x] => x
  | x :: xs => x +:+ " " +:+ join_space xs
  end.

Section Core.
Context (X : Externals).

(** [any(w in set(g.get('tokens', [])) for w in v_structure_markers)]. *)
Definition has_v_structure_marker (g : Graph) : bool :=
  existsb (λ w, str_in w (get_tokens g)) (v_structure_markers X).

(** *** Entity enrichment *)

(** The first loop of [link_entities_in_graph]. *)
Definition link_one (entity : Entity) : WEntity :=
  if bool_decide (ent_links entity = None) && negb (bool_decide (ent_tag entity = "CD"))
  then mkWEntity true (ent_span entity) (ent_tag entity) (Some (link_entity X entity))
  else of_tuple entity.

(** [e[1] == "PERSON" and len(e[0]) == 1 and len(e) == 3]. *)
Definition is_character (e : WEntity) : bool :=
  bool_decide (w_tag e = "PERSON") && (length (w_span e) =? 1)%nat && has (w_links e).

(** [[e_id for e in entities for e_id in e[2] if e != entity and len(e) == 3]]:
    [e[2]] is evaluated for every [e], also for a two-element one. *)
Fixpoint film_ids (entity : WEntity) (entities : list WEntity) : Res (list string) :=
  match entities with
  | [] => mret []
  | e :: es =>
    match w_links e with
    | None => Raise IndexError
    | Some ids =>
      rest ← film_ids entity es;
      mret ((if bool_decide (e ≠ entity) && has (w_links e) then ids else []) ++ rest)
    end
  end.

(** The loop over [film_id] for one entity: [entity[2] = ...] raises
    [TypeError] on a tuple. *)
Fixpoint add_character_linkings (films : list string) (entity : WEntity) : Res WEntity :=
  match films with
  | [] => mret entity
  | film_id :: rest =>
    let character := character_linkings X (join_space (w_span entity)) film_id in
    if w_mutable entity then
      let links := take (max_entity_options X) (character ++ default [] (w_links entity)) in
      add_character_linkings rest
        (mkWEntity true (w_span entity) (w_tag entity) (Some links))
    else Raise TypeError
  end.

(** The loop over the single-token PERSON entities, given by their
    positions in [entities]; the entity at a position is updated in place.
    (The positions come from [entities] itself, so the lookup finds one.) *)
Fixpoint link_characters (positions : list nat) (entities : list WEntity) : Res (list WEntity) :=
  match positions with
  | [] => mret entities
  | j :: rest =>
    match entities !! j with
    | None => mret entities
    | Some entity =>
      films ← film_ids entity entities;
      entity' ← add_character_linkings films entity;
      link_characters rest (<[j := entity']> entities)
    end
  end.

(** Positions of the elements of [l] that satisfy [p], counted from [i]. *)
Fixpoint positions_from {A} (p : A → bool) (i : nat) (l : list A) : list nat :=
  match l with
  | [] => []
  | x :: xs => (if p x then [i] else []) ++ positions_from p (S i) xs
  end.

Definition link_entities_in_graph (ungrounded_graph : Graph) : Res Graph :=
  if forallb (λ e, has (ent_links e)) (get_entities ungrounded_graph)
  then mret ungrounded_graph
  else
    let entities := map link_one (get_entities ungrounded_graph) in
    entities ←
      (if has_v_structure_marker ungrounded_graph
       then link_characters (positions_from is_character 0 entities) entities
       else mret entities);
    mret (set_entities (map to_tuple entities) ungrounded_graph).

(** The body of the loop of [add_canonical_labels_to_entities]. *)
Definition label_edge (edge : Edge) : Edge :=
  match e_rightkbID edge with
  | Some entitykbID =>
    if truthy entitykbID && negb (has (e_canonical_right edge)) then
      match label_entity X entitykbID with
      | Some entity_label =>
        if truthy entity_label then set_canonical_right entity_label edge else edge
      | None => edge
      end
    else edge
  | None => edge
  end.

Definition add_canonical_labels_to_entities (g : Graph) : Graph :=
  set_edgeSet (map label_edge <$> g_edgeSet g) g.

(** *** Grounding enumerator *)

(** [wdaccess.query_graph_groundings(g)]: one query to the knowledge base. *)
Definition query_graph_groundings (g : Graph) : M (list (gmap string string)) :=
  (Ok (kb_groundings X g), [QueryGroundings g]).

(** [not ('type' in e and 'kbID' in e)]. *)
Definition is_free (e : Edge) : bool := negb (has (e_type e) && has (e_kbID e)).

(** ['hopUp' in e or 'hopDown' in e]. *)
Definition has_hop (e : Edge) : bool := has (e_hopUp e) || has (e_hopDown e).

(** The list of the tuples of [itertools.product] over [k] copies of
    [['direct', 'reverse']], in its order (the last component varies
    fastest). *)
Fixpoint type_combinations (k : nat) : list (list string) :=
  match k with
  | 0 => [[]]
  | S k' =>
    flat_map (λ t, map (cons t) (type_combinations k')) ["direct"; "reverse"]
  end.

(** [for i, edge in enumerate([e for e in edges if free]): edge['type'] = types[i]].
    The callers give one type per free edge, or the single type of the first
    free edge. *)
Fixpoint tag_free_edges (types : list string) (edges : list Edge) : list Edge :=
  match edges with
  | [] => []
  | e :: es =>
    if is_free e then
      match types with
      | t :: ts => set_type t e :: tag_free_edges ts es
      | [] => e :: es
      end
    else e :: tag_free_edges types es
  end.

(** [t = graph.copy_graph(g)] with its free edges tagged. *)
Definition tagged_copy (types : list string) (g : Graph) : Graph :=
  let t := copy_graph g in
  set_edgeSet (tag_free_edges types <$> g_edgeSet t) t.

Definition find_groundings (g : Graph) : M (list (gmap string string)) :=
  let free := List.filter is_free (get_edgeSet g) in
  let num_edges_to_ground := length free in
  query_results ←
    (if negb (existsb has_hop free)
     then query_graph_groundings g
     else
       extend_each (λ type_combination,
                     query_graph_groundings (tagged_copy type_combination g))
                   (type_combinations num_edges_to_ground) []);
  extra ←
    (if has_v_structure_marker g && (num_edges_to_ground =? 1)%nat
     then query_graph_groundings (tagged_copy ["v-structure"] g)
     else mret []);
  mret (query_results ++ extra).

(** *** Scoring against gold answers *)

(** The loop [for i, s_g in enumerate(grounded_graphs)] of
    [ground_one_with_gold].  [grounded_graphs] and [retrieved_answers] are
    always extended together and are kept as one list of pairs.  The loop also
    visits the elements it appends, so it takes fuel. *)
Fixpoint add_importance_variants (fuel i : nat) (cands : list (Graph * list string))
    : Res (list (Graph * list string)) :=
  match cands !! i with
  | None => Ok cands
  | Some (s_g, answers) =>
    match fuel with
    | 0 => OutOfFuel
    | S fuel' =>
      add_importance_variants fuel' (S i)
        (if (3 <? length answers)%nat
         then cands ++ [(set_filter "importance" (copy_graph s_g),
                         filter_denotation_by_importance X answers)]
         else cands)
    end
  end.

(** The grounded graphs of a skeleton with their post-processed answer sets
    and evaluation results, as [ground_one_with_gold] has them before it
    selects. *)
Definition evaluated_candidates (fuel : nat) (s_g : Graph) (gold_answers : list string)
    : M (list (Graph * list (list string) * (Q * Q * Q))) :=
  groundings ← find_groundings s_g;
  let grounded_graphs := map (apply_grounding s_g) groundings in
  let retrieved_answers := map (query_graph_denotations X) grounded_graphs in
  cands ← lift (add_importance_variants fuel 0 (zip grounded_graphs retrieved_answers));
  let post_process_results :=
    if label_query_results_on (config X)
    then label_query_results X else map_query_results X in
  mret (map (λ c : Graph * list string,
               let answer_set :=
                 post_process_answers_given_graph X (post_process_results (snd c)) (fst c) in
               (fst c, answer_set,
                retrieval_prec_rec_f1_with_altlabels X gold_answers answer_set))
            cands).

Definition candidate_f1 (c : Graph * list (list string) * (Q * Q * Q)) : Q :=
  snd (snd c).
Definition chosen_entry (c : Graph * list (list string) * (Q * Q * Q)) : GoldEntry :=
  (fst (fst c), snd c, Answers (snd (fst c))).
Definition not_chosen_entry (c : Graph * list (list string) * (Q * Q * Q)) : GoldEntry :=
  (fst (fst c), (0, 0, 0)%Q, Count (length (snd (fst c)))).

Definition ground_one_with_gold (fuel : nat) (s_g : Graph) (gold_answers : list string)
    (min_fscore : Q) : M (list GoldEntry * list GoldEntry) :=
  cands ← evaluated_candidates fuel s_g gold_answers;
  let chosen_graphs :=
    map chosen_entry (List.filter (λ c, Qltb min_fscore (candidate_f1 c)) cands) in
  let not_chosen_graphs :=
    map not_chosen_entry (List.filter (λ c, Qltb (candidate_f1 c) (1 # 100)) cands) in
  mret (chosen_graphs, not_chosen_graphs).

(** The loop [while input_graphs and len(all_chosen_graphs) == 0]. *)
Fixpoint ground_with_gold_loop (fuel : nat) (gold_answers : list string) (min_fscore : Q)
    (input_graphs : list Graph) (all_chosen all_not_chosen : list GoldEntry)
    : M (list GoldEntry * list GoldEntry) :=
  match input_graphs with
  | [] => mret (all_chosen, all_not_chosen)
  | s_g :: rest =>
    if (length all_chosen =? 0)%nat then
      r ← ground_one_with_gold fuel s_g gold_answers min_fscore;
      ground_with_gold_loop fuel gold_answers min_fscore rest
        (all_chosen ++ fst r) (all_not_chosen ++ snd r)
    else mret (all_chosen, all_not_chosen)
  end.

Definition ground_with_gold (fuel : nat) (input_graphs : list Graph)
    (gold_answers : list string) (min_fscore : Q) : M (list GoldEntry * list GoldEntry) :=
  r ← ground_with_gold_loop fuel gold_answers min_fscore input_graphs [] [];
  let all_chosen_graphs := sorted_desc entry_f1 (fst r) in
  let all_chosen_graphs :=
    if (3 <? length all_chosen_graphs)%nat then take 3 all_chosen_graphs
    else all_chosen_graphs in
  mret (all_chosen_graphs, snd r).

(** *** Scoring with a model *)

(** [qa_model.scores_for_instance(graphs)]: one call to the scorer. *)
Definition scores_for_instance (qa_model : list Graph → list Q) (graphs : list Graph)
    : M (list Q) :=
  (Ok (qa_model graphs), [ScoresForInstance graphs]).

(** [e.get('type') in types]. *)
Definition type_in (e : Edge) (types : list string) : bool :=
  match e_type e with
  | Some t => str_in t types
  | None => false
  end.

Definition relation_types : list string := ["direct"; "reverse"; "v-structure"].

(** [e.get('type') in {'time', 'v-structure'} or e.get("kbID")[:-1] in
    wdaccess.property_whitelist]; subscripting [None] raises [TypeError]. *)
Definition edge_whitelisted (e : Edge) : Res bool :=
  if type_in e ["time"; "v-structure"] then Ok true
  else
    match e_kbID e with
    | None => Raise TypeError
    | Some kbID => Ok (str_in (drop_last_char kbID) (property_whitelist X))
    end.

(** [e.get('kbID', " ")[-1] not in 'qr']. *)
Definition not_qualifier (e : Edge) : Res bool :=
  match last_char (default " " (e_kbID e)) with
  | None => Raise IndexError
  | Some c => Ok (negb (bool_decide (c = "q"%char) || bool_decide (c = "r"%char)))
  end.

(** [e.get('kbID', "")[:-1]]. *)
Definition base_relation (e : Edge) : string := drop_last_char (default "" (e_kbID e)).

(** The set comprehension [direct_relations]. *)
Fixpoint direct_relations_of (graphs : list Graph) : Res (list string) :=
  match graphs with
  | [] => mret []
  | g :: rest =>
    let e := get_graph_last_edge X g in
    b ← (if type_in e relation_types then not_qualifier e else mret false);
    r ← direct_relations_of rest;
    mret (if b : bool then base_relation e :: r else r)
  end.

(** ["{}-{}".format(a, b)]. *)
Definition dash (a b : option string) : string := py_str a +:+ "-" +:+ py_str b.

(** The set comprehension [first_order_relations]. *)
Definition first_order_relations_of (graphs : list Graph) : list string :=
  map (λ g, let e := get_graph_last_edge X g in dash (e_kbID e) (e_type e))
      (List.filter (λ g, type_in (get_graph_last_edge X g) relation_types) graphs).

(** The filter on auxiliary hops. *)
Definition keeps_hop (first_order_relations : list string) (g : Graph) : bool :=
  let e := get_graph_last_edge X g in
  (negb (has (e_hopUp e)) && negb (has (e_hopDown e)))
  || (negb (str_in (dash (mjoin (e_hopUp e)) (e_type e)) first_order_relations)
      && negb (str_in (dash (mjoin (e_hopDown e)) (e_type e)) first_order_relations)).

(** The grounded graphs that [ground_with_model] hands to the scorer. *)
Definition candidates_for_model (input_graphs : list Graph) : M (list Graph) :=
  grounded_graphs ←
    extend_each (λ s_g, groundings ← find_groundings s_g;
                        mret (map (apply_grounding s_g) groundings))
                input_graphs [];
  grounded_graphs ←
    (if use_whitelist (config X)
     then lift (filter_res (λ g, all_res edge_whitelisted (get_edgeSet g)) grounded_graphs)
     else mret grounded_graphs);
  let grounded_graphs :=
    map (add_string_representations_to_edges X (replace_entities_on (config X)))
        grounded_graphs in
  let grounded_graphs :=
    if replace_entities_on (config X) then map (replace_entities X) grounded_graphs
    else grounded_graphs in
  direct_relations ← lift (direct_relations_of grounded_graphs);
  grounded_graphs ←
    lift (filter_res (λ g, let e := get_graph_last_edge X g in
                           b ← not_qualifier e;
                           mret (b || negb (str_in (base_relation e) direct_relations)))
                     grounded_graphs);
  let first_order_relations := first_order_relations_of grounded_graphs in
  mret (List.filter (keeps_hop first_order_relations) grounded_graphs).

Definition ground_with_model (input_graphs : list Graph) (qa_model : list Graph → list Q)
    (min_score : Q) (beam_size : nat) : M (list ModelEntry) :=
  grounded_graphs ← candidates_for_model input_graphs;
  if (length grounded_graphs =? 0)%nat then mret []
  else
    model_scores ← scores_for_instance qa_model grounded_graphs;
    if negb (length model_scores =? length grounded_graphs)%nat
    then lift (Raise AssertionError)
    else
      let all_chosen_graphs :=
        List.filter (λ x : ModelEntry, Qltb min_score (entry_score x))
                    (zip grounded_graphs model_scores) in
      let all_chosen_graphs := sorted_desc entry_score all_chosen_graphs in
      let all_chosen_graphs :=
        if (beam_size <? length all_chosen_graphs)%nat
        then take beam_size all_chosen_graphs else all_chosen_graphs in
      mret all_chosen_graphs.

(** *** Model-guided search *)

Record ModelState := mkModelState {
  m_pool : list ModelEntry;
  m_generated : list ModelEntry
}.

(** One iteration of the loop of [generate_with_model]; the loop enters it
    with a pool that is not empty. *)
Definition model_step (qa_model : list Graph → list Q) (beam_size : nat)
    (st : ModelState) : M ModelState :=
  match m_pool st with
  | [] => mret st
  | g :: pool =>
    let master_score := entry_score g in
    let restricted_graphs := map add_canonical_labels_to_entities (restrict X (fst g)) in
    let suggested_graphs := restricted_graphs ++ flat_map (expand X) restricted_graphs in
    chosen_graphs ← ground_with_model suggested_graphs qa_model master_score beam_size;
    if (0 <? length chosen_graphs)%nat
    then mret (mkModelState (pool ++ chosen_graphs) (m_generated st ++ chosen_graphs))
    else mret (mkModelState pool (m_generated st))
  end.

Fixpoint model_loop (fuel : nat) (qa_model : list Graph → list Q) (beam_size : nat)
    (st : ModelState) : M (list ModelEntry) :=
  match m_pool st with
  | [] => mret (sorted_desc entry_score (m_generated st))
  | _ :: _ =>
    match fuel with
    | 0 => lift OutOfFuel
    | S fuel' =>
      st' ← model_step qa_model beam_size st;
      model_loop fuel' qa_model beam_size st'
    end
  end.

Definition model_init (ungrounded_graph : Graph) : ModelState :=
  mkModelState [(ungrounded_graph, - (1))%Q] [].

Definition generate_with_model (fuel : nat) (ungrounded_graph : Graph)
    (qa_model : list Graph → list Q) (beam_size : nat) : M (list ModelEntry) :=
  ungrounded_graph ← lift (link_entities_in_graph ungrounded_graph);
  model_loop fuel qa_model beam_size (model_init ungrounded_graph).

(** *** Gold-guided search *)

(** The pool and the accumulated result lists of [generate_with_gold].  (The
    counter [iterations] is only logged.) *)
Record GoldState := mkGoldState {
  pool : list GoldEntry;
  positive_graphs : list GoldEntry;
  negative_graphs : list GoldEntry
}.

(** [positive_graphs[-1][1][2] if len(positive_graphs) > 0 else 0.0]. *)
Definition last_positive_f1 (positives : list GoldEntry) : Q :=
  match last positives with
  | Some g => entry_f1 g
  | None => 0
  end.

(** The condition of the [while] loop. *)
Definition gold_continue (st : GoldState) : bool :=
  negb (length (pool st) =? 0)%nat && Qltb (last_positive_f1 (positive_graphs st)) (9 # 10).

(** The inner loop [while (not chosen_graphs or bonus_round) and
    suggested_graphs] with its variables [chosen_graphs], [bonus_round],
    [master_g_fscore] and the accumulator [negative_graphs]. *)
Fixpoint refine_loop (fuel : nat) (gold_answers : list string) (suggested_graphs : list Graph)
    (chosen_graphs : list GoldEntry) (bonus_round : bool) (master_g_fscore : Q)
    (negatives : list GoldEntry) : M (list GoldEntry * list GoldEntry) :=
  match suggested_graphs with
  | [] => mret (chosen_graphs, negatives)
  | s_g :: rest =>
    if (length chosen_graphs =? 0)%nat || bonus_round then
      r ← ground_with_gold fuel [s_g] gold_answers master_g_fscore;
      let chosen_graphs := chosen_graphs ++ fst r in
      let negatives := negatives ++ snd r in
      cn ← (if (length chosen_graphs =? 0)%nat then
              r ← ground_with_gold fuel (expand X s_g) gold_answers master_g_fscore;
              mret (chosen_graphs ++ fst r, negatives ++ snd r)
            else mret (chosen_graphs, negatives));
      match fst cn with
      | [] => refine_loop fuel gold_answers rest (fst cn) false master_g_fscore (snd cn)
      | c :: cs =>
        let current_f1 := max_key entry_f1 c cs in
        if Qltb current_f1 (5 # 100)
        then refine_loop fuel gold_answers rest (fst cn) true current_f1 (snd cn)
        else refine_loop fuel gold_answers rest (fst cn) false master_g_fscore (snd cn)
      end
    else mret (chosen_graphs, negatives)
  end.

(** One iteration of the outer loop, which enters it with a pool that is
    not empty. *)
Definition gold_step (fuel : nat) (gold_answers : list string) (st : GoldState) : M GoldState :=
  match pool st with
  | [] => mret st
  | g :: pool =>
    let master_g_fscore := entry_f1 g in
    if Qltb master_g_fscore (7 # 10) then
      let restricted_graphs :=
        map add_canonical_labels_to_entities (restrict X (fst (fst g))) in
      r ← refine_loop fuel gold_answers restricted_graphs [] false master_g_fscore
                      (negative_graphs st);
      if (0 <? length (fst r))%nat
      then mret (mkGoldState (sorted_desc entry_f1 (pool ++ fst r))
                             (positive_graphs st) (snd r))
      else mret (mkGoldState pool (positive_graphs st ++ [g]) (snd r))
    else mret (mkGoldState pool (positive_graphs st ++ [g]) (negative_graphs st))
  end.

(** The outer loop: [fuel] bounds its iterations, [inner] is the fuel of the
    loops inside one iteration. *)
Fixpoint gold_loop (inner fuel : nat) (gold_answers : list string) (st : GoldState)
    : M (list GoldEntry) :=
  if gold_continue st then
    match fuel with
    | 0 => lift OutOfFuel
    | S fuel' =>
      st' ← gold_step inner gold_answers st;
      gold_loop inner fuel' gold_answers st'
    end
  else mret (positive_graphs st ++ negative_graphs st).

Definition gold_init (ungrounded_graph : Graph) : GoldState :=
  mkGoldState [(ungrounded_graph, (0, 0, 0)%Q, Answers [])] [] [].

Definition generate_with_gold (fuel : nat) (ungrounded_graph : Graph)
    (gold_answers : list string) : M (list GoldEntry) :=
  ungrounded_graph ← lift (link_entities_in_graph ungrounded_graph);
  gold_loop fuel fuel gold_answers (gold_init ungrounded_graph).

End Core.

(** ** The states that the search loops go through *)

(** The states at the head of the [while] loop of [generate_with_gold]. *)
Inductive GoldReachable (X : Externals) (inner : nat) (gold_answers : list string)
    (seed : Graph) : GoldState → Prop :=
  | gold_reach_init g :
      link_entities_in_graph X seed = Ok g →
      GoldReachable X inner gold_answers seed (gold_init g)
  | gold_reach_step st st' log :
      GoldReachable X inner gold_answers seed st →
      gold_continue st = true →
      gold_step X inner gold_answers st = (Ok st', log) →
      GoldReachable X inner gold_answers seed st'.

(** The states at the head of the [while] loop of [generate_with_model]. *)
Inductive ModelReachable (X : Externals) (qa_model : list Graph → list Q) (beam_size : nat)
    (seed : Graph) : ModelState → Prop :=
  | model_reach_init g :
      link_entities_in_graph X seed = Ok g →
      ModelReachable X qa_model beam_size seed (model_init g)
  | model_reach_step st st' log :
      ModelReachable X qa_model beam_size seed st →
      m_pool st ≠ [] →
      model_step X qa_model beam_size st = (Ok st', log) →
      ModelReachable X qa_model beam_size seed st'.

(** [max(f1 of the positives)], with the 0.0 that the loop condition uses
    when there is no positive yet. *)
Definition best_positive_f1 (positives : list GoldEntry) : Q :=
  match positives with
  | [] => 0
  | p :: ps => max_key entry_f1 p ps
  end.

(** A list in non-increasing order of its keys, and in strictly decreasing
    order. *)
Definition non_increasing {A} (key : A → Q) (l : list A) : Prop :=
  ∀ i j x y, l !! i = Some x → l !! j = Some y → (i < j)%nat → (key y <= key x)%Q.
Definition strictly_decreasing {A} (key : A → Q) (l : list A) : Prop :=
  ∀ i j x y, l !! i = Some x → l !! j = Some y → (i < j)%nat → (key y < key x)%Q.

(** ** A small instance of the collaborators

    One free edge is proposed for the empty graph and a second one for the
    graph grounded with P1v; the knowledge base grounds the first edge with
    P1v or P2v and the second with P3v. *)
Module Toy.

Definition free_edge : Edge := mkEdge None None (Some "Q1") None None None None.

Definition first_kbID (g : Graph) : option string :=
  head (get_edgeSet g) ≫= e_kbID.

Definition toy_restrict (g : Graph) : list Graph :=
  match get_edgeSet g with
  | [] => [set_edgeSet (Some [free_edge]) g]
  | [e] => if bool_decide (e_kbID e = Some "P1v")
           then [set_edgeSet (Some [e; free_edge]) g] else []
  | _ => []
  end.

Definition toy_groundings (g : Graph) : list (gmap string string) :=
  match length (get_edgeSet g) with
  | 1 => [{[ "r0d" := "P1v" ]}; {[ "r0d" := "P2v" ]}]
  | 2 => [{[ "r1d" := "P3v" ]}]
  | _ => []
  end.

Definition toy_last_edge (g : Graph) : Edge := default empty_edge (last (get_edgeSet g)).

Definition toy_score (g : Graph) : Q :=
  match e_kbID (toy_last_edge g) with
  | Some kbID =>
    if bool_decide (kbID = "P1v") then 9 # 10
    else if bool_decide (kbID = "P3v") then 95 # 100
    else 1 # 2
  | None => 0
  end.

Definition toy_model (graphs : list Graph) : list Q := map toy_score graphs.

(** A scorer that breaks its contract: it returns no score at all. *)
Definition silent_model (graphs : list Graph) : list Q := [].

Definition world : Externals := {|
  restrict := toy_restrict;
  expand := λ _, [];
  v_structure_markers := ["play"];
  kb_groundings := toy_groundings;
  query_graph_denotations := λ _, ["Q5"];
  filter_denotation_by_importance := take 3;
  label_query_results := map (λ x, [x]);
  map_query_results := map (λ x, [x]);
  label_entity := λ _, Some "label";
  property_whitelist := ["P1"; "P2"; "P3"];
  character_linkings := λ _ _, ["Q9"];
  link_entity := λ _, ["Q1"; "Q2"];
  max_entity_options := 3;
  add_string_representations_to_edges := λ _ g, g;
  replace_entities := λ g, g;
  get_graph_last_edge := toy_last_edge;
  retrieval_prec_rec_f1_with_altlabels := λ _ _, (1 # 2, 1 # 2, 1 # 2);
  post_process_answers_given_graph := λ a _, a;
  config := generation_p
|}.

Definition seed : Graph := mkGraph (Some []) None None None.
Definition skeleton : Graph := mkGraph (Some [free_edge]) (Some []) None None.

(** A skeleton whose question has a v-structure marker, and one whose free
    edge carries a hop. *)
Definition marked_skeleton : Graph :=
  mkGraph (Some [free_edge]) (Some []) (Some ["who"; "play"]) None.
Definition hop_skeleton : Graph :=
  mkGraph (Some [mkEdge None None (Some "Q1") (Some None) None None None;
                 mkEdge (Some "direct") (Some "P1v") None None None None None;
                 free_edge])
          (Some []) None None.

(** The two groundings of [skeleton], which the evaluation scores alike. *)
Definition grounded_with (kbID : string) : Graph :=
  mkGraph (Some [mkEdge (Some "direct") (Some kbID) (Some "Q1") None None None None])
          (Some []) None None.
Definition chosen_P1 : GoldEntry :=
  (grounded_with "P1v", (1 # 2, 1 # 2, 1 # 2)%Q, Answers [["Q5"]]).
Definition chosen_P2 : GoldEntry :=
  (grounded_with "P2v", (1 # 2, 1 # 2, 1 # 2)%Q, Answers [["Q5"]]).

(** The entries of the model-guided pool after two iterations from [seed]:
    the grounding with P2v, and the graph grounded with P1v and P3v. *)
Definition labelled_edge (kbID : string) : Edge :=
  mkEdge (Some "direct") (Some kbID) (Some "Q1") None None (Some "label") None.
Definition model_P2 : ModelEntry :=
  (mkGraph (Some [labelled_edge "P2v"]) (Some []) None None, 1 # 2).
Definition model_P3 : ModelEntry :=
  (mkGraph (Some [labelled_edge "P1v"; labelled_edge "P3v"]) (Some []) None None, 95 # 100).

(** Graphs with entities: the doctest of [link_entities_in_graph], a linked
    graph, and a question with a v-structure marker and a numeral. *)
Definition norway : Graph :=
  mkGraph None (Some [mkEntity ["Norway"] "LOCATION" None; mkEntity ["oil"] "NN" None])
          (Some ["where"; "does"; "norway"; "get"; "their"; "oil"; "?"]) None.
Definition norway_linked : Graph :=
  mkGraph None (Some [mkEntity ["Norway"] "LOCATION" (Some ["Q1"; "Q2"]);
                      mkEntity ["oil"] "NN" (Some ["Q1"; "Q2"])])
          (Some ["where"; "does"; "norway"; "get"; "their"; "oil"; "?"]) None.
Definition bella : Graph :=
  mkGraph None (Some [mkEntity ["Bella"] "PERSON" None; mkEntity ["Twilight"] "NNP" None])
          (Some ["who"; "play"; "bella"; "on"; "twilight"]) None.
Definition bella_2008 : Graph :=
  mkGraph None (Some [mkEntity ["Bella"] "PERSON" None; mkEntity ["Twilight"] "NNP" None;
                      mkEntity ["2008"] "CD" None])
          (Some ["who"; "play"; "bella"; "on"; "twilight"; "2008"]) None.

(** The free edge of [skeleton] once it is labelled. *)
Definition labelled_edge_free : Edge :=
  mkEdge None None (Some "Q1") None None (Some "label") None.

(** A grounding with two relation variables for the same edge. *)
Definition one_edge_graph : Graph := mkGraph (Some [empty_edge]) None None None.
Definition clash_grounding : gmap string string :=
  <[ "r0d" := "P1v" ]> {[ "r0r" := "P2v" ]}.

End Toy.

(** ** Vocabulary of the statements *)

(** [t] is [g] with the free edges given the types of [types], the first free
    edge the first type and so on, and nothing else changed. *)
Definition tags_free_edges_of (types : list string) (g t : Graph) : Prop :=
  g_tokens t = g_tokens g
  ∧ g_filter t = g_filter g
  ∧ get_entities t = get_entities g
  ∧ length (get_edgeSet t) = length (get_edgeSet g)
  ∧ ∀ i e, get_edgeSet g !! i = Some e →
      (is_free e = false → get_edgeSet t !! i = Some e)
      ∧ (is_free e = true →
         ∃ ty, types !! length (List.filter is_free (take i (get_edgeSet g))) = Some ty
               ∧ get_edgeSet t !! i = Some (set_type ty e)).

(** The graphs that [find_groundings] sends to the knowledge base: the joint
    query or the tagged copies, then the v-structure copy. *)
Definition base_queries (g : Graph) : list Graph :=
  let free := List.filter is_free (get_edgeSet g) in
  if negb (existsb has_hop free) then [g]
  else map (λ types, tagged_copy types g) (type_combinations (length free)).
Definition extra_queries (X : Externals) (g : Graph) : list Graph :=
  let free := List.filter is_free (get_edgeSet g) in
  if has_v_structure_marker X g && (length free =? 1)%nat
  then [tagged_copy ["v-structure"] g] else [].


(** An entry that was chosen carries its answer sets; a rejected one carries
    the zero triple and a count. *)
Definition is_positive_entry (x : GoldEntry) : Prop := ∃ a, snd x = Answers a.
Definition is_negative_entry (x : GoldEntry) : Prop :=
  snd (fst x) = (0, 0, 0)%Q ∧ ∃ n, snd x = Count n.


(** ** Grounding without gold answers *)

(** The other calls to the knowledge base: [kb_groundings_cached t] is
    [wdaccess.query_graph_groundings(t, use_cache=True)];
    [kb_groundings_or_none t] is
    [wdaccess.query_graph_groundings(t, use_cache=False, pass_exception=True)],
    which is [None] when the query cannot be answered; [ask_wikidata g] is the
    truth value of [wdaccess.query_wikidata(wdaccess.graph_to_ask(g))]. *)
Record GroundingService := mkGroundingService {
  kb_groundings_cached : Graph → list (gmap string string);
  kb_groundings_or_none : Graph → option (list (gmap string string));
  ask_wikidata : Graph → bool
}.

(** The list of the tuples of [itertools.product] over the given lists, in
    its order (the last component varies fastest). *)
Fixpoint product {A} (lists : list (list A)) : list (list A) :=
  match lists with
  | [] => [[]]
  | l :: rest => flat_map (λ x, map (cons x) (product rest)) l
  end.

(** [del g['entities']] when the key is there. *)
Definition del_entities (g : Graph) : Graph :=
  mkGraph (g_edgeSet g) None (g_tokens g) (g_filter g).

Section WithoutGold.
Context (X : Externals) (KB : GroundingService).

Definition verify_grounding (g : Graph) : bool := ask_wikidata KB g.

(** [p['edgeSet'][0]]. *)
Definition first_edge (p : Graph) : option Edge := head (get_edgeSet p).

(** ["kbID" in e and e["kbID"][:-1] in wdaccess.property_whitelist]. *)
Definition relation_whitelisted (e : Edge) : bool :=
  match e_kbID e with
  | Some kbID => str_in (drop_last_char kbID) (property_whitelist X)
  | None => false
  end.

(** The groundings of one free edge in [approximate_groundings]: the edge is
    grounded alone, as the only edge of a graph [t], and the groundings with
    a relation of the whitelist are kept.  (Every grounding of [t] has one
    edge, so that its first edge is there.) *)
Definition edge_groundings (edge : Edge) : list Edge :=
  let t := mkGraph (Some [edge]) None None None in
  let edge_groundings := map (apply_grounding t) (kb_groundings_cached KB t) in
  let edge_groundings :=
    List.filter (λ e, match first_edge e with
                      | Some e0 => relation_whitelisted e0
                      | None => false
                      end) edge_groundings in
  omap first_edge edge_groundings.

Definition separate_groundings (g : Graph) : list (list Edge) :=
  map (λ edge, if is_free edge then edge_groundings edge else [edge]) (get_edgeSet g).

Definition approximate_groundings (g : Graph) : list Graph :=
  map (λ edge_set, set_edgeSet (Some edge_set) (copy_graph g))
      (product (separate_groundings g)).

(** The body of the loop of [find_groundings_with_gold] for one assignment of
    types. *)
Definition groundings_for_types (g : Graph) (type_combination : list string)
    : list Graph :=
  let t := tagged_copy type_combination g in
  match kb_groundings_or_none KB t with
  | None => List.filter verify_grounding (approximate_groundings t)
  | Some query_results => map (apply_grounding t) query_results
  end.

Definition find_groundings_with_gold (g : Graph) : list Graph :=
  let num_edges_to_ground := length (List.filter is_free (get_edgeSet g)) in
  flat_map (groundings_for_types g) (type_combinations num_edges_to_ground).

(** [e.get("kbID")[:-1] in wdaccess.property_whitelist]; subscripting [None]
    raises [TypeError]. *)
Definition kbID_whitelisted (e : Edge) : Res bool :=
  match e_kbID e with
  | None => Raise TypeError
  | Some kbID => Ok (str_in (drop_last_char kbID) (property_whitelist X))
  end.

(** [ground_without_gold].  ([wdaccess.clear_cache()] empties the cache of
    the knowledge base and has no part in the result.) *)
Definition ground_without_gold (input_graphs : list Graph) : Res (list Graph) :=
  let grounded_graphs := flat_map find_groundings_with_gold input_graphs in
  filter_res (λ g, all_res kbID_whitelisted (get_edgeSet g)) grounded_graphs.

(** The pool and the generated graphs of [generate_without_gold]. *)
Record PlainState := mkPlainState {
  p_pool : list Graph;
  p_generated : list Graph
}.

(** [[el for f in actions for el in f(g)]]. *)
Definition apply_actions (actions : list (Graph → list Graph)) (g : Graph) : list Graph :=
  flat_map (λ f, f g) actions.

(** One iteration of the loop of [generate_without_gold], which enters it
    with a pool that is not empty.  The three lists of actions are the sets
    [wikidata_actions & set(stages.RESTRICT_ACTIONS)],
    [wikidata_actions & set(stages.EXPAND_ACTIONS)] and [non_linking_actions]
    in the order in which they are iterated.  The pool is extended with the
    suggested graphs before they are labelled, but the labels are written
    into the same graph objects: the graphs of the pool carry them. *)
Definition plain_step (restrict_actions expand_actions non_linking_actions
                         : list (Graph → list Graph)) (st : PlainState) : PlainState :=
  match p_pool st with
  | [] => st
  | g :: pool =>
    let suggested_graphs := apply_actions restrict_actions g in
    let suggested_graphs :=
      suggested_graphs ++ flat_map (apply_actions expand_actions) suggested_graphs in
    let chosen_graphs := map (add_canonical_labels_to_entities X) suggested_graphs in
    let extended_graphs := flat_map (apply_actions non_linking_actions) chosen_graphs in
    mkPlainState (pool ++ chosen_graphs)
                 (p_generated st ++ chosen_graphs ++ extended_graphs)
  end.

Fixpoint plain_loop (fuel : nat)
    (restrict_actions expand_actions non_linking_actions : list (Graph → list Graph))
    (st : PlainState) : Res (list Graph) :=
  match p_pool st with
  | [] => Ok (p_generated st)
  | _ :: _ =>
    match fuel with
    | 0 => OutOfFuel
    | S fuel' =>
      plain_loop fuel' restrict_actions expand_actions non_linking_actions
                 (plain_step restrict_actions expand_actions non_linking_actions st)
    end
  end.

Definition generate_without_gold (fuel : nat) (ungrounded_graph : Graph)
    (restrict_actions expand_actions non_linking_actions : list (Graph → list Graph))
    : Res (list Graph) :=
  generated_graphs ←
    plain_loop fuel restrict_actions expand_actions non_linking_actions
               (mkPlainState [ungrounded_graph] []);
  let generated_graphs := List.filter verify_grounding generated_graphs in
  let generated_graphs := map del_entities generated_graphs in
  ground_without_gold generated_graphs.

End WithoutGold.


(** A small knowledge base for the grounding without gold answers: the joint
    query gives up on graphs with one edge, for which the cached query
    proposes a relation of the whitelist and one outside of it. *)
Module ToyKB.

Definition cached (g : Graph) : list (gmap string string) :=
  [{[ "r0d" := "P1v" ]}; {[ "r0r" := "P9v" ]}].

Definition service : GroundingService := {|
  kb_groundings_cached := cached;
  kb_groundings_or_none :=
    λ g, if (length (get_edgeSet g) =? 1)%nat then None else Some (Toy.toy_groundings g);
  ask_wikidata := λ _, true
|}.

(** A graph with one free edge, and a grounding without relation. *)
Definition typed_skeleton : Graph :=
  mkGraph (Some [set_type "direct" Toy.free_edge]) (Some []) None None.
Definition grounded_P1 : Graph :=
  mkGraph (Some [mkEdge (Some "direct") (Some "P1v") (Some "Q1") None None None None])
          (Some []) None None.

(** A graph with two free edges: the joint query grounds its second edge
    only. *)
Definition two_free_edges : Graph :=
  mkGraph (Some [Toy.free_edge; Toy.free_edge]) (Some []) None None.

(** A restriction that proposes the skeleton once, for the empty graph. *)
Definition propose (g : Graph) : list Graph :=
  match get_edgeSet g with
  | [] => [Toy.skeleton]
  | _ => []
  end.

End ToyKB.


(** ** Post-processing of the answers *)

(** [needle in s] for two strings. *)
Fixpoint contains (needle s : string) : bool :=
  String.prefix needle s
  || match s with
     | EmptyString => false
     | String _ s' => contains needle s'
     end.

(** The string functions of Python and the lookup that
    [post_process_answers_given_graph] uses: [py_lower a] is [a.lower()];
    [first_token a] is [a.split()[0].strip()], or [None] when [a.split()] is
    empty; [demonym_label id] is the ['labelright'] of the first row of
    [wdaccess.query_wikidata(wdaccess.demonym_query(id), starts_with="")], or
    [None] when there is no row. *)
Record TextService := mkTextService {
  py_lower : string → string;
  first_token : string → option string;
  demonym_label : string → option string
}.

Module PostProcess.
Section PostProcess.
Context (T : TextService).

(** The body of the loop over the answer sets for a language relation: the
    answer set as it is extended in place, and the answer set that is
    appended to the list, if any. *)
Definition language_body (edge : Edge) (answer_set : list string)
    : list string * option (list string) :=
  let answer_set :=
    if forallb (λ a, negb (contains "language" (py_lower T a))) answer_set
    then answer_set ++ map (λ a, a +:+ " language") answer_set
    else answer_set in
  let appended :=
    match e_rightkbID edge with
    | Some rightkbID =>
      if str_in "english" answer_set && truthy rightkbID then
        match demonym_label T rightkbID with
        | Some demonym =>
          let demonym := py_lower T demonym in
          Some [demonym +:+ " english"; demonym +:+ " english language"]
        | None => None
        end
      else None
    | None => None
    end in
  (answer_set, appended).

(** [for answer_set in model_answers_labels], which also visits the answer
    sets that the loop appends, and so takes fuel. *)
Fixpoint language_loop (fuel i : nat) (edge : Edge)
    (model_answers_labels : list (list string)) : Res (list (list string)) :=
  match model_answers_labels !! i with
  | None => Ok model_answers_labels
  | Some answer_set =>
    match fuel with
    | 0 => OutOfFuel
    | S fuel' =>
      let r := language_body edge answer_set in
      let labels := <[i := fst r]> model_answers_labels in
      let labels :=
        match snd r with
        | Some extra => labels ++ [extra]
        | None => labels
        end in
      language_loop fuel' (S i) edge labels
    end
  end.

Definition post_process_answers_given_graph (fuel : nat)
    (model_answers_labels : list (list string)) (g : Graph) : Res (list (list string)) :=
  let relevant_edge :=
    List.filter (λ e, bool_decide (base_relation e = "P37")) (get_edgeSet g) in
  model_answers_labels ←
    match relevant_edge with
    | [] => Ok model_answers_labels
    | edge :: _ => language_loop fuel 0 edge model_answers_labels
    end;
  let relevant_edge :=
    List.filter (λ e, str_in (base_relation e) ["P175"; "P453"; "P161"]) (get_edgeSet g) in
  Ok (match relevant_edge with
      | [] => model_answers_labels
      | _ :: _ =>
        map (λ answer_set, answer_set ++ omap (first_token T) answer_set)
            model_answers_labels
      end).

End PostProcess.

(** String functions for plain ASCII text, and a demonym. *)
Definition ascii_lower (c : ascii) : ascii :=
  let n := nat_of_ascii c in
  if (65 <=? n)%nat && (n <=? 90)%nat then ascii_of_nat (n + 32) else c.
Fixpoint lower (s : string) : string :=
  match s with
  | EmptyString => EmptyString
  | String c s' => String (ascii_lower c) (lower s')
  end.
(** The white space of ASCII text, at which [a.split()] splits: the
    characters 9 to 13 and 28 to 32. *)
Definition is_space (c : ascii) : bool :=
  let n := nat_of_ascii c in
  ((9 <=? n)%nat && (n <=? 13)%nat) || ((28 <=? n)%nat && (n <=? 32)%nat).
Fixpoint skip_spaces (s : string) : string :=
  match s with
  | EmptyString => EmptyString
  | String c s' => if is_space c then skip_spaces s' else s
  end.
Fixpoint until_space (s : string) : string :=
  match s with
  | EmptyString => EmptyString
  | String c s' => if is_space c then EmptyString else String c (until_space s')
  end.
(** [a.split()[0]] when [a.split()] is not empty: the first word of [a],
    behind the white space that [a] starts with. *)
Definition first_word (a : string) : option string :=
  let word := until_space (skip_spaces a) in
  if bool_decide (word = "") then None else Some word.
Definition text : TextService := {|
  py_lower := lower;
  first_token := first_word;
  demonym_label := λ id, if bool_decide (id = "Q843") then Some "Pakistani" else None
|}.

End PostProcess.


(** A world whose knowledge base grounds a one-edge skeleton with a direct
    relation, with a qualifier of the same property and with a qualifier of
    another property. *)
Module ToyQualifiers.

Definition qualifier_groundings (g : Graph) : list (gmap string string) :=
  match length (get_edgeSet g) with
  | 1 => [{[ "r0d" := "P1v" ]}; {[ "r0d" := "P1q" ]}; {[ "r0d" := "P2q" ]}]
  | _ => []
  end.

Definition world : Externals := {|
  restrict := restrict Toy.world;
  expand := expand Toy.world;
  v_structure_markers := v_structure_markers Toy.world;
  kb_groundings := qualifier_groundings;
  query_graph_denotations := query_graph_denotations Toy.world;
  filter_denotation_by_importance := filter_denotation_by_importance Toy.world;
  label_query_results := label_query_results Toy.world;
  map_query_results := map_query_results Toy.world;
  label_entity := label_entity Toy.world;
  property_whitelist := property_whitelist Toy.world;
  character_linkings := character_linkings Toy.world;
  link_entity := link_entity Toy.world;
  max_entity_options := max_entity_options Toy.world;
  add_string_representations_to_edges := add_string_representations_to_edges Toy.world;
  replace_entities := replace_entities Toy.world;
  get_graph_last_edge := get_graph_last_edge Toy.world;
  retrieval_prec_rec_f1_with_altlabels := retrieval_prec_rec_f1_with_altlabels Toy.world;
  post_process_answers_given_graph := post_process_answers_given_graph Toy.world;
  config := config Toy.world
|}.

End ToyQualifiers.


(** The condition under which the specification describes [apply_grounding]:
    of the relation variables [r{i}d], [r{i}r], [r{i}v] of the edge at index
    [i], the grounding holds at most one. *)
Definition one_relation_variable (grounding : gmap string string) (i : nat) : Prop :=
  (grounding !! var_rd i = None ∨ grounding !! var_rr i = None)
  ∧ (grounding !! var_rd i = None ∨ grounding !! var_rv i = None)
  ∧ (grounding !! var_rr i = None ∨ grounding !! var_rv i = None).


(** A world in which the evaluation tells the groundings apart: the grounding
    with P1v retrieves the answer Q5, every other graph the answer Q6, and the
    evaluation gives (1/2, 1/2, 1/2) to answer sets that hold the first gold
    answer and (0, 0, 0) to the others. *)
Module ToyScores.

Definition denotations (g : Graph) : list string :=
  if bool_decide (Toy.first_kbID g = Some "P1v") then ["Q5"] else ["Q6"].

Definition evaluate (gold_answers : list string) (answers : list (list string))
    : Q * Q * Q :=
  match gold_answers with
  | gold :: _ => if str_in gold (concat answers) then (1 # 2, 1 # 2, 1 # 2)%Q
                 else (0, 0, 0)%Q
  | [] => (0, 0, 0)%Q
  end.

Definition world : Externals := {|
  restrict := restrict Toy.world;
  expand := expand Toy.world;
  v_structure_markers := v_structure_markers Toy.world;
  kb_groundings := kb_groundings Toy.world;
  query_graph_denotations := denotations;
  filter_denotation_by_importance := filter_denotation_by_importance Toy.world;
  label_query_results := label_query_results Toy.world;
  map_query_results := map_query_results Toy.world;
  label_entity := label_entity Toy.world;
  property_whitelist := property_whitelist Toy.world;
  character_linkings := character_linkings Toy.world;
  link_entity := link_entity Toy.world;
  max_entity_options := max_entity_options Toy.world;
  add_string_representations_to_edges := add_string_representations_to_edges Toy.world;
  replace_entities := replace_entities Toy.world;
  get_graph_last_edge := get_graph_last_edge Toy.world;
  retrieval_prec_rec_f1_with_altlabels := evaluate;
  post_process_answers_given_graph := post_process_answers_given_graph Toy.world;
  config := config Toy.world
|}.

End ToyScores.


(** ** Objects and references

    In the program a graph is a dict; each of its edges is a dict of its own,
    and an entity is a tuple or a list.  Dicts and lists are written in place
    and can be shared: two graphs can hold the same edge dict.  Here a store
    maps references to the dict objects of the graphs, to the dict objects of
    the edges and to the list objects of the entities; an entity that is a
    tuple cannot be written and is held by value.  An assignment to a key of a
    dict or to an element of a list changes the object behind the reference,
    and what a function takes and returns is a reference.  No function of the
    module writes into the lists under ['edgeSet'] and ['entities'] (it
    assigns new lists to these keys), so a graph object holds them as lists
    of references.  A reference of the program always has its object: reading
    a reference that the store lacks gives an empty object and writing to it
    does nothing. *)
Module Heap.

Inductive EntityRef :=
  | TupleEntity (e : Entity)
  | ListEntity (a : nat).
#[global] Instance EntityRef_eq_dec : EqDecision EntityRef.
Proof. solve_decision. Defined.

Record GraphObj := mkGraphObj {
  o_edgeSet : option (list nat);
  o_entities : option (list EntityRef);
  o_tokens : option (list string);
  o_filter : option string
}.

Record Store := mkStore {
  graph_objs : gmap nat GraphObj;
  edge_objs : gmap nat Edge;
  list_objs : gmap nat Entity
}.

(** Reading through a reference. *)
Definition graph_at (σ : Store) (l : nat) : GraphObj :=
  default (mkGraphObj None None None None) (graph_objs σ !! l).
Definition edge_at (σ : Store) (r : nat) : Edge := default empty_edge (edge_objs σ !! r).
Definition entity_value (σ : Store) (r : EntityRef) : Entity :=
  match r with
  | TupleEntity e => e
  | ListEntity a => default (mkEntity [] "" None) (list_objs σ !! a)
  end.

(** [g.get('edgeSet', [])] and [g.get('entities', [])] as lists of
    references. *)
Definition edge_refs (σ : Store) (l : nat) : list nat := default [] (o_edgeSet (graph_at σ l)).
Definition entity_refs (σ : Store) (l : nat) : list EntityRef :=
  default [] (o_entities (graph_at σ l)).

(** The graph that is seen through the reference [l]. *)
Definition graph_value (σ : Store) (l : nat) : Graph :=
  let o := graph_at σ l in
  mkGraph (map (edge_at σ) <$> o_edgeSet o) (map (entity_value σ) <$> o_entities o)
          (o_tokens o) (o_filter o).

(** Writing an object in place, and making a new object. *)
Definition write_graph (l : nat) (f : GraphObj → GraphObj) (σ : Store) : Store :=
  mkStore (alter f l (graph_objs σ)) (edge_objs σ) (list_objs σ).
Definition write_edge (r : nat) (f : Edge → Edge) (σ : Store) : Store :=
  mkStore (graph_objs σ) (alter f r (edge_objs σ)) (list_objs σ).
Definition write_list (a : nat) (f : Entity → Entity) (σ : Store) : Store :=
  mkStore (graph_objs σ) (edge_objs σ) (alter f a (list_objs σ)).
Definition new_graph (o : GraphObj) (σ : Store) : nat * Store :=
  let l := fresh (dom (graph_objs σ)) in
  (l, mkStore (<[l := o]> (graph_objs σ)) (edge_objs σ) (list_objs σ)).
Definition new_edge (e : Edge) (σ : Store) : nat * Store :=
  let r := fresh (dom (edge_objs σ)) in
  (r, mkStore (graph_objs σ) (<[r := e]> (edge_objs σ)) (list_objs σ)).

(** [g['edgeSet'] = edge_set] and [g['entities'] = entities]. *)
Definition assign_edgeSet (edge_set : list nat) (o : GraphObj) : GraphObj :=
  mkGraphObj (Some edge_set) (o_entities o) (o_tokens o) (o_filter o).
Definition assign_entities (entities : list EntityRef) (o : GraphObj) : GraphObj :=
  mkGraphObj (o_edgeSet o) (Some entities) (o_tokens o) (o_filter o).

(** Modelled from the spec: [graph.copy_graph] is not among the sources.  The
    specification describes it as returning a copy of the graph.  The copy is
    a new graph object with a new edge object for every edge, as
    [apply_grounding] writes into the edges of the copy; it carries
    ['edgeSet'] and ['entities'] also when the input lacks them, as the
    doctests of [apply_grounding] show, and holds the entities of the
    input. *)
Fixpoint copy_edges (refs : list nat) (σ : Store) : list nat * Store :=
  match refs with
  | [] => ([], σ)
  | r :: rest =>
    let (r', σ) := new_edge (edge_at σ r) σ in
    let (rs, σ) := copy_edges rest σ in
    (r' :: rs, σ)
  end.
Definition copy_graph_ref (l : nat) (σ : Store) : nat * Store :=
  let o := graph_at σ l in
  let (rs, σ) := copy_edges (default [] (o_edgeSet o)) σ in
  new_graph (mkGraphObj (Some rs) (Some (default [] (o_entities o))) (o_tokens o) (o_filter o))
            σ.

(** The loop of [apply_grounding]: the assignments to the keys of the edge at
    index [i]. *)
Fixpoint ground_edges (grounding : gmap string string) (i : nat) (refs : list nat)
    (σ : Store) : Store :=
  match refs with
  | [] => σ
  | r :: rest => ground_edges grounding (S i) rest (write_edge r (ground_edge grounding i) σ)
  end.

(** [grounded = graph.copy_graph(g)], the loop over the edges of [grounded],
    [return grounded]. *)
Definition apply_grounding_ref (l : nat) (grounding : gmap string string) (σ : Store)
    : nat * Store :=
  let (grounded, σ) := copy_graph_ref l σ in
  (grounded, ground_edges grounding 0 (edge_refs σ grounded) σ).

Section Heap.
Context (X : Externals) (KB : GroundingService).

(** The loop of [add_canonical_labels_to_entities]: the assignment
    [edge['canonical_right'] = entity_label] to each edge in turn. *)
Fixpoint label_edges (refs : list nat) (σ : Store) : Store :=
  match refs with
  | [] => σ
  | r :: rest => label_edges rest (write_edge r (label_edge X) σ)
  end.

(** The loop over [g.get('edgeSet', [])], [return g]. *)
Definition add_canonical_labels_to_entities_ref (l : nat) (σ : Store) : nat * Store :=
  (l, label_edges (edge_refs σ l) σ).

(** An element of the list [entities] that [link_entities_in_graph] builds:
    a new list made by [list(entity) + [linkings]], or the element of the
    input as it is. *)
Inductive Work :=
  | Fresh (e : Entity)
  | Given (r : EntityRef).

Definition work_value (σ : Store) (w : Work) : Entity :=
  match w with
  | Fresh e => e
  | Given r => entity_value σ r
  end.
Definition work_is_list (w : Work) : bool :=
  match w with
  | Given (TupleEntity _) => false
  | _ => true
  end.

(** What the comparisons and tests of [link_entities_in_graph] see of an
    element: its content, and whether it is a list (a list is never equal to
    a tuple). *)
Definition view (σ : Store) (w : Work) : WEntity :=
  let e := work_value σ w in
  mkWEntity (work_is_list w) (ent_span e) (ent_tag e) (ent_links e).

(** The first loop of [link_entities_in_graph]. *)
Definition link_one_ref (σ : Store) (r : EntityRef) : Work :=
  let entity := entity_value σ r in
  if bool_decide (ent_links entity = None) && negb (bool_decide (ent_tag entity = "CD"))
  then Fresh (mkEntity (ent_span entity) (ent_tag entity) (Some (link_entity X entity)))
  else Given r.

(** [entity[2] = links] for the element at position [j] of [entities]: a new
    list is written where it is, a list of the caller is written in the
    store, and a tuple raises [TypeError]. *)
Definition assign_links (j : nat) (links : list string) (entities : list Work) (σ : Store)
    : Res (list Work) * Store :=
  match entities !! j with
  | Some (Fresh e) =>
    (Ok (<[j := Fresh (mkEntity (ent_span e) (ent_tag e) (Some links))]> entities), σ)
  | Some (Given (ListEntity a)) =>
    (Ok entities, write_list a (λ e, mkEntity (ent_span e) (ent_tag e) (Some links)) σ)
  | Some (Given (TupleEntity _)) => (Raise TypeError, σ)
  | None => (Ok entities, σ)
  end.

(** The loop over [film_id] for the entity at position [j]; the two
    assignments to [entity[2]] are taken together. *)
Fixpoint add_character_linkings_ref (films : list string) (j : nat) (entities : list Work)
    (σ : Store) : Res (list Work) * Store :=
  match films with
  | [] => (Ok entities, σ)
  | film_id :: rest =>
    match entities !! j with
    | None => (Ok entities, σ)
    | Some w =>
      let entity := work_value σ w in
      let character := character_linkings X (join_space (ent_span entity)) film_id in
      let links := take (max_entity_options X) (character ++ default [] (ent_links entity)) in
      match assign_links j links entities σ with
      | (Ok entities, σ) => add_character_linkings_ref rest j entities σ
      | r => r
      end
    end
  end.

(** The loop over the single-token PERSON entities, given by their positions
    in [entities]. *)
Fixpoint link_characters_ref (positions : list nat) (entities : list Work) (σ : Store)
    : Res (list Work) * Store :=
  match positions with
  | [] => (Ok entities, σ)
  | j :: rest =>
    match entities !! j with
    | None => (Ok entities, σ)
    | Some w =>
      match film_ids (view σ w) (map (view σ) entities) with
      | Ok films =>
        match add_character_linkings_ref films j entities σ with
        | (Ok entities, σ) => link_characters_ref rest entities σ
        | r => r
        end
      | Raise e => (Raise e, σ)
      | OutOfFuel => (OutOfFuel, σ)
      end
    end
  end.

(** [link_entities_in_graph]: the early return of the argument, the two
    loops, [ungrounded_graph['entities'] = entities] with the new tuples, and
    [return ungrounded_graph].  An exception leaves the store as the loops
    have written it so far. *)
Definition link_entities_in_graph_ref (l : nat) (σ : Store) : Res nat * Store :=
  let given := entity_refs σ l in
  if forallb (λ r, has (ent_links (entity_value σ r))) given then (Ok l, σ)
  else
    let entities := map (link_one_ref σ) given in
    let r :=
      if existsb (λ w, str_in w (default [] (o_tokens (graph_at σ l)))) (v_structure_markers X)
      then link_characters_ref
             (positions_from (λ w, is_character (view σ w)) 0 entities) entities σ
      else (Ok entities, σ) in
    match r with
    | (Ok entities, σ) =>
      (Ok l,
       write_graph l (assign_entities (map (λ w, TupleEntity (work_value σ w)) entities)) σ)
    | (Raise e, σ) => (Raise e, σ)
    | (OutOfFuel, σ) => (OutOfFuel, σ)
    end.

(** [[apply_grounding(t, p) for p in groundings]]. *)
Fixpoint apply_groundings_ref (t : nat) (groundings : list (gmap string string)) (σ : Store)
    : list nat * Store :=
  match groundings with
  | [] => ([], σ)
  | p :: rest =>
    let (l, σ) := apply_grounding_ref t p σ in
    let (ls, σ) := apply_groundings_ref t rest σ in
    (l :: ls, σ)
  end.

(** [p['edgeSet'][0]], when there is one. *)
Definition first_edge_ref (σ : Store) (l : nat) : option nat := head (edge_refs σ l).

(** The groundings of one free edge in [approximate_groundings]: the graph
    [t] holds the edge object itself, and each grounding of [t] is a copy. *)
Definition edge_groundings_ref (r : nat) (σ : Store) : list nat * Store :=
  let (t, σ) := new_graph (mkGraphObj (Some [r]) None None None) σ in
  let (edge_groundings, σ) :=
    apply_groundings_ref t (kb_groundings_cached KB (graph_value σ t)) σ in
  let edge_groundings :=
    List.filter (λ e, match first_edge_ref σ e with
                      | Some r0 => relation_whitelisted X (edge_at σ r0)
                      | None => false
                      end) edge_groundings in
  (omap (first_edge_ref σ) edge_groundings, σ).

(** The first loop of [approximate_groundings]: an edge with type and
    relation is its own and only candidate. *)
Fixpoint separate_groundings_ref (refs : list nat) (σ : Store) : list (list nat) * Store :=
  match refs with
  | [] => ([], σ)
  | r :: rest =>
    let (candidates, σ) :=
      if is_free (edge_at σ r) then edge_groundings_ref r σ else ([r], σ) in
    let (more, σ) := separate_groundings_ref rest σ in
    (candidates :: more, σ)
  end.

(** The second loop of [approximate_groundings]: [new_g = graph.copy_graph(g)],
    [new_g['edgeSet'] = list(edge_set)]. *)
Fixpoint new_graphs (l : nat) (edge_sets : list (list nat)) (σ : Store) : list nat * Store :=
  match edge_sets with
  | [] => ([], σ)
  | edge_set :: rest =>
    let (new_g, σ) := copy_graph_ref l σ in
    let σ := write_graph new_g (assign_edgeSet edge_set) σ in
    let (more, σ) := new_graphs l rest σ in
    (new_g :: more, σ)
  end.

Definition approximate_groundings_ref (l : nat) (σ : Store) : list nat * Store :=
  let (separate_groundings, σ) := separate_groundings_ref (edge_refs σ l) σ in
  new_graphs l (product separate_groundings) σ.

End Heap.

End Heap.

(** Stores for the examples: the skeleton and the Norway question as two
    graph objects; a graph with one grounded and one free edge; and a question
    with two characters, one of them a list of the caller; and a question
    with this character alone. *)
Module ToyHeap.

Definition store : Heap.Store :=
  Heap.mkStore
    (<[1%nat := Heap.mkGraphObj None
                  (Some [Heap.TupleEntity (mkEntity ["Norway"] "LOCATION" None);
                         Heap.TupleEntity (mkEntity ["oil"] "NN" None)])
                  (Some ["where"; "does"; "norway"; "get"; "their"; "oil"; "?"]) None]>
       {[ 0%nat := Heap.mkGraphObj (Some [0%nat]) (Some []) None None ]})
    {[ 0%nat := Toy.free_edge ]}
    ∅.

Definition grounded_edge : Edge :=
  mkEdge (Some "direct") (Some "P1v") (Some "Q1") None None None None.

Definition two_edges : Heap.Store :=
  Heap.mkStore
    {[ 0%nat := Heap.mkGraphObj (Some [0%nat; 1%nat]) (Some []) None None ]}
    (<[1%nat := Toy.free_edge]> {[ 0%nat := grounded_edge ]})
    ∅.

Definition bella_as_list : Heap.Store :=
  Heap.mkStore
    {[ 0%nat := Heap.mkGraphObj None
                  (Some [Heap.ListEntity 0;
                         Heap.TupleEntity (mkEntity ["Edward"] "PERSON" (Some ["Q7"]));
                         Heap.TupleEntity (mkEntity ["Twilight"] "NNP" None)])
                  (Some ["who"; "play"; "bella"; "on"; "twilight"]) None ]}
    ∅
    {[ 0%nat := mkEntity ["Bella"] "PERSON" (Some ["Q8"]) ]}.

Definition bella_alone : Heap.Store :=
  Heap.mkStore
    {[ 0%nat := Heap.mkGraphObj None
                  (Some [Heap.ListEntity 0;
                         Heap.TupleEntity (mkEntity ["Twilight"] "NNP" None)])
                  (Some ["who"; "play"; "bella"; "on"; "twilight"]) None ]}
    ∅
    {[ 0%nat := mkEntity ["Bella"] "PERSON" (Some ["Q8"]) ]}.

End ToyHeap.


(** ** Vocabulary of the statements about objects *)

(** An entity that is a tuple, and an element of [entities] that is not a
    list of the caller. *)
Definition is_tuple (r : Heap.EntityRef) : Prop := ∃ e, r = Heap.TupleEntity e.
Definition is_tuple_or_new (w : Heap.Work) : Prop := ∀ a, w ≠ Heap.Given (Heap.ListEntity a).

(** The element of the input that an element of [entities] is, if any. *)
Definition given_of (w : Heap.Work) : option Heap.EntityRef :=
  match w with
  | Heap.Given r => Some r
  | Heap.Fresh _ => None
  end.

(** The loops write no graph and no edge; of the lists of the store they
    write only elements of [entities]; and they leave in [entities] the
    elements of the input where they are. *)
Definition writes_own_lists (entities : list Heap.Work) (σ : Heap.Store)
    (out : Res (list Heap.Work) * Heap.Store) : Prop :=
  Heap.graph_objs (snd out) = Heap.graph_objs σ
  ∧ Heap.edge_objs (snd out) = Heap.edge_objs σ
  ∧ (∀ a, Heap.Given (Heap.ListEntity a) ∉ entities →
          Heap.list_objs (snd out) !! a = Heap.list_objs σ !! a)
  ∧ (∀ entities', fst out = Ok entities' → map given_of entities' = map given_of entities).

(** * Properties *)

(** ** Scores and sorting *)

Lemma Qltb_lt (x y : Q) : Qltb x y = true ↔ (x < y)%Q.
Proof.
  unfold Qltb. rewrite negb_true_iff. split.
  - intros H. apply Qnot_le_lt. intros Hle.
    apply Qle_bool_iff in Hle. congruence.
  - intros H. destruct (Qle_bool y x) eqn:E; [|done].
    apply Qle_bool_iff in E. exfalso. revert E. by apply Qlt_not_le.
Qed.

Lemma Qltb_ge (x y : Q) : Qltb x y = false ↔ (y <= x)%Q.
Proof.
  unfold Qltb. rewrite negb_false_iff. apply Qle_bool_iff.
Qed.

Lemma Qmax_ge_l (x y : Q) : (x <= Qmax x y)%Q.
Proof.
  unfold Qmax. destruct (Qltb x y) eqn:E.
  - apply Qltb_lt in E. by apply Qlt_le_weak.
  - apply Qle_refl.
Qed.

Lemma Qmax_ge_r (x y : Q) : (y <= Qmax x y)%Q.
Proof.
  unfold Qmax. destruct (Qltb x y) eqn:E.
  - apply Qle_refl.
  - by apply Qltb_ge in E.
Qed.

Lemma Qmax_lt (x y z : Q) : (x < z)%Q → (y < z)%Q → (Qmax x y < z)%Q.
Proof. intros Hx Hy. unfold Qmax. by destruct (Qltb x y). Qed.

Section Sorting.
Context {A : Type} (key : A → Q).

(** [y] may stand after [x] in a list sorted by [sorted_desc]. *)
Definition after (x y : A) : Prop := (key y <= key x)%Q.

Lemma insert_desc_Permutation x l : insert_desc key x l ≡ₚ x :: l.
Proof.
  induction l as [|y ys IH]; simpl; [done|].
  destruct (Qltb (key x) (key y)); [|done].
  rewrite IH. apply Permutation_swap.
Qed.

Lemma sorted_desc_Permutation l : sorted_desc key l ≡ₚ l.
Proof.
  induction l as [|x l IH]; simpl; [done|].
  rewrite insert_desc_Permutation. by rewrite IH.
Qed.

Lemma sorted_desc_length l : length (sorted_desc key l) = length l.
Proof. apply Permutation_length, sorted_desc_Permutation. Qed.

Lemma insert_desc_sorted x l :
  StronglySorted after l → StronglySorted after (insert_desc key x l).
Proof.
  induction 1 as [|y ys Hs IH Hall]; simpl.
  - repeat constructor.
  - destruct (Qltb (key x) (key y)) eqn:E.
    + constructor; [done|].
      rewrite insert_desc_Permutation. constructor; [|done].
      apply Qltb_lt in E. by apply Qlt_le_weak.
    + apply Qltb_ge in E. constructor.
      * by constructor.
      * constructor; [done|].
        eapply Forall_impl; [exact Hall|]. intros z Hz.
        unfold after in *. by eapply Qle_trans.
Qed.

Lemma sorted_desc_sorted l : StronglySorted after (sorted_desc key l).
Proof.
  induction l as [|x l IH]; simpl; [constructor|].
  by apply insert_desc_sorted.
Qed.

Lemma StronglySorted_non_increasing l :
  StronglySorted after l → non_increasing key l.
Proof.
  induction 1 as [|x l Hs IH Hall]; intros i j a b Hi Hj Hlt.
  - by rewrite lookup_nil in Hi.
  - destruct j as [|j]; [lia|]. simpl in Hj.
    destruct i as [|i]; simpl in Hi.
    + injection Hi as <-. rewrite Forall_forall in Hall.
      apply Hall. by eapply list_elem_of_lookup_2.
    + eapply IH; [done..|lia].
Qed.


Lemma sorted_desc_non_increasing l : non_increasing key (sorted_desc key l).
Proof. apply StronglySorted_non_increasing, sorted_desc_sorted. Qed.

Lemma non_increasing_take n l : non_increasing key l → non_increasing key (take n l).
Proof.
  intros H i j a b Hi Hj Hlt.
  apply lookup_take_Some in Hi as [Hi _]. apply lookup_take_Some in Hj as [Hj _].
  by eapply H.
Qed.

Lemma non_increasing_tail x l : non_increasing key (x :: l) → non_increasing key l.
Proof.
  intros H i j a b Hi Hj Hlt. apply (H (S i) (S j)); [done..|lia].
Qed.

Lemma non_increasing_head x l y :
  non_increasing key (x :: l) → y ∈ l → (key y <= key x)%Q.
Proof.
  intros H Hy. apply list_elem_of_lookup_1 in Hy as [j Hj].
  apply (H 0%nat (S j)); [done..|lia].
Qed.

Lemma fold_max_ge_init l m : (m <= foldl (λ m y, Qmax m (key y)) m l)%Q.
Proof.
  revert m. induction l as [|z l IH]; intros m; simpl; [apply Qle_refl|].
  eapply Qle_trans; [apply Qmax_ge_l|apply IH].
Qed.

Lemma fold_max_ge_elem l m y :
  y ∈ l → (key y <= foldl (λ m y, Qmax m (key y)) m l)%Q.
Proof.
  revert m. induction l as [|z l IH]; intros m Hy; [by apply elem_of_nil in Hy|].
  simpl. apply elem_of_cons in Hy as [->|Hy].
  - eapply Qle_trans; [apply Qmax_ge_r|apply fold_max_ge_init].
  - by apply IH.
Qed.

Lemma fold_max_lt l m z :
  (m < z)%Q → (∀ y, y ∈ l → (key y < z)%Q) →
  (foldl (λ m y, Qmax m (key y)) m l < z)%Q.
Proof.
  revert m. induction l as [|x l IH]; intros m Hm Hl; simpl; [done|].
  apply IH.
  - apply Qmax_lt; [done|]. apply Hl. by left.
  - intros y Hy. apply Hl. by right.
Qed.

Lemma max_key_ge x l y : y ∈ x :: l → (key y <= max_key key x l)%Q.
Proof.
  unfold max_key. intros Hy. apply elem_of_cons in Hy as [->|Hy].
  - apply fold_max_ge_init.
  - by apply fold_max_ge_elem.
Qed.

Lemma max_key_lt x l z :
  (∀ y, y ∈ x :: l → (key y < z)%Q) → (max_key key x l < z)%Q.
Proof.
  intros H. unfold max_key. apply fold_max_lt.
  - apply H. by left.
  - intros y Hy. apply H. by right.
Qed.

End Sorting.

(** ** Applying a grounding *)

(** The doctests of [apply_grounding]. *)
Example apply_grounding_doctest_direct :
  apply_grounding (mkGraph (Some [empty_edge]) None None None) {[ "r0d" := "P31v" ]}
  = mkGraph (Some [set_type "direct" (set_kbID "P31v" empty_edge)]) (Some []) None None.
Proof. reflexivity. Qed.

Example apply_grounding_doctest_hop :
  apply_grounding
    (mkGraph (Some [mkEdge None None None (Some None) None None None]) None None None)
    (<[ "r0v" := "P31v" ]> {[ "hop0v" := "P131v" ]})
  = mkGraph (Some [mkEdge (Some "v-structure") (Some "P31v") None
                          (Some (Some "P131v")) None None None])
            (Some []) None None.
Proof. vm_compute. reflexivity. Qed.

Example apply_grounding_doctest_grounded :
  apply_grounding
    (mkGraph (Some [mkEdge (Some "v-structure") (Some "P31v") None
                           (Some (Some "P131v")) None None None])
             None (Some []) None) ∅
  = mkGraph (Some [mkEdge (Some "v-structure") (Some "P31v") None
                          (Some (Some "P131v")) None None None])
            (Some []) (Some []) None.
Proof. reflexivity. Qed.

Example apply_grounding_doctest_two_edges :
  apply_grounding (mkGraph (Some [empty_edge; empty_edge]) None None None)
    (<[ "r1d" := "P39v" ]> (<[ "r0v" := "P31v" ]> {[ "e20" := "Q18" ]}))
  = mkGraph (Some [mkEdge (Some "v-structure") (Some "P31v") (Some "Q18") None None None None;
                   mkEdge (Some "direct") (Some "P39v") None None None None None])
            (Some []) None None.
Proof. vm_compute. reflexivity. Qed.

Lemma apply_grounding_edgeSet g grounding :
  get_edgeSet (apply_grounding g grounding)
  = imap (ground_edge grounding) (get_edgeSet g).
Proof. reflexivity. Qed.

Lemma apply_grounding_lookup g grounding i :
  get_edgeSet (apply_grounding g grounding) !! i
  = ground_edge grounding i <$> get_edgeSet g !! i.
Proof. rewrite apply_grounding_edgeSet. apply list_lookup_imap. Qed.

(** Outside the condition of the specification the variables are tried in
    the order [r{i}d], [r{i}r], [r{i}v]: when a grounding holds both [r0d]
    and [r0r], the edge is grounded by [r0d]. *)
Example apply_grounding_reverse_not_applied :
  Toy.clash_grounding !! var_rr 0 = Some "P2v"
  ∧ get_edgeSet (apply_grounding Toy.one_edge_graph Toy.clash_grounding) !! 0%nat
    = Some (mkEdge (Some "direct") (Some "P1v") None None None None None).
Proof. split; by vm_compute. Qed.

(** What the loop body of [apply_grounding] does to one edge, whatever the
    grounding holds. *)
Lemma ground_edge_spec (grounding : gmap string string) (i : nat) (e : Edge) :
  (∀ v, grounding !! var_rd i = Some v →
        e_kbID (ground_edge grounding i e) = Some v
        ∧ e_type (ground_edge grounding i e) = Some "direct")
  ∧ (∀ v, grounding !! var_rd i = None → grounding !! var_rr i = Some v →
          e_kbID (ground_edge grounding i e) = Some v
          ∧ e_type (ground_edge grounding i e) = Some "reverse")
  ∧ (∀ v, grounding !! var_rd i = None → grounding !! var_rr i = None →
          grounding !! var_rv i = Some v →
          e_kbID (ground_edge grounding i e) = Some v
          ∧ e_type (ground_edge grounding i e) = Some "v-structure")
  ∧ (grounding !! var_rd i = None → grounding !! var_rr i = None →
     grounding !! var_rv i = None →
     e_kbID (ground_edge grounding i e) = e_kbID e
     ∧ e_type (ground_edge grounding i e) = e_type e)
  ∧ (∀ v, grounding !! var_hop i = Some v → is_Some (e_hopUp e) →
          e_hopUp (ground_edge grounding i e) = Some (Some v)
          ∧ e_hopDown (ground_edge grounding i e) = e_hopDown e)
  ∧ (∀ v, grounding !! var_hop i = Some v → e_hopUp e = None →
          e_hopDown (ground_edge grounding i e) = Some (Some v)
          ∧ e_hopUp (ground_edge grounding i e) = None)
  ∧ (grounding !! var_hop i = None →
     e_hopUp (ground_edge grounding i e) = e_hopUp e
     ∧ e_hopDown (ground_edge grounding i e) = e_hopDown e)
  ∧ (∀ v, grounding !! var_e2 i = Some v → e_rightkbID (ground_edge grounding i e) = Some v)
  ∧ (grounding !! var_e2 i = None → e_rightkbID (ground_edge grounding i e) = e_rightkbID e)
  ∧ e_canonical_right (ground_edge grounding i e) = e_canonical_right e
  ∧ e_right (ground_edge grounding i e) = e_right e
  ∧ (grounding !! var_rd i = None → grounding !! var_rr i = None →
     grounding !! var_rv i = None → grounding !! var_hop i = None →
     grounding !! var_e2 i = None → ground_edge grounding i e = e).
Proof.
  unfold ground_edge.
  destruct (grounding !! var_e2 i) as [v2|];
    destruct (grounding !! var_hop i) as [vh|];
    destruct (grounding !! var_rd i) as [vd|];
    destruct (grounding !! var_rr i) as [vr|];
    destruct (grounding !! var_rv i) as [vv|];
    destruct e as [ty kb rk [hu|] hd cr ri]; simpl;
    repeat split; intros; simplify_eq; try reflexivity;
    try (by exfalso; eapply is_Some_None); try done.
Qed.

(** C3: [apply_grounding] returns a copy of [g]: the same tokens, filter and
    entities, an edge set also when [g] has none, and as many edges.  For the
    edge at each index [i] for which the grounding holds at most one relation
    variable, [r{i}d] (resp. [r{i}r], [r{i}v]) sets [kbID] to its value and
    [type] to direct (resp. reverse, v-structure); where it holds several, the
    first of [r{i}d], [r{i}r], [r{i}v] does.  For every edge, [hop{i}v]
    sets [hopUp] when the edge has the key [hopUp] and [hopDown] otherwise,
    [e2{i}] sets [rightkbID], nothing else of the edge changes, and an edge
    whose index no variable mentions is the input edge. *)
Theorem apply_grounding_spec (g : Graph) (grounding : gmap string string) :
  g_tokens (apply_grounding g grounding) = g_tokens g
  ∧ g_filter (apply_grounding g grounding) = g_filter g
  ∧ g_entities (apply_grounding g grounding) = Some (get_entities g)
  ∧ is_Some (g_edgeSet (apply_grounding g grounding))
  ∧ length (get_edgeSet (apply_grounding g grounding)) = length (get_edgeSet g)
  ∧ ∀ i e,
      get_edgeSet g !! i = Some e →
      ∃ e', get_edgeSet (apply_grounding g grounding) !! i = Some e'
        ∧ (one_relation_variable grounding i →
           (∀ v, grounding !! var_rd i = Some v →
                 e_kbID e' = Some v ∧ e_type e' = Some "direct")
           ∧ (∀ v, grounding !! var_rr i = Some v →
                   e_kbID e' = Some v ∧ e_type e' = Some "reverse")
           ∧ (∀ v, grounding !! var_rv i = Some v →
                   e_kbID e' = Some v ∧ e_type e' = Some "v-structure"))
        ∧ (∀ v, grounding !! var_rd i = Some v →
                e_kbID e' = Some v ∧ e_type e' = Some "direct")
        ∧ (∀ v, grounding !! var_rd i = None → grounding !! var_rr i = Some v →
                e_kbID e' = Some v ∧ e_type e' = Some "reverse")
        ∧ (∀ v, grounding !! var_rd i = None → grounding !! var_rr i = None →
                grounding !! var_rv i = Some v →
                e_kbID e' = Some v ∧ e_type e' = Some "v-structure")
        ∧ (grounding !! var_rd i = None → grounding !! var_rr i = None →
           grounding !! var_rv i = None →
           e_kbID e' = e_kbID e ∧ e_type e' = e_type e)
        ∧ (∀ v, grounding !! var_hop i = Some v → is_Some (e_hopUp e) →
                e_hopUp e' = Some (Some v) ∧ e_hopDown e' = e_hopDown e)
        ∧ (∀ v, grounding !! var_hop i = Some v → e_hopUp e = None →
                e_hopDown e' = Some (Some v) ∧ e_hopUp e' = None)
        ∧ (grounding !! var_hop i = None →
           e_hopUp e' = e_hopUp e ∧ e_hopDown e' = e_hopDown e)
        ∧ (∀ v, grounding !! var_e2 i = Some v → e_rightkbID e' = Some v)
        ∧ (grounding !! var_e2 i = None → e_rightkbID e' = e_rightkbID e)
        ∧ e_canonical_right e' = e_canonical_right e
        ∧ e_right e' = e_right e
        ∧ (grounding !! var_rd i = None → grounding !! var_rr i = None →
           grounding !! var_rv i = None → grounding !! var_hop i = None →
           grounding !! var_e2 i = None → e' = e).
Proof.
  split_and!; try reflexivity.
  - unfold apply_grounding. simpl. by eexists.
  - rewrite apply_grounding_edgeSet. apply length_imap.
  - intros i e He. exists (ground_edge grounding i e).
    split; [by rewrite apply_grounding_lookup, He|].
    destruct (ground_edge_spec grounding i e)
      as (Hd & Hr & Hv & Hnone & Hup & Hdown & Hnohop & He2 & Hnoe2 & Hcr & Hri & Hsame).
    split_and!; try done.
    intros (Hdr & Hdv & Hrv). split_and!.
    + exact Hd.
    + intros v Hv'. apply Hr; [|done]. destruct Hdr as [?|Hn]; [done|congruence].
    + intros v Hv'. apply Hv; [..|done].
      * destruct Hdv as [?|Hn]; [done|congruence].
      * destruct Hrv as [?|Hn]; [done|congruence].
Qed.

Lemma apply_grounding_spec_witness :
  ∃ e', get_edgeSet (apply_grounding Toy.one_edge_graph {[ "r0r" := "P2v" ]}) !! 0%nat
        = Some e'
        ∧ e_kbID e' = Some "P2v" ∧ e_type e' = Some "reverse".
Proof.
  destruct (apply_grounding_spec Toy.one_edge_graph {[ "r0r" := "P2v" ]})
    as (_ & _ & _ & _ & _ & Hedge).
  destruct (Hedge 0%nat empty_edge eq_refl) as (e' & He' & Hone & _).
  exists e'. split; [exact He'|].
  destruct Hone as (_ & Hr & _).
  - unfold one_relation_variable. split_and!; [left|left|right]; by vm_compute.
  - apply Hr. by vm_compute.
Defined.

(** ** The grounding enumerator *)

Lemma M_bind_Ok {A B} (a : A) (log : list Event) (f : A → M B) :
  mbind f ((Ok a, log) : M A) = (fst (f a), log ++ snd (f a)).
Proof. unfold mbind, M_bind. by destruct (f a). Qed.

Lemma M_bind_ret {A B} (a : A) (f : A → M B) : mbind f (mret a : M A) = f a.
Proof. unfold mret, M_ret. rewrite M_bind_Ok. by destruct (f a). Qed.

Lemma bind_query_graph_groundings {B} (X : Externals) (g : Graph)
    (f : list (gmap string string) → M B) :
  mbind f (query_graph_groundings X g)
  = (fst (f (kb_groundings X g)), QueryGroundings g :: snd (f (kb_groundings X g))).
Proof. unfold query_graph_groundings. by rewrite M_bind_Ok. Qed.

Lemma extend_each_queries {A} (X : Externals) (f : A → Graph) (l : list A)
    (acc : list (gmap string string)) :
  extend_each (λ x, query_graph_groundings X (f x)) l acc
  = (Ok (acc ++ flat_map (kb_groundings X) (map f l)), map QueryGroundings (map f l)).
Proof.
  revert acc. induction l as [|x l IH]; intros acc; cbn [extend_each].
  - simpl. by rewrite app_nil_r.
  - rewrite bind_query_graph_groundings, IH. simpl.
    by rewrite <- app_assoc.
Qed.

Lemma type_combinations_length k : length (type_combinations k) = 2 ^ k.
Proof.
  induction k as [|k IH]; [done|].
  simpl. rewrite !length_app, !length_map, IH. simpl. lia.
Qed.

Lemma type_combinations_elem k c :
  c ∈ type_combinations k
  ↔ length c = k ∧ Forall (λ t, t = "direct" ∨ t = "reverse") c.
Proof.
  revert c. induction k as [|k IH]; intros c; simpl.
  - rewrite list_elem_of_singleton. split.
    + intros ->. by split.
    + intros [Hl _]. by destruct c.
  - rewrite app_nil_r, elem_of_app, !list_elem_of_fmap. split.
    + intros [(r & -> & Hr)|(r & -> & Hr)]; apply IH in Hr as [Hl Hf];
        (split; [simpl; by rewrite Hl|constructor; [tauto|done]]).
    + intros [Hl Hf]. destruct c as [|t c]; [done|].
      simpl in Hl. inversion Hf as [|? ? Ht Hc]; subst.
      injection Hl as Hl.
      assert (c ∈ type_combinations k) as Hin.
      { apply IH. by split. }
      destruct Ht as [->| ->]; [left|right]; by exists c.
Qed.

Lemma type_combinations_NoDup k : NoDup (type_combinations k).
Proof.
  induction k as [|k IH]; simpl.
  - apply NoDup_singleton.
  - rewrite app_nil_r. apply NoDup_app. split_and!.
    + apply NoDup_fmap_2; [|done]. by intros ?? [=].
    + intros c Hc Hc'.
      apply list_elem_of_fmap in Hc as (r & -> & _).
      apply list_elem_of_fmap in Hc' as (r' & [=] & _).
    + apply NoDup_fmap_2; [|done]. by intros ?? [=].
Qed.

Lemma tag_free_edges_length (types : list string) (edges : list Edge) :
  length (tag_free_edges types edges) = length edges.
Proof.
  revert types. induction edges as [|e es IH]; intros types; simpl; [done|].
  destruct (is_free e); [destruct types|]; simpl; by rewrite ?IH.
Qed.

Lemma tag_free_edges_lookup (types : list string) (edges : list Edge) (i : nat) (e : Edge) :
  (length (List.filter is_free edges) ≤ length types)%nat →
  edges !! i = Some e →
  (is_free e = false → tag_free_edges types edges !! i = Some e)
  ∧ (is_free e = true →
     ∃ ty, types !! length (List.filter is_free (take i edges)) = Some ty
           ∧ tag_free_edges types edges !! i = Some (set_type ty e)).
Proof.
  revert types i. induction edges as [|x es IH]; intros types i Hlen Hi; [done|].
  simpl in Hlen. destruct i as [|i]; simpl in Hi.
  - injection Hi as ->. simpl. split; intros Hf; rewrite Hf in *.
    + done.
    + destruct types as [|t ts]; [simpl in Hlen; lia|]. by exists t.
  - simpl. destruct (is_free x) eqn:Hx.
    + destruct types as [|t ts]; [simpl in Hlen; lia|].
      simpl in Hlen. apply (IH ts i) in Hi; [|lia]. simpl. exact Hi.
    + by apply (IH types i) in Hi.
Qed.

Lemma tagged_copy_spec (types : list string) (g : Graph) :
  length types = length (List.filter is_free (get_edgeSet g)) →
  tags_free_edges_of types g (tagged_copy types g).
Proof.
  intros Hlen. unfold tags_free_edges_of. split_and!; try reflexivity.
  - change (get_edgeSet (tagged_copy types g))
      with (tag_free_edges types (get_edgeSet g)).
    apply tag_free_edges_length.
  - intros i e Hi.
    change (get_edgeSet (tagged_copy types g))
      with (tag_free_edges types (get_edgeSet g)).
    apply tag_free_edges_lookup; [lia|done].
Qed.

Lemma find_groundings_run (X : Externals) (g : Graph) :
  find_groundings X g
  = (Ok (flat_map (kb_groundings X) (base_queries g ++ extra_queries X g)),
     map QueryGroundings (base_queries g ++ extra_queries X g)).
Proof.
  unfold find_groundings, base_queries, extra_queries.
  set (free := List.filter is_free (get_edgeSet g)).
  set (k := length free).
  assert (Hbase :
    (if negb (existsb has_hop free) then query_graph_groundings X g
     else extend_each (λ types, query_graph_groundings X (tagged_copy types g))
                      (type_combinations k) [])
    = (Ok (flat_map (kb_groundings X)
             (if negb (existsb has_hop free) then [g]
              else map (λ types, tagged_copy types g) (type_combinations k))),
       map QueryGroundings
           (if negb (existsb has_hop free) then [g]
            else map (λ types, tagged_copy types g) (type_combinations k)))).
  { destruct (negb (existsb has_hop free)).
    - unfold query_graph_groundings. simpl. by rewrite app_nil_r.
    - by rewrite extend_each_queries. }
  rewrite Hbase, M_bind_Ok.
  destruct (has_v_structure_marker X g && (k =? 1)%nat); simpl.
  - rewrite !flat_map_app, !map_app. simpl. by rewrite !app_nil_r.
  - by rewrite !app_nil_r.
Qed.

(** C6: [find_groundings] queries the knowledge base for the graphs
    [base ++ extra], in this order, and returns the concatenation of their
    results.  Without a hop on a free edge [base] is the graph itself (one
    joint query); with a hop it holds one tagged copy of the graph per tuple
    of the product of {direct, reverse} over the [k] free edges, [2 ^ k]
    queries; with a v-structure marker among the tokens and exactly one free
    edge, [extra] is one copy with that edge tagged v-structure, and is empty
    otherwise. *)
Theorem find_groundings_queries (X : Externals) (g : Graph) :
  let free := List.filter is_free (get_edgeSet g) in
  let k := length free in
  ∃ base extra : list Graph,
    find_groundings X g
    = (Ok (flat_map (kb_groundings X) (base ++ extra)), map QueryGroundings (base ++ extra))
    ∧ (existsb has_hop free = false → base = [g])
    ∧ (existsb has_hop free = true →
       base = map (λ types, tagged_copy types g) (type_combinations k)
       ∧ length base = 2 ^ k)
    ∧ (∀ types, types ∈ type_combinations k
                ↔ length types = k ∧ Forall (λ t, t = "direct" ∨ t = "reverse") types)
    ∧ NoDup (type_combinations k)
    ∧ (∀ types, length types = k → tags_free_edges_of types g (tagged_copy types g))
    ∧ (has_v_structure_marker X g = true → k = 1 →
       extra = [tagged_copy ["v-structure"] g])
    ∧ (has_v_structure_marker X g && (k =? 1)%nat = false → extra = []).
Proof.
  intros free k.
  exists (base_queries g), (extra_queries X g).
  unfold base_queries, extra_queries. fold free. fold k.
  split_and!.
  - apply find_groundings_run.
  - by intros ->.
  - intros ->. simpl. split; [done|].
    by rewrite length_map, type_combinations_length.
  - apply type_combinations_elem.
  - apply type_combinations_NoDup.
  - intros types Hl. by apply tagged_copy_spec.
  - intros -> Hk. apply Nat.eqb_eq in Hk. by rewrite Hk.
  - by intros ->.
Qed.

Lemma find_groundings_queries_witness :
  snd (find_groundings Toy.world Toy.hop_skeleton)
  = map QueryGroundings
        (map (λ types, tagged_copy types Toy.hop_skeleton)
             [["direct"; "direct"]; ["direct"; "reverse"];
              ["reverse"; "direct"]; ["reverse"; "reverse"]])
  ∧ snd (find_groundings Toy.world Toy.marked_skeleton)
    = map QueryGroundings
          [Toy.marked_skeleton; tagged_copy ["v-structure"] Toy.marked_skeleton].
Proof.
  split.
  - destruct (find_groundings_queries Toy.world Toy.hop_skeleton)
      as (base & extra & Hrun & _ & Hhop & _ & _ & _ & _ & Hno).
    rewrite Hrun. simpl.
    destruct Hhop as [-> _]; [reflexivity|].
    rewrite Hno; [|reflexivity]. by rewrite app_nil_r.
  - destruct (find_groundings_queries Toy.world Toy.marked_skeleton)
      as (base & extra & Hrun & Hjoint & _ & _ & _ & _ & Hv & _).
    rewrite Hrun. simpl.
    rewrite Hjoint; [|reflexivity].
    rewrite Hv; [|reflexivity|reflexivity]. reflexivity.
Defined.

(** ** Computations: inversion of [bind] *)

Lemma M_bind_inv_Ok {A B} (m : M A) (f : A → M B) (b : B) (log : list Event) :
  mbind f m = (Ok b, log) →
  ∃ a l1 l2, m = (Ok a, l1) ∧ f a = (Ok b, l2) ∧ log = l1 ++ l2.
Proof.
  destruct m as [[a| |] l1]; unfold mbind, M_bind; [|done..].
  destruct (f a) as [r l2] eqn:E. intros [= -> <-]. by exists a, l1, l2.
Qed.

Lemma M_ret_inv {A} (a b : A) (log : list Event) :
  (mret a : M A) = (Ok b, log) → a = b ∧ log = [].
Proof. by intros [= -> <-]. Qed.

(** ** Positions of the selected elements *)

Section Positions.
Context {A : Type} (p : A → bool).

Lemma positions_from_elem (n : nat) (l : list A) (i : nat) :
  i ∈ positions_from p n l ↔ (n ≤ i)%nat ∧ ∃ x, l !! (i - n)%nat = Some x ∧ p x = true.
Proof.
  revert n. induction l as [|x l IH]; intros n; simpl.
  - split; [by intros ?%elem_of_nil|]. by intros (_ & y & Hy & _).
  - rewrite elem_of_app, IH. split.
    + intros [Hi|(Hn & y & Hy & Hp)].
      * destruct (p x) eqn:Hx; [|by apply elem_of_nil in Hi].
        apply list_elem_of_singleton in Hi as ->. split; [lia|].
        exists x. by rewrite Nat.sub_diag.
      * split; [lia|]. exists y. split; [|done].
        replace (i - n)%nat with (S (i - S n)) by lia. done.
    + intros (Hn & y & Hy & Hp).
      destruct (decide (i = n)) as [->|Hne].
      * left. rewrite Nat.sub_diag in Hy. injection Hy as ->.
        rewrite Hp. by apply list_elem_of_singleton.
      * right. split; [lia|]. exists y. split; [|done].
        replace (i - n)%nat with (S (i - S n)) in Hy by lia. done.
Qed.

Lemma positions_from_sorted (n : nat) (l : list A) :
  StronglySorted lt (positions_from p n l).
Proof.
  revert n. induction l as [|x l IH]; intros n; simpl; [constructor|].
  destruct (p x); simpl; [|done].
  constructor; [done|]. apply Forall_forall. intros i Hi.
  apply positions_from_elem in Hi. lia.
Qed.

Lemma positions_from_filter (pre l : list A) :
  omap (λ i, (pre ++ l) !! i) (positions_from p (length pre) l) = List.filter p l.
Proof.
  revert pre. induction l as [|x l IH]; intros pre; simpl; [done|].
  specialize (IH (pre ++ [x])).
  rewrite length_app, Nat.add_1_r, <- app_assoc in IH. simpl in IH.
  destruct (p x); simpl; [|done].
  rewrite list_lookup_middle by done. f_equal. exact IH.
Qed.

Lemma positions_from_length (n : nat) (l : list A) :
  length (positions_from p n l) = length (List.filter p l).
Proof.
  revert n. induction l as [|x l IH]; intros n; simpl; [done|].
  destruct (p x); simpl; by rewrite IH.
Qed.

Lemma filter_positions (l : list A) :
  List.filter p l = omap (λ i, l !! i) (positions_from p 0 l).
Proof. symmetry. apply (positions_from_filter []). Qed.

End Positions.

(** ** Scoring one skeleton against the gold answers *)

Lemma ground_one_with_gold_inv (X : Externals) (fuel : nat) (s_g : Graph)
    (gold_answers : list string) (min_fscore : Q) (chosen rejected : list GoldEntry)
    (log : list Event) :
  ground_one_with_gold X fuel s_g gold_answers min_fscore = (Ok (chosen, rejected), log) →
  ∃ cands,
    evaluated_candidates X fuel s_g gold_answers = (Ok cands, log)
    ∧ chosen = map chosen_entry
                   (List.filter (λ c, Qltb min_fscore (candidate_f1 c)) cands)
    ∧ rejected = map not_chosen_entry
                     (List.filter (λ c, Qltb (candidate_f1 c) (1 # 100)) cands).
Proof.
  unfold ground_one_with_gold. intros H.
  apply M_bind_inv_Ok in H as (cands & l1 & l2 & Hc & Hr & ->).
  apply M_ret_inv in Hr as [[= <- <-] ->].
  exists cands. by rewrite app_nil_r.
Qed.

Lemma evaluated_candidates_eval (X : Externals) (fuel : nat) (s_g : Graph)
    (gold_answers : list string) cands (log : list Event) :
  evaluated_candidates X fuel s_g gold_answers = (Ok cands, log) →
  Forall (λ c, snd c = retrieval_prec_rec_f1_with_altlabels X gold_answers (snd (fst c)))
         cands.
Proof.
  unfold evaluated_candidates. intros H.
  apply M_bind_inv_Ok in H as (gs & l1 & l2 & _ & H & ->).
  apply M_bind_inv_Ok in H as (cs & l3 & l4 & _ & H & ->).
  apply M_ret_inv in H as [<- ->].
  apply Forall_forall. intros c Hc.
  apply list_elem_of_fmap in Hc as (c0 & -> & _). done.
Qed.

(** C5: when [ground_one_with_gold] returns, its lists are taken from the
    evaluated candidates, in their order: the candidate at position [i] is
    placed in the chosen list iff its F1 is greater than the minimum, and in
    the rejected list iff its F1 is below 0.01; a candidate whose F1 lies in
    the band from 0.01 to the minimum is in neither list. *)
Theorem ground_one_with_gold_selection (X : Externals) (fuel : nat) (s_g : Graph)
    (gold_answers : list string) (min_fscore : Q) (chosen rejected : list GoldEntry)
    (log : list Event) :
  ground_one_with_gold X fuel s_g gold_answers min_fscore = (Ok (chosen, rejected), log) →
  ∃ cands (ci ri : list nat),
    evaluated_candidates X fuel s_g gold_answers = (Ok cands, log)
    ∧ StronglySorted lt ci ∧ StronglySorted lt ri
    ∧ chosen = map chosen_entry (omap (λ i, cands !! i) ci)
    ∧ rejected = map not_chosen_entry (omap (λ i, cands !! i) ri)
    ∧ length chosen = length ci ∧ length rejected = length ri
    ∧ ∀ i c, cands !! i = Some c →
        (i ∈ ci ↔ (min_fscore < candidate_f1 c)%Q)
        ∧ (i ∈ ri ↔ (candidate_f1 c < 1 # 100)%Q)
        ∧ (((1 # 100) <= candidate_f1 c)%Q → (candidate_f1 c <= min_fscore)%Q →
           (i ∉ ci) ∧ (i ∉ ri)).
Proof.
  intros H. apply ground_one_with_gold_inv in H as (cands & Hc & -> & ->).
  set (pc := λ c, Qltb min_fscore (candidate_f1 c)).
  set (pr := λ c, Qltb (candidate_f1 c) (1 # 100)).
  exists cands, (positions_from pc 0 cands), (positions_from pr 0 cands).
  assert (Hmem : ∀ (p : _ → bool) i c, cands !! i = Some c →
            (i ∈ positions_from p 0 cands ↔ p c = true)).
  { intros p i c Hi. rewrite positions_from_elem, Nat.sub_0_r, Hi. split.
    - by intros (_ & x & [= <-] & Hp).
    - intros Hp. split; [lia|]. by exists c. }
  split_and!; try apply positions_from_sorted; try done.
  - by rewrite <- filter_positions.
  - by rewrite <- filter_positions.
  - by rewrite length_map, positions_from_length.
  - by rewrite length_map, positions_from_length.
  - intros i c Hi. rewrite !(Hmem _ i c Hi). unfold pc, pr.
    rewrite !Qltb_lt. split_and!; try done.
    intros Hlo Hhi. split; intros Hlt.
    + by apply (Qlt_not_le _ _ Hlt).
    + by apply (Qlt_not_le _ _ Hlt).
Qed.

Lemma ground_one_with_gold_selection_witness :
  ∃ chosen rejected log cands (ci ri : list nat),
    ground_one_with_gold Toy.world 5 Toy.skeleton ["x"] 0 = (Ok (chosen, rejected), log)
    ∧ evaluated_candidates Toy.world 5 Toy.skeleton ["x"] = (Ok cands, log)
    ∧ chosen = map chosen_entry (omap (λ i, cands !! i) ci)
    ∧ rejected = map not_chosen_entry (omap (λ i, cands !! i) ri)
    ∧ length chosen = length ci ∧ length rejected = length ri.
Proof.
  assert (∃ chosen rejected log,
            ground_one_with_gold Toy.world 5 Toy.skeleton ["x"] 0
            = (Ok (chosen, rejected), log)) as (chosen & rejected & log & Hrun).
  { do 3 eexists. vm_compute. reflexivity. }
  destruct (ground_one_with_gold_selection _ _ _ _ _ _ _ _ Hrun)
    as (cands & ci & ri & Hc & _ & _ & Hch & Hrej & Hl1 & Hl2 & _).
  exists chosen, rejected, log, cands, ci, ri. by split_and!.
Defined.

(** C10: when [ground_one_with_gold] returns, the rejected list holds, for
    each evaluated candidate of F1 below 0.01 and in the order of the
    candidates, the entry [(graph, (0, 0, 0), count)], [count] being the
    number of its answer sets; the chosen list holds, for each candidate of F1
    above the minimum, the entry [(graph, evaluation, answer sets)], with the
    triple that the evaluation returned for these answer sets. *)
Theorem ground_one_with_gold_entries (X : Externals) (fuel : nat) (s_g : Graph)
    (gold_answers : list string) (min_fscore : Q) (chosen rejected : list GoldEntry)
    (log : list Event) :
  ground_one_with_gold X fuel s_g gold_answers min_fscore = (Ok (chosen, rejected), log) →
  ∃ cands,
    evaluated_candidates X fuel s_g gold_answers = (Ok cands, log)
    ∧ Forall (λ c, snd c = retrieval_prec_rec_f1_with_altlabels X gold_answers (snd (fst c)))
             cands
    ∧ rejected
      = map (λ c, (fst (fst c), (0, 0, 0)%Q, Count (length (snd (fst c)))))
            (List.filter (λ c, Qltb (snd (snd c)) (1 # 100)) cands)
    ∧ chosen
      = map (λ c, (fst (fst c), snd c, Answers (snd (fst c))))
            (List.filter (λ c, Qltb min_fscore (snd (snd c))) cands)
    ∧ Forall (λ x : GoldEntry,
                ∃ g answers prf,
                  (g, answers, prf) ∈ cands
                  ∧ (snd prf < 1 # 100)%Q
                  ∧ x = (g, (0, 0, 0)%Q, Count (length answers)))
             rejected
    ∧ Forall (λ x : GoldEntry,
                ∃ g answers prf,
                  (g, answers, prf) ∈ cands
                  ∧ (min_fscore < snd prf)%Q
                  ∧ prf = retrieval_prec_rec_f1_with_altlabels X gold_answers answers
                  ∧ x = (g, prf, Answers answers))
             chosen.
Proof.
  intros H. apply ground_one_with_gold_inv in H as (cands & Hc & -> & ->).
  exists cands. split; [done|].
  pose proof (evaluated_candidates_eval _ _ _ _ _ _ Hc) as Hev.
  split; [done|]. split; [done|]. split; [done|].
  rewrite Forall_forall in Hev.
  split; apply Forall_forall; intros x Hx;
    apply list_elem_of_fmap in Hx as ([[g answers] prf] & -> & Hin);
    apply list_elem_of_In, filter_In in Hin as [Hin Hp];
    apply list_elem_of_In in Hin; apply Qltb_lt in Hp;
    exists g, answers, prf.
  - by split_and!.
  - split_and!; try done. by apply (Hev _ Hin).
Qed.

Lemma ground_one_with_gold_entries_witness :
  ∃ chosen rejected log,
    ground_one_with_gold ToyScores.world 5 Toy.skeleton ["Q5"] 0
    = (Ok (chosen, rejected), log)
    ∧ rejected = [(Toy.grounded_with "P2v", (0, 0, 0)%Q, Count 1)]
    ∧ chosen = [(Toy.grounded_with "P1v", (1 # 2, 1 # 2, 1 # 2)%Q, Answers [["Q5"]])].
Proof.
  assert (∃ chosen rejected log,
            ground_one_with_gold ToyScores.world 5 Toy.skeleton ["Q5"] 0
            = (Ok (chosen, rejected), log)) as (chosen & rejected & log & Hrun).
  { do 3 eexists. vm_compute. reflexivity. }
  destruct (ground_one_with_gold_entries _ _ _ _ _ _ _ _ Hrun)
    as (cands & Hc & _ & Hrej & Hch & _).
  exists chosen, rejected, log. split; [exact Hrun|].
  assert (cands
          = [(Toy.grounded_with "P1v", [["Q5"]], (1 # 2, 1 # 2, 1 # 2)%Q);
             (Toy.grounded_with "P2v", [["Q6"]], (0, 0, 0)%Q)]) as ->.
  { vm_compute in Hc. by injection Hc as <- _. }
  split; [exact Hrej|exact Hch].
Defined.

(** The loop over the grounded graphs ends when the importance filter keeps
    at most three answers, within twice as many steps as there are
    groundings. *)
Definition many_answers (c : Graph * list string) : bool := (3 <? length (snd c))%nat.

Lemma add_importance_variants_returns (X : Externals) (fuel i : nat)
    (cands : list (Graph * list string)) :
  (∀ a, (length (filter_denotation_by_importance X a) ≤ 3)%nat) →
  (length cands - i + length (List.filter many_answers (drop i cands)) ≤ fuel)%nat →
  ∃ r, add_importance_variants X fuel i cands = Ok r.
Proof.
  intros Hshort. revert i cands.
  induction fuel as [|fuel IH]; intros i cands Hfuel.
  - destruct (cands !! i) as [c|] eqn:Hi.
    + apply lookup_lt_Some in Hi. lia.
    + exists cands. destruct cands; simpl; by rewrite ?Hi.
  - simpl. destruct (cands !! i) as [[s_g answers]|] eqn:Hi; [|by eexists].
    pose proof (lookup_lt_Some _ _ _ Hi) as Hlt.
    rewrite (drop_S _ _ _ Hi) in Hfuel. simpl in Hfuel. unfold many_answers at 1 in Hfuel.
    simpl in Hfuel.
    apply IH. destruct (3 <? length answers)%nat eqn:Hbig.
    + rewrite length_app, drop_app_le by lia. simpl.
      rewrite List.filter_app, length_app. simpl.
      unfold many_answers at 2. simpl.
      assert ((3 <? length (filter_denotation_by_importance X answers))%nat = false) as ->.
      { apply Nat.ltb_ge, Hshort. }
      simpl in *. lia.
    + lia.
Qed.

Lemma ground_one_with_gold_returns (X : Externals) (fuel : nat) (s_g : Graph)
    (gold_answers : list string) (min_fscore : Q) :
  (∀ a, (length (filter_denotation_by_importance X a) ≤ 3)%nat) →
  (2 * length (flat_map (kb_groundings X) (base_queries s_g ++ extra_queries X s_g))
   ≤ fuel)%nat →
  ∃ chosen rejected,
    ground_one_with_gold X fuel s_g gold_answers min_fscore
    = (Ok (chosen, rejected), map QueryGroundings (base_queries s_g ++ extra_queries X s_g)).
Proof.
  intros Hshort Hfuel.
  unfold ground_one_with_gold, evaluated_candidates.
  rewrite find_groundings_run, M_bind_Ok.
  set (gs := flat_map _ _) in *.
  destruct (add_importance_variants_returns X fuel 0
              (zip (map (apply_grounding s_g) gs)
                   (map (query_graph_denotations X) (map (apply_grounding s_g) gs))))
    as [r Hr]; [done| |].
  { rewrite Nat.sub_0_r, drop_0.
    pose proof (List.filter_length_le many_answers
                  (zip (map (apply_grounding s_g) gs)
                       (map (query_graph_denotations X) (map (apply_grounding s_g) gs)))).
    rewrite length_zip_with, !length_map in *. lia. }
  rewrite Hr. do 2 eexists. unfold lift. rewrite M_bind_Ok. simpl.
  by rewrite !app_nil_r.
Qed.

(** ** Caps and order of the chosen lists *)

Lemma ground_with_gold_loop_stop (X : Externals) (fuel : nat) (gold_answers : list string)
    (min_fscore : Q) (input_graphs : list Graph) (all_chosen all_not_chosen : list GoldEntry) :
  all_chosen ≠ [] →
  ground_with_gold_loop X fuel gold_answers min_fscore input_graphs all_chosen all_not_chosen
  = mret (all_chosen, all_not_chosen).
Proof.
  intros Hne. destruct input_graphs; simpl; [done|]. by destruct all_chosen.
Qed.

Lemma ground_with_gold_loop_skip (X : Externals) (fuel : nat) (gold_answers : list string)
    (min_fscore : Q) (pre : list Graph) (acc : list GoldEntry) :
  Forall (λ s', ∃ n' l', ground_one_with_gold X fuel s' gold_answers min_fscore
                         = (Ok ([], n'), l')) pre →
  ∃ npre lpre,
    ∀ rest,
      ground_with_gold_loop X fuel gold_answers min_fscore (pre ++ rest) [] acc
      = (fst (ground_with_gold_loop X fuel gold_answers min_fscore rest [] (acc ++ npre)),
         lpre ++ snd (ground_with_gold_loop X fuel gold_answers min_fscore rest []
                                            (acc ++ npre))).
Proof.
  intros Hpre. revert acc. induction Hpre as [|s' pre (n' & l' & Hs') _ IH]; intros acc.
  - exists [], []. intros rest. rewrite app_nil_r. simpl. by destruct ground_with_gold_loop.
  - destruct (IH (acc ++ n')) as (npre & lpre & Hrest).
    exists (n' ++ npre), (l' ++ lpre). intros rest.
    simpl. rewrite Hs', M_bind_Ok. simpl. rewrite Hrest. simpl.
    by rewrite !app_assoc.
Qed.

Lemma take_cap {A} (n : nat) (l : list A) :
  (if (n <? length l)%nat then take n l else l) = take n l.
Proof.
  destruct (n <? length l)%nat eqn:E; [done|].
  apply Nat.ltb_ge in E. by rewrite take_ge.
Qed.

Lemma ground_with_gold_inv (X : Externals) (fuel : nat) (input_graphs : list Graph)
    (gold_answers : list string) (min_fscore : Q) (chosen not_chosen : list GoldEntry)
    (log : list Event) :
  ground_with_gold X fuel input_graphs gold_answers min_fscore
  = (Ok (chosen, not_chosen), log) →
  ∃ all_chosen,
    ground_with_gold_loop X fuel gold_answers min_fscore input_graphs [] []
    = (Ok (all_chosen, not_chosen), log)
    ∧ chosen = take 3 (sorted_desc entry_f1 all_chosen).
Proof.
  unfold ground_with_gold. intros H.
  apply M_bind_inv_Ok in H as ([c n] & l1 & l2 & Hloop & Hr & ->).
  simpl in Hr. rewrite take_cap in Hr. apply M_ret_inv in Hr as [[= <- <-] ->].
  exists c. by rewrite app_nil_r.
Qed.

Lemma ground_with_model_inv (X : Externals) (input_graphs : list Graph)
    (qa_model : list Graph → list Q) (min_score : Q) (beam_size : nat)
    (chosen : list ModelEntry) (log : list Event) :
  ground_with_model X input_graphs qa_model min_score beam_size = (Ok chosen, log) →
  ∃ grounded_graphs l1,
    candidates_for_model X input_graphs = (Ok grounded_graphs, l1)
    ∧ ((grounded_graphs = [] ∧ chosen = [] ∧ log = l1)
       ∨ (grounded_graphs ≠ []
          ∧ length (qa_model grounded_graphs) = length grounded_graphs
          ∧ log = l1 ++ [ScoresForInstance grounded_graphs]
          ∧ chosen = take beam_size
                       (sorted_desc entry_score
                          (List.filter (λ x : ModelEntry, Qltb min_score (entry_score x))
                                       (zip grounded_graphs (qa_model grounded_graphs)))))).
Proof.
  unfold ground_with_model. intros H.
  apply M_bind_inv_Ok in H as (gs & l1 & l2 & Hc & H & ->).
  exists gs, l1. split; [done|].
  destruct (length gs =? 0)%nat eqn:Hz.
  - apply Nat.eqb_eq, nil_length_inv in Hz. subst gs.
    apply M_ret_inv in H as [<- ->]. left. by rewrite app_nil_r.
  - apply Nat.eqb_neq in Hz. right.
    unfold scores_for_instance in H. rewrite M_bind_Ok in H.
    destruct (length (qa_model gs) =? length gs)%nat eqn:Hlen;
      cbn [negb lift fst snd] in H; [|done].
    rewrite take_cap in H. injection H as <- <-.
    apply Nat.eqb_eq in Hlen. split_and!; try done.
    by intros ->.
Qed.

(** C4, as the claim states it, fails: the two groundings of the skeleton
    have the same F1, both are chosen, and the chosen list is not strictly
    decreasing. *)
Lemma ground_with_gold_keeps_ties :
  fst (ground_with_gold Toy.world 5 [Toy.skeleton] ["x"] 0)
  = Ok ([Toy.chosen_P1; Toy.chosen_P2], [])
  ∧ ¬ strictly_decreasing entry_f1 [Toy.chosen_P1; Toy.chosen_P2].
Proof.
  split; [by vm_compute|].
  intros H. specialize (H 0%nat 1%nat _ _ eq_refl eq_refl (Nat.lt_0_succ 0)).
  by apply Qlt_irrefl in H.
Qed.

(** The sort is stable: the elements of one score are in the sorted list in
    the order that they have in the list given. *)
Lemma insert_desc_filter {A} (key : A → Q) (s : Q) (x : A) (l : list A) :
  List.filter (λ y, Qeq_bool (key y) s) (insert_desc key x l)
  = List.filter (λ y, Qeq_bool (key y) s) (x :: l).
Proof.
  induction l as [|y ys IH]; [done|].
  cbn [insert_desc]. destruct (Qltb (key x) (key y)) eqn:Hlt; [|done].
  cbn [List.filter] in *. rewrite IH.
  destruct (Qeq_bool (key x) s) eqn:Hx; [|done].
  destruct (Qeq_bool (key y) s) eqn:Hy; [|done].
  apply Qltb_lt in Hlt. apply Qeq_bool_iff in Hx, Hy.
  rewrite Hx, Hy in Hlt. by apply Qlt_irrefl in Hlt.
Qed.

Lemma sorted_desc_stable {A} (key : A → Q) (s : Q) (l : list A) :
  List.filter (λ y, Qeq_bool (key y) s) (sorted_desc key l)
  = List.filter (λ y, Qeq_bool (key y) s) l.
Proof.
  induction l as [|x l IH]; [done|].
  change (sorted_desc key (x :: l)) with (insert_desc key x (sorted_desc key l)).
  rewrite insert_desc_filter. cbn [List.filter]. by rewrite IH.
Qed.

Lemma filter_take_prefix {A} (p : A → bool) (n : nat) (l : list A) :
  List.filter p (take n l) `prefix_of` List.filter p l.
Proof.
  exists (List.filter p (drop n l)).
  by rewrite <- List.filter_app, take_drop.
Qed.

Lemma take_sorted_ties {A} (key : A → Q) (n : nat) (s : Q) (l : list A) :
  List.filter (λ y, Qeq_bool (key y) s) (take n (sorted_desc key l))
  `prefix_of` List.filter (λ y, Qeq_bool (key y) s) l.
Proof. rewrite <- (sorted_desc_stable key s l). apply filter_take_prefix. Qed.

(** C4 (amended): [ground_with_gold] processes its input skeletons in order
    and stops at the first one that yields a chosen candidate: the skeletons
    after it are not grounded and add nothing to the result or to the trace.
    Its chosen list has at most 3 elements (3, or all that the loop has
    chosen when they are fewer) and is in non-increasing order of F1; the
    chosen list of [ground_with_model] has at most [beam_size] elements and
    is in non-increasing order of the model score.  The order is not strict:
    the candidates of one score are in the chosen list in the order in which
    they were produced, and where the cap cuts among them it keeps the first
    ones. *)
Theorem chosen_lists_capped_and_sorted (X : Externals) :
  (∀ fuel gold_answers min_fscore pre s post c n log,
     Forall (λ s', ∃ n' l', ground_one_with_gold X fuel s' gold_answers min_fscore
                            = (Ok ([], n'), l')) pre →
     ground_one_with_gold X fuel s gold_answers min_fscore = (Ok (c, n), log) →
     c ≠ [] →
     ∃ npre lpre,
       ground_with_gold X fuel pre gold_answers min_fscore = (Ok ([], npre), lpre)
       ∧ ground_with_gold X fuel (pre ++ s :: post) gold_answers min_fscore
         = (Ok (take 3 (sorted_desc entry_f1 c), npre ++ n), lpre ++ log))
  ∧ (∀ fuel input_graphs gold_answers min_fscore chosen not_chosen log,
       ground_with_gold X fuel input_graphs gold_answers min_fscore
       = (Ok (chosen, not_chosen), log) →
       (length chosen ≤ 3)%nat ∧ non_increasing entry_f1 chosen
       ∧ ∃ all_chosen,
           ground_with_gold_loop X fuel gold_answers min_fscore input_graphs [] []
           = (Ok (all_chosen, not_chosen), log)
           ∧ length chosen = (3 `min` length all_chosen)%nat
           ∧ ∀ f1, List.filter (λ x, Qeq_bool (entry_f1 x) f1) chosen
                   `prefix_of` List.filter (λ x, Qeq_bool (entry_f1 x) f1) all_chosen)
  ∧ (∀ input_graphs qa_model min_score beam_size chosen log,
       ground_with_model X input_graphs qa_model min_score beam_size = (Ok chosen, log) →
       (length chosen ≤ beam_size)%nat ∧ non_increasing entry_score chosen
       ∧ ∃ grounded_graphs l1,
           candidates_for_model X input_graphs = (Ok grounded_graphs, l1)
           ∧ let scored :=
               List.filter (λ x : ModelEntry, Qltb min_score (entry_score x))
                           (zip grounded_graphs (qa_model grounded_graphs)) in
             length chosen = (beam_size `min` length scored)%nat
             ∧ ∀ score, List.filter (λ x, Qeq_bool (entry_score x) score) chosen
                        `prefix_of` List.filter (λ x, Qeq_bool (entry_score x) score)
                                                scored).
Proof.
  split_and!.
  - intros fuel gold_answers min_fscore pre s post c n log Hpre Hs Hc.
    destruct (ground_with_gold_loop_skip X fuel gold_answers min_fscore pre [] Hpre)
      as (npre & lpre & Hskip).
    exists npre, lpre. unfold ground_with_gold. split.
    + specialize (Hskip []). rewrite app_nil_r in Hskip. rewrite Hskip. simpl.
      by rewrite !app_nil_r.
    + rewrite (Hskip (s :: post)). simpl. rewrite Hs, M_bind_Ok. simpl.
      rewrite ground_with_gold_loop_stop by done. simpl.
      rewrite take_cap. by rewrite !app_nil_r.
  - intros fuel input_graphs gold_answers min_fscore chosen not_chosen log H.
    apply ground_with_gold_inv in H as (all_chosen & Hloop & ->). split_and!.
    + rewrite length_take. lia.
    + apply non_increasing_take, sorted_desc_non_increasing.
    + exists all_chosen. split_and!; [done| |].
      * by rewrite length_take, sorted_desc_length.
      * intros f1. apply take_sorted_ties.
  - intros input_graphs qa_model min_score beam_size chosen log H.
    apply ground_with_model_inv in H
      as (gs & l1 & Hc & [(-> & -> & _)|(_ & _ & _ & ->)]).
    + split; [simpl; lia|]. split; [by intros i j x y Hi|].
      exists [], l1. split; [done|]. simpl. split; [lia|]. intros _. by exists [].
    + split_and!.
      * rewrite length_take. lia.
      * apply non_increasing_take, sorted_desc_non_increasing.
      * exists gs, l1. split; [done|]. simpl. split.
        -- by rewrite length_take, sorted_desc_length.
        -- intros score. apply take_sorted_ties.
Qed.

Lemma chosen_lists_capped_and_sorted_witness :
  ∃ chosen log,
    ground_with_gold Toy.world 5 [Toy.seed; Toy.skeleton; Toy.marked_skeleton] ["x"] 0
    = (Ok (chosen, []), log)
    ∧ log = [QueryGroundings Toy.seed; QueryGroundings Toy.skeleton]
    ∧ (length chosen ≤ 3)%nat ∧ non_increasing entry_f1 chosen
    ∧ List.filter (λ x, Qeq_bool (entry_f1 x) (1 # 2)) chosen
      `prefix_of` [Toy.chosen_P1; Toy.chosen_P2]
    ∧ ∃ chosen' log',
        ground_with_model Toy.world [Toy.skeleton] Toy.toy_model 0 10 = (Ok chosen', log')
        ∧ (length chosen' ≤ 10)%nat ∧ non_increasing entry_score chosen'.
Proof.
  destruct (chosen_lists_capped_and_sorted Toy.world) as (Hstop & Hgold & Hmodel).
  destruct (Hstop 5%nat ["x"] 0%Q [Toy.seed] Toy.skeleton [Toy.marked_skeleton]
              [Toy.chosen_P1; Toy.chosen_P2] [] [QueryGroundings Toy.skeleton])
    as (npre & lpre & Hpre & Hrun).
  - constructor; [|constructor]. do 2 eexists. vm_compute. reflexivity.
  - by vm_compute.
  - done.
  - assert (npre = [] ∧ lpre = [QueryGroundings Toy.seed]) as [-> ->].
    { revert Hpre. vm_compute. by intros [= <- <-]. }
    simpl in Hrun. eexists _, _. split; [exact Hrun|]. split; [done|].
    destruct (Hgold _ _ _ _ _ _ _ Hrun) as (Hlen & Hsorted & all_chosen & Hloop & _ & Hties).
    split; [exact Hlen|]. split; [exact Hsorted|].
    split.
    { assert (all_chosen = [Toy.chosen_P1; Toy.chosen_P2]) as Hall.
      { revert Hloop. vm_compute. by intros [= <-]. }
      specialize (Hties (1 # 2)%Q). by rewrite Hall in Hties. }
    assert (∃ chosen' log',
              ground_with_model Toy.world [Toy.skeleton] Toy.toy_model 0 10
              = (Ok chosen', log')) as (chosen' & log' & Hm).
    { do 2 eexists. vm_compute. reflexivity. }
    exists chosen', log'. split; [exact Hm|].
    destruct (Hmodel _ _ _ _ _ _ Hm) as (Hl & Hs & _). by split.
Defined.

(** ** The contract of the scorer *)

Lemma extend_each_groundings (X : Externals) (l : list Graph) (acc : list Graph) :
  extend_each (λ s_g, groundings ← find_groundings X s_g;
                      mret (map (apply_grounding s_g) groundings)) l acc
  = (Ok (acc ++ flat_map (λ s_g, map (apply_grounding s_g)
                                     (flat_map (kb_groundings X)
                                               (base_queries s_g ++ extra_queries X s_g))) l),
     map QueryGroundings (flat_map (λ s_g, base_queries s_g ++ extra_queries X s_g) l)).
Proof.
  revert acc. induction l as [|s_g l IH]; intros acc; cbn [extend_each].
  - simpl. by rewrite app_nil_r.
  - rewrite find_groundings_run, M_bind_Ok. cbn [mret M_ret fst snd].
    rewrite M_bind_Ok, IH. cbn [fst snd flat_map].
    rewrite app_nil_r. f_equal.
    + f_equal. by rewrite <- app_assoc.
    + by rewrite !map_app.
Qed.

Lemma M_bind_lift_log {A B} (r : Res A) (f : A → M B) :
  (∀ a, snd (f a) = []) → snd (mbind f (lift r)) = [].
Proof.
  intros Hf. destruct r as [a| |]; unfold lift; [|done..].
  rewrite M_bind_Ok. simpl. apply Hf.
Qed.

(** The trace of [candidates_for_model] holds the grounding queries of the
    input graphs and nothing else. *)
Lemma candidates_for_model_log (X : Externals) (input_graphs : list Graph) :
  snd (candidates_for_model X input_graphs)
  = map QueryGroundings
        (flat_map (λ s_g, base_queries s_g ++ extra_queries X s_g) input_graphs).
Proof.
  unfold candidates_for_model.
  rewrite extend_each_groundings, M_bind_Ok. cbn [snd].
  rewrite <- (app_nil_r (map QueryGroundings _)) at 2. f_equal.
  assert (Htail : ∀ gs : list Graph,
    snd (direct_relations ←
           lift (direct_relations_of X
                   (if replace_entities_on (config X)
                    then map (replace_entities X)
                           (map (add_string_representations_to_edges X
                                   (replace_entities_on (config X))) gs)
                    else map (add_string_representations_to_edges X
                                (replace_entities_on (config X))) gs));
         grounded_graphs ←
           lift (filter_res
                   (λ g, b ← not_qualifier (get_graph_last_edge X g);
                         mret (b || negb (str_in (base_relation (get_graph_last_edge X g))
                                                 direct_relations)))
                   (if replace_entities_on (config X)
                    then map (replace_entities X)
                           (map (add_string_representations_to_edges X
                                   (replace_entities_on (config X))) gs)
                    else map (add_string_representations_to_edges X
                                (replace_entities_on (config X))) gs));
         (mret (List.filter (keeps_hop X (first_order_relations_of X grounded_graphs))
                            grounded_graphs) : M (list Graph))) = []).
  { intros gs. apply M_bind_lift_log. intros dr. apply M_bind_lift_log. done. }
  destruct (use_whitelist (config X)).
  - apply M_bind_lift_log. intros gs. apply Htail.
  - rewrite M_bind_ret. apply Htail.
Qed.

(** C8: when [ground_with_model] has grounded candidates and the scorer
    returns a list of another length, also an empty one, the call raises
    [AssertionError] right after the call to the scorer; when it has no
    grounded candidate it returns the empty list and the scorer is not
    called. *)
Theorem ground_with_model_scorer_contract (X : Externals) (input_graphs : list Graph)
    (qa_model : list Graph → list Q) (min_score : Q) (beam_size : nat)
    (grounded_graphs : list Graph) (log : list Event) :
  candidates_for_model X input_graphs = (Ok grounded_graphs, log) →
  (grounded_graphs ≠ [] →
   length (qa_model grounded_graphs) ≠ length grounded_graphs →
   ground_with_model X input_graphs qa_model min_score beam_size
   = (Raise AssertionError, log ++ [ScoresForInstance grounded_graphs]))
  ∧ (grounded_graphs = [] →
     ground_with_model X input_graphs qa_model min_score beam_size = (Ok [], log)
     ∧ ∀ graphs, ScoresForInstance graphs ∉ log).
Proof.
  intros Hc. split.
  - intros Hne Hlen. unfold ground_with_model. rewrite Hc, M_bind_Ok.
    destruct (length grounded_graphs =? 0)%nat eqn:Hz.
    { apply Nat.eqb_eq, nil_length_inv in Hz. done. }
    unfold scores_for_instance. rewrite M_bind_Ok.
    apply Nat.eqb_neq in Hlen. rewrite Hlen. done.
  - intros ->. split.
    + unfold ground_with_model. rewrite Hc, M_bind_Ok. simpl. by rewrite app_nil_r.
    + intros graphs Hin.
      pose proof (candidates_for_model_log X input_graphs) as Hlog.
      rewrite Hc in Hlog. simpl in Hlog. rewrite Hlog in Hin.
      apply list_elem_of_fmap in Hin as (g & [=] & _).
Qed.

Lemma ground_with_model_scorer_contract_witness :
  (∃ grounded_graphs log,
     ground_with_model Toy.world [Toy.skeleton] Toy.silent_model 0 10
     = (Raise AssertionError, log ++ [ScoresForInstance grounded_graphs]))
  ∧ ground_with_model Toy.world [Toy.seed] Toy.silent_model 0 10
    = (Ok [], [QueryGroundings Toy.seed]).
Proof.
  split.
  - assert (∃ gs log, candidates_for_model Toy.world [Toy.skeleton] = (Ok gs, log)
                      ∧ gs ≠ [] ∧ length (Toy.silent_model gs) ≠ length gs)
      as (gs & log & Hc & Hne & Hlen).
    { do 2 eexists. split; [vm_compute; reflexivity|]. split; [done|]. simpl. lia. }
    exists gs, log.
    by apply (ground_with_model_scorer_contract Toy.world _ _ _ _ _ _ Hc).
  - assert (candidates_for_model Toy.world [Toy.seed] = (Ok [], [QueryGroundings Toy.seed]))
      as Hc by (by vm_compute).
    by apply (ground_with_model_scorer_contract Toy.world _ Toy.silent_model 0%Q 10%nat _ _ Hc).
Defined.

(** ** The gold-guided loop *)

Lemma gold_step_inv (X : Externals) (inner : nat) (gold_answers : list string)
    (st st' : GoldState) (log : list Event) (g : GoldEntry) (rest : list GoldEntry) :
  gold_step X inner gold_answers st = (Ok st', log) →
  pool st = g :: rest →
  (pool st' = rest ∧ positive_graphs st' = positive_graphs st ++ [g])
  ∨ (∃ chosen, chosen ≠ []
               ∧ pool st' = sorted_desc entry_f1 (rest ++ chosen)
               ∧ positive_graphs st' = positive_graphs st).
Proof.
  unfold gold_step. intros H Hpool. rewrite Hpool in H.
  destruct (Qltb (entry_f1 g) (7 # 10)).
  - apply M_bind_inv_Ok in H as (r & l1 & l2 & _ & H & _).
    destruct (0 <? length (fst r))%nat eqn:Hlen.
    + apply M_ret_inv in H as [<- _]. right. exists (fst r). split_and!; try done.
      intros Hnil. rewrite Hnil in Hlen. done.
    + apply M_ret_inv in H as [<- _]. by left.
  - apply M_ret_inv in H as [<- _]. by left.
Qed.

(** Every positive but the last one has an F1 below 0.9. *)
Definition earlier_positives_below (positives : list GoldEntry) : Prop :=
  ∀ l x, positives = l ++ [x] → Forall (λ p, (entry_f1 p < 9 # 10)%Q) l.

Lemma last_positive_f1_snoc (l : list GoldEntry) (x : GoldEntry) :
  last_positive_f1 (l ++ [x]) = entry_f1 x.
Proof. unfold last_positive_f1. by rewrite last_snoc. Qed.

Lemma list_snoc_cases {A} (l : list A) : l = [] ∨ ∃ l' x, l = l' ++ [x].
Proof.
  destruct l as [|a l] using rev_ind; [by left|]. right. by exists l, a.
Qed.

Lemma gold_continue_all_below (st : GoldState) :
  earlier_positives_below (positive_graphs st) →
  gold_continue st = true →
  Forall (λ p, (entry_f1 p < 9 # 10)%Q) (positive_graphs st).
Proof.
  intros Hinv Hc. unfold gold_continue in Hc.
  apply andb_true_iff in Hc as [_ Hc]. apply Qltb_lt in Hc.
  destruct (list_snoc_cases (positive_graphs st)) as [->|(l & x & Hl)]; [constructor|].
  rewrite Hl in *. rewrite last_positive_f1_snoc in Hc.
  apply Forall_app. split; [by eapply Hinv|]. by repeat constructor.
Qed.

Lemma gold_reachable_invariant (X : Externals) (inner : nat) (gold_answers : list string)
    (seed : Graph) (st : GoldState) :
  GoldReachable X inner gold_answers seed st →
  non_increasing entry_f1 (pool st) ∧ earlier_positives_below (positive_graphs st).
Proof.
  induction 1 as [g Hg|st st' log Hreach [IHpool IHpos] Hcont Hstep].
  - split.
    + intros i j x y Hi Hj Hlt. simpl in *.
      destruct i; [|done]. destruct j; [lia|done].
    + intros l x Hl. simpl in Hl. by destruct l.
  - destruct (pool st) as [|g rest] eqn:Hpool.
    { unfold gold_continue in Hcont. by rewrite Hpool in Hcont. }
    destruct (gold_step_inv _ _ _ _ _ _ _ _ Hstep Hpool)
      as [[-> ->]|(chosen & _ & -> & ->)].
    + split; [by eapply non_increasing_tail|].
      intros l x Hl. apply app_inj_tail in Hl as [<- _].
      by apply gold_continue_all_below.
    + split; [apply sorted_desc_non_increasing|done].
Qed.

Lemma best_positive_below (positives : list GoldEntry) :
  earlier_positives_below positives →
  (best_positive_f1 positives < 9 # 10)%Q ↔ (last_positive_f1 positives < 9 # 10)%Q.
Proof.
  intros Hinv.
  destruct (list_snoc_cases positives) as [->|(l & x & ->)]; [done|].
  rewrite last_positive_f1_snoc.
  specialize (Hinv l x eq_refl). rewrite Forall_forall in Hinv.
  destruct (l ++ [x]) as [|p ps] eqn:Hl; [by destruct l|].
  unfold best_positive_f1. split.
  - intros Hbest. eapply Qle_lt_trans; [|exact Hbest].
    apply max_key_ge. rewrite <- Hl. apply elem_of_app. right. by left.
  - intros Hlast. apply max_key_lt. intros y Hy. rewrite <- Hl in Hy.
    apply elem_of_app in Hy as [Hy|Hy]; [by apply Hinv|].
    by apply list_elem_of_singleton in Hy as ->.
Qed.

(** C1: at every state that the loop of [generate_with_gold] reaches, the
    loop runs another iteration exactly when the pool is not empty and the
    best F1 among the accepted positives (0.0 when there is none) is below
    0.9; otherwise it returns the positives followed by the negatives.  In
    particular it returns as soon as the pool is empty, whatever the F1 of
    the positives and with any fuel. *)
Theorem generate_with_gold_loop_condition (X : Externals) (inner : nat)
    (gold_answers : list string) (seed : Graph) (st : GoldState) :
  GoldReachable X inner gold_answers seed st →
  (gold_continue st = true
   ↔ pool st ≠ [] ∧ (best_positive_f1 (positive_graphs st) < 9 # 10)%Q)
  ∧ (gold_continue st = true →
     ∀ fuel, gold_loop X inner (S fuel) gold_answers st
             = st' ← gold_step X inner gold_answers st;
               gold_loop X inner fuel gold_answers st')
  ∧ (gold_continue st = false →
     ∀ fuel, gold_loop X inner fuel gold_answers st
             = (Ok (positive_graphs st ++ negative_graphs st), []))
  ∧ (pool st = [] →
     ∀ fuel, gold_loop X inner fuel gold_answers st
             = (Ok (positive_graphs st ++ negative_graphs st), [])).
Proof.
  intros Hreach.
  destruct (gold_reachable_invariant _ _ _ _ _ Hreach) as [_ Hinv].
  assert (Hstop : gold_continue st = false →
            ∀ fuel, gold_loop X inner fuel gold_answers st
                    = (Ok (positive_graphs st ++ negative_graphs st), [])).
  { intros Hc fuel. destruct fuel; simpl; by rewrite Hc. }
  split_and!.
  - unfold gold_continue. rewrite andb_true_iff, negb_true_iff, Nat.eqb_neq, Qltb_lt.
    rewrite (best_positive_below _ Hinv). split; intros [Hp Hf]; (split; [|done]).
    + intros Hnil. by rewrite Hnil in Hp.
    + intros Hlen. by apply nil_length_inv in Hlen.
  - intros Hc fuel. simpl. by rewrite Hc.
  - exact Hstop.
  - intros Hnil. apply Hstop. unfold gold_continue. by rewrite Hnil.
Qed.

Lemma generate_with_gold_loop_condition_witness :
  gold_continue (gold_init Toy.seed) = true
  ∧ ∃ st', GoldReachable Toy.world 5 ["x"] Toy.seed st'
           ∧ gold_continue st' = true
           ∧ pool st' ≠ [] ∧ (best_positive_f1 (positive_graphs st') < 9 # 10)%Q.
Proof.
  assert (GoldReachable Toy.world 5 ["x"] Toy.seed (gold_init Toy.seed)) as Hinit.
  { by constructor. }
  destruct (generate_with_gold_loop_condition _ _ _ _ _ Hinit) as (Hiff & _).
  assert (gold_continue (gold_init Toy.seed) = true) as Hc by (by vm_compute).
  split; [exact Hc|].
  assert (∃ st' log, gold_step Toy.world 5 ["x"] (gold_init Toy.seed) = (Ok st', log)
                     ∧ gold_continue st' = true) as (st' & log & Hstep & Hc').
  { do 2 eexists. split; vm_compute; reflexivity. }
  assert (GoldReachable Toy.world 5 ["x"] Toy.seed st') as Hreach.
  { by eapply gold_reach_step. }
  exists st'. split; [exact Hreach|]. split; [exact Hc'|].
  by apply (generate_with_gold_loop_condition _ _ _ _ _ Hreach).
Defined.

Lemma generate_with_gold_run (X : Externals) (fuel : nat) (seed g : Graph)
    (gold_answers : list string) :
  link_entities_in_graph X seed = Ok g →
  generate_with_gold X fuel seed gold_answers
  = gold_loop X fuel fuel gold_answers (gold_init g).
Proof.
  intros Hlink. unfold generate_with_gold. rewrite Hlink. unfold lift.
  rewrite M_bind_Ok. by destruct gold_loop.
Qed.

(** ** The order of the pool *)

Lemma model_step_inv (X : Externals) (qa_model : list Graph → list Q) (beam_size : nat)
    (st st' : ModelState) (log : list Event) (g : ModelEntry) (rest : list ModelEntry) :
  model_step X qa_model beam_size st = (Ok st', log) →
  m_pool st = g :: rest →
  ∃ chosen,
    m_pool st' = rest ++ chosen
    ∧ m_generated st' = m_generated st ++ chosen
    ∧ non_increasing entry_score chosen
    ∧ (length chosen ≤ beam_size)%nat
    ∧ ∀ c, c ∈ chosen → (entry_score g < entry_score c)%Q.
Proof.
  unfold model_step. intros H Hpool. rewrite Hpool in H.
  apply M_bind_inv_Ok in H as (chosen & l1 & l2 & Hg & H & _).
  assert (Hchosen : non_increasing entry_score chosen
                    ∧ (length chosen ≤ beam_size)%nat
                    ∧ ∀ c, c ∈ chosen → (entry_score g < entry_score c)%Q).
  { apply ground_with_model_inv in Hg
      as (gs & l0 & _ & [(_ & -> & _)|(_ & _ & _ & ->)]).
    - split_and!; [by intros i j x y Hi|simpl; lia|by intros c ?%elem_of_nil].
    - split_and!.
      + apply non_increasing_take, sorted_desc_non_increasing.
      + rewrite length_take. lia.
      + intros c Hc. apply (subseteq_take beam_size) in Hc.
        rewrite sorted_desc_Permutation in Hc.
        apply list_elem_of_In, filter_In in Hc as [_ Hc]. by apply Qltb_lt in Hc. }
  destruct (0 <? length chosen)%nat eqn:Hlen.
  - apply M_ret_inv in H as [<- _]. by exists chosen.
  - apply M_ret_inv in H as [<- _]. apply Nat.ltb_ge in Hlen.
    assert (chosen = []) as -> by (apply nil_length_inv; lia).
    exists []. simpl. rewrite !app_nil_r.
    destruct Hchosen as (Hs & Hl & Hgt). by split_and!.
Qed.

(** C2, as the claim states it, fails for the model-guided search: after two
    iterations from the seed the pool holds the grounding with P2v (score
    0.5) in front of the graph grounded with P1v and P3v (score 0.95); the
    next iteration pops the former while the latter remains. *)
Lemma generate_with_model_pops_lower_score :
  ∃ st, ModelReachable Toy.world Toy.toy_model 10 Toy.seed st
        ∧ m_pool st = [Toy.model_P2; Toy.model_P3]
        ∧ (entry_score Toy.model_P2 < entry_score Toy.model_P3)%Q.
Proof.
  assert (∃ st1 log1,
            model_step Toy.world Toy.toy_model 10 (model_init Toy.seed) = (Ok st1, log1)
            ∧ m_pool st1 ≠ []
            ∧ ∃ st2 log2,
                model_step Toy.world Toy.toy_model 10 st1 = (Ok st2, log2)
                ∧ m_pool st2 = [Toy.model_P2; Toy.model_P3])
    as (st1 & log1 & H1 & Hne & st2 & log2 & H2 & Hpool).
  { do 2 eexists. split; [vm_compute; reflexivity|]. split; [done|].
    do 2 eexists. split; vm_compute; reflexivity. }
  exists st2. split_and!; [|exact Hpool|by vm_compute].
  eapply model_reach_step; [|exact Hne|exact H2].
  eapply (model_reach_step _ _ _ _ (model_init Toy.seed)); [|done|exact H1].
  by constructor.
Qed.

(** C2 (amended): in the gold-guided search the pool is in non-increasing
    order of F1 at every head of the loop, so that no entry left in the pool
    has a greater F1 than the entry that is popped.  In the model-guided
    search the pool is a queue that is not sorted again: an iteration removes
    the front entry and appends the chosen candidates, which are in
    non-increasing order of score among themselves and all score above the
    popped entry. *)
Theorem pool_order (X : Externals) :
  (∀ inner gold_answers seed st,
     GoldReachable X inner gold_answers seed st →
     non_increasing entry_f1 (pool st)
     ∧ ∀ g rest y, pool st = g :: rest → y ∈ rest → (entry_f1 y <= entry_f1 g)%Q)
  ∧ (∀ qa_model beam_size st st' log g rest,
       model_step X qa_model beam_size st = (Ok st', log) →
       m_pool st = g :: rest →
       ∃ chosen,
         m_pool st' = rest ++ chosen
         ∧ non_increasing entry_score chosen
         ∧ ∀ c, c ∈ chosen → (entry_score g < entry_score c)%Q).
Proof.
  split.
  - intros inner gold_answers seed st Hreach.
    destruct (gold_reachable_invariant _ _ _ _ _ Hreach) as [Hsorted _].
    split; [done|]. intros g rest y Hpool Hy. rewrite Hpool in Hsorted.
    by eapply non_increasing_head.
  - intros qa_model beam_size st st' log g rest Hstep Hpool.
    destruct (model_step_inv _ _ _ _ _ _ _ _ Hstep Hpool)
      as (chosen & Hp & _ & Hs & _ & Hgt).
    by exists chosen.
Qed.

Lemma pool_order_witness :
  ∃ st' log,
    gold_step Toy.world 5 ["x"] (gold_init Toy.seed) = (Ok st', log)
    ∧ non_increasing entry_f1 (pool st')
    ∧ ∃ st1 log1 chosen,
        model_step Toy.world Toy.toy_model 10 (model_init Toy.seed) = (Ok st1, log1)
        ∧ m_pool st1 = [] ++ chosen
        ∧ non_increasing entry_score chosen.
Proof.
  destruct (pool_order Toy.world) as [Hgold Hmodel].
  assert (∃ st' log, gold_step Toy.world 5 ["x"] (gold_init Toy.seed) = (Ok st', log))
    as (st' & log & Hstep).
  { do 2 eexists. vm_compute. reflexivity. }
  exists st', log. split; [exact Hstep|]. split.
  - apply (Hgold 5%nat ["x"] Toy.seed st').
    eapply (gold_reach_step _ _ _ _ (gold_init Toy.seed));
      [by constructor|by vm_compute|exact Hstep].
  - assert (∃ st1 log1,
              model_step Toy.world Toy.toy_model 10 (model_init Toy.seed) = (Ok st1, log1))
      as (st1 & log1 & H1).
    { do 2 eexists. vm_compute. reflexivity. }
    destruct (Hmodel _ _ _ _ _ _ _ H1 eq_refl) as (chosen & Hp & Hs & _).
    by exists st1, log1, chosen.
Defined.

(** ** Entity linking *)

Example link_entities_in_graph_doctest :
  link_entities_in_graph Toy.world Toy.norway = Ok Toy.norway_linked.
Proof. reflexivity. Qed.

(** With a v-structure marker the character linkings are put in front of the
    linkings of the single-token PERSON entity, once per linking of the
    other entity, and cut to [max_entity_options]. *)
Example link_entities_in_graph_characters :
  link_entities_in_graph Toy.world Toy.bella
  = Ok (set_entities [mkEntity ["Bella"] "PERSON" (Some ["Q9"; "Q9"; "Q1"]);
                      mkEntity ["Twilight"] "NNP" (Some ["Q1"; "Q2"])] Toy.bella).
Proof. vm_compute. reflexivity. Qed.

(** A two-element entity next to such a PERSON entity makes the collection
    of the film ids fail. *)
Example link_entities_in_graph_numeral :
  link_entities_in_graph Toy.world Toy.bella_2008 = Raise IndexError.
Proof. vm_compute. reflexivity. Qed.

Lemma Res_bind_inv_Ok {A B} (m : Res A) (f : A → Res B) (b : B) :
  mbind f m = Ok b → ∃ a, m = Ok a ∧ f a = Ok b.
Proof. destruct m as [a| |]; [|done..]. intros H. by exists a. Qed.

(** What the second loop of [link_entities_in_graph] never changes. *)
Definition shape (w : WEntity) : list string * string * bool :=
  (w_span w, w_tag w, has (w_links w)).

Lemma film_ids_Ok (entity : WEntity) (entities : list WEntity) (r : list string) :
  film_ids entity entities = Ok r → Forall (λ w, has (w_links w) = true) entities.
Proof.
  revert r. induction entities as [|e es IH]; intros r H; [constructor|].
  simpl in H. destruct (w_links e) as [ids|] eqn:He; [|done].
  apply Res_bind_inv_Ok in H as (rest & Hrest & _).
  constructor; [by rewrite He|by eapply IH].
Qed.

Lemma add_character_linkings_shape (X : Externals) (films : list string)
    (entity entity' : WEntity) :
  add_character_linkings X films entity = Ok entity' →
  has (w_links entity) = true →
  shape entity' = shape entity.
Proof.
  revert entity. induction films as [|film_id rest IH]; intros entity H Hl; simpl in H.
  - by injection H as <-.
  - destruct (w_mutable entity); [|done].
    apply IH in H; [|done]. rewrite H. unfold shape. simpl. by rewrite Hl.
Qed.

Lemma link_characters_shape (X : Externals) (positions : list nat)
    (entities entities' : list WEntity) :
  link_characters X positions entities = Ok entities' →
  map shape entities' = map shape entities.
Proof.
  revert entities. induction positions as [|j rest IH]; intros entities H; simpl in H.
  - by injection H as <-.
  - destruct (entities !! j) as [entity|] eqn:Hj; [|by injection H as <-].
    apply Res_bind_inv_Ok in H as (films & Hfilms & H).
    apply Res_bind_inv_Ok in H as (entity' & Hadd & H).
    apply IH in H. rewrite H.
    apply film_ids_Ok in Hfilms. rewrite Forall_forall in Hfilms.
    apply add_character_linkings_shape in Hadd;
      [|by eapply Hfilms, list_elem_of_lookup_2].
    change (map shape) with (fmap (M:=list) shape).
    rewrite list_fmap_insert, Hadd. apply list_insert_id.
    by rewrite list_lookup_fmap, Hj.
Qed.

Lemma link_characters_Ok_linked (X : Externals) (j : nat) (rest : list nat)
    (entities entities' : list WEntity) :
  link_characters X (j :: rest) entities = Ok entities' →
  (j < length entities)%nat →
  Forall (λ w, has (w_links w) = true) entities.
Proof.
  intros H Hj. simpl in H.
  destruct (lookup_lt_is_Some_2 entities j Hj) as [entity Hentity].
  rewrite Hentity in H.
  apply Res_bind_inv_Ok in H as (films & Hfilms & _). by eapply film_ids_Ok.
Qed.

Lemma positions_from_ext {A B} (p : A → bool) (q : B → bool) (n : nat)
    (l : list A) (l' : list B) :
  map p l = map q l' → positions_from p n l = positions_from q n l'.
Proof.
  revert n l'. induction l as [|x l IH]; intros n [|y l'] H; try done.
  simpl in *. injection H as Hx Hl. by rewrite Hx, (IH (S n) l' Hl).
Qed.

Lemma map_shape_ext {B} (f : list string * string * bool → B) (l l' : list WEntity) :
  map shape l = map shape l' → map (λ w, f (shape w)) l = map (λ w, f (shape w)) l'.
Proof.
  intros H. rewrite <- !(map_map shape f). by rewrite H.
Qed.

Definition shape_is_character (s : list string * string * bool) : bool :=
  bool_decide (snd (fst s) = "PERSON") && (length (fst (fst s)) =? 1)%nat && snd s.
Definition shape_settled (s : list string * string * bool) : bool :=
  snd s || bool_decide (snd (fst s) = "CD").

Lemma link_one_settled (X : Externals) (e : Entity) :
  shape_settled (shape (link_one X e)) = true.
Proof.
  unfold link_one, shape_settled, shape.
  destruct (ent_links e) as [ids|] eqn:Hl; simpl; [by rewrite Hl|].
  destruct (bool_decide (ent_tag e = "CD")) eqn:Hcd; simpl; [|done].
  by rewrite Hl, Hcd.
Qed.

Lemma link_one_of_settled (X : Externals) (w : WEntity) :
  shape_settled (shape w) = true → link_one X (to_tuple w) = of_tuple (to_tuple w).
Proof.
  unfold shape_settled, shape, link_one. simpl.
  destruct (w_links w); simpl; [done|].
  by intros ->.
Qed.

Lemma to_tuple_of_tuple (e : Entity) : to_tuple (of_tuple e) = e.
Proof. by destruct e. Qed.

Lemma forallb_linked_shape (l : list WEntity) :
  forallb (λ e, has (ent_links e)) (map to_tuple l) = true
  ↔ Forall (λ w, has (w_links w) = true) l.
Proof.
  rewrite forallb_forall, Forall_forall. split.
  - intros H w Hw. apply (H (to_tuple w)). apply in_map. by apply list_elem_of_In.
  - intros H e He. apply in_map_iff in He as (w & <- & Hw).
    apply H. by apply list_elem_of_In.
Qed.

Lemma linked_shape_ext (l l' : list WEntity) :
  map shape l = map shape l' →
  Forall (λ w, has (w_links w) = true) l → Forall (λ w, has (w_links w) = true) l'.
Proof.
  intros Hs Hl.
  assert (Forall (λ b, b = true) (map (λ w, snd (shape w)) l')) as H.
  { rewrite <- (map_shape_ext snd _ _ Hs). apply Forall_map.
    by eapply Forall_impl; [exact Hl|]. }
  apply Forall_map in H. by eapply Forall_impl; [exact H|].
Qed.

Lemma positions_from_lt {A} (p : A → bool) (l : list A) (j : nat) (rest : list nat) :
  positions_from p 0 l = j :: rest → (j < length l)%nat.
Proof.
  intros H.
  assert (j ∈ positions_from p 0 l) as Hj by (rewrite H; by left).
  apply positions_from_elem in Hj as (_ & x & Hx & _).
  rewrite Nat.sub_0_r in Hx. by eapply lookup_lt_Some.
Qed.

(** Linking the result of [link_entities_in_graph] changes nothing. *)
Lemma link_entities_in_graph_again (X : Externals) (g g' : Graph) :
  link_entities_in_graph X g = Ok g' → link_entities_in_graph X g' = Ok g'.
Proof.
  unfold link_entities_in_graph at 1.
  destruct (forallb _ (get_entities g)) eqn:Hall.
  { intros [= <-]. unfold link_entities_in_graph. by rewrite Hall. }
  intros H. apply Res_bind_inv_Ok in H as (es' & Hes' & [= <-]).
  set (es := map (link_one X) (get_entities g)) in *.
  assert (Hshape : map shape es' = map shape es).
  { destruct (has_v_structure_marker X g); [by eapply link_characters_shape|].
    by injection Hes' as <-. }
  unfold link_entities_in_graph.
  change (get_entities (set_entities (map to_tuple es') g)) with (map to_tuple es').
  destruct (forallb _ (map to_tuple es')) eqn:Hall'; [done|].
  assert (Hsettled : map (link_one X) (map to_tuple es') = map of_tuple (map to_tuple es')).
  { rewrite !map_map. apply map_ext_in. intros w Hw.
    apply link_one_of_settled.
    assert (Forall (λ b, b = true) (map (λ w, shape_settled (shape w)) es')) as Hs.
    { rewrite (map_shape_ext shape_settled _ _ Hshape). unfold es.
      rewrite map_map. apply Forall_map, Forall_forall. intros e _.
      apply link_one_settled. }
    apply Forall_map in Hs. rewrite Forall_forall in Hs.
    by apply Hs, list_elem_of_In. }
  rewrite Hsettled.
  assert (Hback : map to_tuple (map of_tuple (map to_tuple es')) = map to_tuple es').
  { rewrite (map_map of_tuple to_tuple). rewrite <- (map_id (map to_tuple es')) at 2.
    apply map_ext. apply to_tuple_of_tuple. }
  change (has_v_structure_marker X (set_entities (map to_tuple es') g))
    with (has_v_structure_marker X g).
  destruct (has_v_structure_marker X g) eqn:Hmarker.
  - assert (Hpos : positions_from is_character 0 (map of_tuple (map to_tuple es'))
                   = positions_from is_character 0 es).
    { apply positions_from_ext.
      transitivity (map (λ w, shape_is_character (shape w)) es').
      - rewrite !map_map. apply map_ext. by intros [m sp tg [l|]].
      - rewrite (map_shape_ext shape_is_character _ _ Hshape).
        apply map_ext. by intros [m sp tg [l|]]. }
    rewrite Hpos.
    destruct (positions_from is_character 0 es) as [|j rest] eqn:Hps.
    + simpl. by rewrite Hback.
    + exfalso.
      apply link_characters_Ok_linked in Hes'; [|by eapply positions_from_lt].
      apply (linked_shape_ext es es') in Hes'; [|done].
      apply forallb_linked_shape in Hes'. congruence.
  - simpl. by rewrite Hback.
Qed.

(** C9: [link_entities_in_graph] returns a graph whose entities all carry
    three elements as it is, and linking twice is linking once. *)
Theorem link_entities_in_graph_idempotent (X : Externals) (g : Graph) :
  (forallb (λ e, has (ent_links e)) (get_entities g) = true →
   link_entities_in_graph X g = Ok g)
  ∧ (g' ← link_entities_in_graph X g; link_entities_in_graph X g')
    = link_entities_in_graph X g.
Proof.
  split.
  - intros Hall. unfold link_entities_in_graph. by rewrite Hall.
  - destruct (link_entities_in_graph X g) as [g'| |] eqn:Hg; [|done..].
    exact (link_entities_in_graph_again X g g' Hg).
Qed.

Lemma link_entities_in_graph_idempotent_witness :
  link_entities_in_graph Toy.world Toy.norway_linked = Ok Toy.norway_linked
  ∧ (g' ← link_entities_in_graph Toy.world Toy.bella;
     link_entities_in_graph Toy.world g')
    = link_entities_in_graph Toy.world Toy.bella.
Proof.
  split.
  - by apply (link_entities_in_graph_idempotent Toy.world Toy.norway_linked).
  - apply (link_entities_in_graph_idempotent Toy.world Toy.bella).
Defined.

(** * Further properties of the code *)

(** ** Canonical labels *)

Lemma label_edge_labelled (X : Externals) (edge : Edge) :
  is_Some (e_canonical_right edge) → label_edge X edge = edge.
Proof.
  intros [c Hc]. unfold label_edge. rewrite Hc.
  destruct (e_rightkbID edge) as [k|]; [|done]. simpl. by rewrite andb_false_r.
Qed.

Lemma label_edge_cases (X : Externals) (edge : Edge) :
  label_edge X edge = edge
  ∨ ∃ k lbl, e_rightkbID edge = Some k ∧ k ≠ ""
             ∧ label_entity X k = Some lbl ∧ lbl ≠ ""
             ∧ label_edge X edge = set_canonical_right lbl edge.
Proof.
  unfold label_edge.
  destruct (e_rightkbID edge) as [k|] eqn:Hk; [|by left].
  destruct (truthy k && negb (has (e_canonical_right edge))) eqn:Hc; [|by left].
  destruct (label_entity X k) as [lbl|] eqn:Hlbl; [|by left].
  destruct (truthy lbl) eqn:Ht; [|by left].
  right. exists k, lbl. apply andb_true_iff in Hc as [Hkt _].
  unfold truthy in *. rewrite negb_true_iff, bool_decide_eq_false in Hkt, Ht.
  by split_and!.
Qed.

Lemma label_edge_twice (X : Externals) (edge : Edge) :
  label_edge X (label_edge X edge) = label_edge X edge.
Proof.
  destruct (label_edge_cases X edge) as [H|(k & lbl & _ & _ & _ & _ & H)]; rewrite H.
  - exact H.
  - by apply label_edge_labelled.
Qed.

(** [add_canonical_labels_to_entities] keeps the tokens, the entities, the
    filter and the number of edges, and on every edge everything but
    ['canonical_right']; a label that an edge already has is never replaced,
    and a label that is added is the non-empty label that [label_entity]
    gives for the non-empty ['rightkbID'] of the edge. *)
Theorem add_canonical_labels_to_entities_frame (X : Externals) (g : Graph) :
  g_tokens (add_canonical_labels_to_entities X g) = g_tokens g
  ∧ g_entities (add_canonical_labels_to_entities X g) = g_entities g
  ∧ g_filter (add_canonical_labels_to_entities X g) = g_filter g
  ∧ (g_edgeSet (add_canonical_labels_to_entities X g) = None ↔ g_edgeSet g = None)
  ∧ length (get_edgeSet (add_canonical_labels_to_entities X g)) = length (get_edgeSet g)
  ∧ ∀ i edge,
      get_edgeSet g !! i = Some edge →
      ∃ edge',
        get_edgeSet (add_canonical_labels_to_entities X g) !! i = Some edge'
        ∧ e_type edge' = e_type edge ∧ e_kbID edge' = e_kbID edge
        ∧ e_rightkbID edge' = e_rightkbID edge
        ∧ e_hopUp edge' = e_hopUp edge ∧ e_hopDown edge' = e_hopDown edge
        ∧ e_right edge' = e_right edge
        ∧ (is_Some (e_canonical_right edge) → edge' = edge)
        ∧ (edge' ≠ edge →
           ∃ k lbl, e_rightkbID edge = Some k ∧ k ≠ "" ∧ label_entity X k = Some lbl
                    ∧ lbl ≠ "" ∧ e_canonical_right edge' = Some lbl).
Proof.
  assert (Hedges : get_edgeSet (add_canonical_labels_to_entities X g)
                   = map (label_edge X) (get_edgeSet g)).
  { unfold add_canonical_labels_to_entities, get_edgeSet. simpl.
    by destruct (g_edgeSet g). }
  split_and!; try reflexivity.
  - unfold add_canonical_labels_to_entities. simpl. by destruct (g_edgeSet g).
  - by rewrite Hedges, length_map.
  - intros i edge Hi. exists (label_edge X edge). split.
    { rewrite Hedges. change (map (label_edge X)) with (fmap (M:=list) (label_edge X)).
      by rewrite list_lookup_fmap, Hi. }
    destruct (label_edge_cases X edge)
      as [H|(k & lbl & Hk & Hkne & Hlbl & Hlne & H)].
    + rewrite H. by split_and!.
    + split_and!; try (by rewrite H).
      * exact (label_edge_labelled X edge).
      * intros _. exists k, lbl. rewrite H. by split_and!.
Qed.

Lemma add_canonical_labels_to_entities_frame_witness :
  g_entities (add_canonical_labels_to_entities Toy.world Toy.skeleton) = Some []
  ∧ ∃ edge',
      get_edgeSet (add_canonical_labels_to_entities Toy.world Toy.skeleton) !! 0%nat
      = Some edge'
      ∧ e_rightkbID edge' = Some "Q1"
      ∧ e_canonical_right edge' = Some "label".
Proof.
  destruct (add_canonical_labels_to_entities_frame Toy.world Toy.skeleton)
    as (_ & Hent & _ & _ & _ & Hedge).
  split; [exact Hent|].
  destruct (Hedge 0%nat Toy.free_edge eq_refl)
    as (edge' & He & _ & _ & Hr & _ & _ & _ & _ & Hnew).
  exists edge'. split; [exact He|]. split; [exact Hr|].
  destruct Hnew as (k & lbl & Hk & _ & Hlbl & _ & Hc).
  - intros ->. by vm_compute in He.
  - injection Hk as <-. injection Hlbl as <-. exact Hc.
Defined.

(** Labelling a graph twice is labelling it once. *)
Theorem add_canonical_labels_to_entities_idempotent (X : Externals) (g : Graph) :
  add_canonical_labels_to_entities X (add_canonical_labels_to_entities X g)
  = add_canonical_labels_to_entities X g.
Proof.
  unfold add_canonical_labels_to_entities, set_edgeSet. simpl. f_equal.
  destruct (g_edgeSet g) as [edges|]; [|done]. simpl. f_equal.
  rewrite map_map. apply map_ext. apply label_edge_twice.
Qed.

(** ** Composition of groundings *)

Lemma ground_edge_twice (grounding : gmap string string) (i : nat) (edge : Edge) :
  ground_edge grounding i (ground_edge grounding i edge) = ground_edge grounding i edge.
Proof.
  unfold ground_edge.
  destruct (grounding !! var_e2 i), (grounding !! var_hop i), (grounding !! var_rd i),
    (grounding !! var_rr i), (grounding !! var_rv i);
    destruct edge as [ty kb rk [hu|] hd cr ri]; reflexivity.
Qed.

(** Applying a grounding to a graph that it has already grounded changes
    nothing, and the empty grounding gives the copy of the graph. *)
Theorem apply_grounding_idempotent (g : Graph) (grounding : gmap string string) :
  apply_grounding (apply_grounding g grounding) grounding = apply_grounding g grounding
  ∧ apply_grounding g ∅ = copy_graph g.
Proof.
  split.
  - unfold apply_grounding, copy_graph, set_edgeSet, get_edgeSet, get_entities. simpl.
    f_equal. f_equal. apply list_eq. intros i.
    rewrite !list_lookup_imap.
    destruct (default [] (g_edgeSet g) !! i) as [e|]; simpl; [|done].
    by rewrite ground_edge_twice.
  - unfold apply_grounding, copy_graph, set_edgeSet. simpl. f_equal. f_equal.
    apply list_eq. intros i. rewrite list_lookup_imap.
    destruct (get_edgeSet g !! i) as [e|]; simpl; [|done].
    unfold ground_edge. by rewrite !lookup_empty.
Qed.

(** ** What entity linking keeps *)

Lemma map_shape_lookup (l l' : list WEntity) (i : nat) (w : WEntity) :
  map shape l' = map shape l → l !! i = Some w →
  ∃ w', l' !! i = Some w' ∧ shape w' = shape w.
Proof.
  intros Hs Hi.
  assert (map shape l' !! i = Some (shape w)) as H.
  { rewrite Hs. change (map shape) with (fmap (M:=list) shape).
    by rewrite list_lookup_fmap, Hi. }
  change (map shape) with (fmap (M:=list) shape) in H.
  rewrite list_lookup_fmap in H.
  destruct (l' !! i) as [w'|]; simpl in H; [|done].
  exists w'. split; [done|]. congruence.
Qed.

(** When [link_entities_in_graph] returns, the graph has the same edges,
    tokens and filter and as many entities, in the same order, with the same
    spans and tags; an entity carries a list of candidate ids afterwards
    exactly when it carried one before or its tag is not ["CD"]. *)
Theorem link_entities_in_graph_keeps (X : Externals) (g g' : Graph) :
  link_entities_in_graph X g = Ok g' →
  g_edgeSet g' = g_edgeSet g ∧ g_tokens g' = g_tokens g ∧ g_filter g' = g_filter g
  ∧ length (get_entities g') = length (get_entities g)
  ∧ ∀ i e, get_entities g !! i = Some e →
      ∃ e', get_entities g' !! i = Some e'
            ∧ ent_span e' = ent_span e ∧ ent_tag e' = ent_tag e
            ∧ (is_Some (ent_links e') ↔ is_Some (ent_links e) ∨ ent_tag e ≠ "CD").
Proof.
  unfold link_entities_in_graph.
  destruct (forallb _ (get_entities g)) eqn:Hall.
  { intros [= <-]. split_and!; try done. intros i e Hi. exists e. split_and!; try done.
    rewrite forallb_forall in Hall.
    assert (has (ent_links e) = true) as Hl.
    { apply Hall, list_elem_of_In. by eapply list_elem_of_lookup_2. }
    destruct (ent_links e); [|done]. split; [by left|by eexists]. }
  intros H. apply Res_bind_inv_Ok in H as (es' & Hes' & [= <-]).
  set (es := map (link_one X) (get_entities g)) in *.
  assert (Hshape : map shape es' = map shape es).
  { destruct (has_v_structure_marker X g); [by eapply link_characters_shape|].
    by injection Hes' as <-. }
  change (get_entities (set_entities (map to_tuple es') g)) with (map to_tuple es').
  split_and!; try done.
  - rewrite length_map, <- (length_map shape es'), Hshape. unfold es.
    by rewrite !length_map.
  - intros i e Hi.
    assert (es !! i = Some (link_one X e)) as Hes.
    { unfold es. change (map (link_one X)) with (fmap (M:=list) (link_one X)).
      by rewrite list_lookup_fmap, Hi. }
    destruct (map_shape_lookup es es' i _ Hshape Hes) as (w' & Hw' & Hsh).
    exists (to_tuple w'). split.
    { change (map to_tuple) with (fmap (M:=list) to_tuple).
      by rewrite list_lookup_fmap, Hw'. }
    unfold shape in Hsh. injection Hsh as Hspan Htag Hlinks.
    assert (Hone : w_span (link_one X e) = ent_span e
                   ∧ w_tag (link_one X e) = ent_tag e
                   ∧ (has (w_links (link_one X e)) = true
                      ↔ is_Some (ent_links e) ∨ ent_tag e ≠ "CD")).
    { unfold link_one. destruct (ent_links e) as [ids|] eqn:Hl; simpl.
      - rewrite Hl. split_and!; try done. split; [by left; eexists|done].
      - destruct (bool_decide (ent_tag e = "CD")) eqn:Hcd; simpl.
        + rewrite Hl. apply bool_decide_eq_true in Hcd. split_and!; try done.
          split; [done|]. intros [[? ?]|?]; done.
        + apply bool_decide_eq_false in Hcd. split_and!; try done.
          split; [by right|done]. }
    destruct Hone as (Hs & Ht & Hh). simpl. rewrite Hspan, Htag, Hs, Ht.
    split_and!; try done. rewrite <- Hh, <- Hlinks.
    destruct (w_links w'); simpl; split; try done; by intros [? ?].
Qed.

Lemma link_entities_in_graph_keeps_witness :
  ∃ e', get_entities
          (set_entities [mkEntity ["Bella"] "PERSON" (Some ["Q9"; "Q9"; "Q1"]);
                         mkEntity ["Twilight"] "NNP" (Some ["Q1"; "Q2"])] Toy.bella)
        !! 0%nat = Some e'
        ∧ ent_span e' = ["Bella"] ∧ ent_tag e' = "PERSON".
Proof.
  destruct (link_entities_in_graph_keeps Toy.world Toy.bella _
              link_entities_in_graph_characters)
    as (_ & _ & _ & _ & H).
  destruct (H 0%nat (mkEntity ["Bella"] "PERSON" None) eq_refl)
    as (e' & He' & Hs & Ht & _).
  by exists e'.
Defined.

(** Without a v-structure marker among the tokens [link_entities_in_graph]
    does not fail: every two-element entity whose tag is not ["CD"] receives
    the list that [link_entity] returns for it, and every other entity stays
    as it is. *)
Theorem link_entities_in_graph_without_marker (X : Externals) (g : Graph) :
  has_v_structure_marker X g = false →
  ∃ g', link_entities_in_graph X g = Ok g'
        ∧ ∀ i e, get_entities g !! i = Some e →
            get_entities g' !! i
            = Some (if bool_decide (ent_links e = None ∧ ent_tag e ≠ "CD")
                    then mkEntity (ent_span e) (ent_tag e) (Some (link_entity X e))
                    else e).
Proof.
  intros Hm. unfold link_entities_in_graph.
  destruct (forallb _ (get_entities g)) eqn:Hall.
  - exists g. split; [done|]. intros i e Hi. rewrite Hi. f_equal.
    rewrite forallb_forall in Hall.
    assert (has (ent_links e) = true) as Hl.
    { apply Hall, list_elem_of_In. by eapply list_elem_of_lookup_2. }
    rewrite bool_decide_eq_false_2; [done|]. intros [Hn _]. by rewrite Hn in Hl.
  - rewrite Hm. eexists. split; [reflexivity|]. intros i e Hi.
    change (get_entities (set_entities ?l g)) with l.
    change (map to_tuple) with (fmap (M:=list) to_tuple).
    change (map (link_one X)) with (fmap (M:=list) (link_one X)).
    rewrite !list_lookup_fmap, Hi. simpl. f_equal.
    unfold link_one.
    destruct (ent_links e) as [ids|] eqn:Hl; simpl.
    + apply to_tuple_of_tuple.
    + destruct (bool_decide (ent_tag e = "CD")) eqn:Hcd; simpl.
      * apply bool_decide_eq_true in Hcd.
        rewrite bool_decide_eq_false_2 by (by intros [_ ?]).
        apply to_tuple_of_tuple.
      * apply bool_decide_eq_false in Hcd. by rewrite bool_decide_eq_true_2.
Qed.

Lemma link_entities_in_graph_without_marker_witness :
  ∃ g', link_entities_in_graph Toy.world Toy.norway = Ok g'
        ∧ get_entities g' !! 1%nat = Some (mkEntity ["oil"] "NN" (Some ["Q1"; "Q2"])).
Proof.
  destruct (link_entities_in_graph_without_marker Toy.world Toy.norway) as (g' & Hg & H);
    [reflexivity|].
  exists g'. split; [exact Hg|].
  exact (H 1%nat (mkEntity ["oil"] "NN" None) eq_refl).
Defined.

(** ** What the gold-guided search returns *)

Lemma ground_one_with_gold_kinds (X : Externals) (fuel : nat) (s_g : Graph)
    (gold_answers : list string) (min_fscore : Q) (chosen rejected : list GoldEntry)
    (log : list Event) :
  ground_one_with_gold X fuel s_g gold_answers min_fscore = (Ok (chosen, rejected), log) →
  Forall (λ x, (min_fscore < entry_f1 x)%Q ∧ is_positive_entry x) chosen
  ∧ Forall is_negative_entry rejected.
Proof.
  intros H. apply ground_one_with_gold_inv in H as (cands & _ & -> & ->).
  split; apply Forall_forall; intros x Hx;
    apply list_elem_of_fmap in Hx as (c & -> & Hc);
    apply list_elem_of_In, filter_In in Hc as [_ Hc].
  - apply Qltb_lt in Hc. split; [done|]. by eexists.
  - split; [done|]. by eexists.
Qed.

Lemma ground_with_gold_loop_kinds (X : Externals) (fuel : nat) (gold_answers : list string)
    (min_fscore : Q) (input_graphs : list Graph) (all_chosen all_not_chosen : list GoldEntry)
    (chosen rejected : list GoldEntry) (log : list Event) :
  ground_with_gold_loop X fuel gold_answers min_fscore input_graphs all_chosen all_not_chosen
  = (Ok (chosen, rejected), log) →
  Forall (λ x, (min_fscore < entry_f1 x)%Q ∧ is_positive_entry x) all_chosen →
  Forall is_negative_entry all_not_chosen →
  Forall (λ x, (min_fscore < entry_f1 x)%Q ∧ is_positive_entry x) chosen
  ∧ Forall is_negative_entry rejected.
Proof.
  revert all_chosen all_not_chosen log.
  induction input_graphs as [|s_g rest IH]; intros all_chosen all_not_chosen log H Hc Hn.
  - cbn [ground_with_gold_loop] in H. by injection H as <- <- _.
  - cbn [ground_with_gold_loop] in H. destruct (length all_chosen =? 0)%nat.
    + apply M_bind_inv_Ok in H as ([c n] & l1 & l2 & Hone & H & _).
      apply ground_one_with_gold_kinds in Hone as [Hc1 Hn1].
      eapply IH; [exact H|by apply Forall_app|by apply Forall_app].
    + by injection H as <- <- _.
Qed.

Lemma ground_with_gold_kinds (X : Externals) (fuel : nat) (input_graphs : list Graph)
    (gold_answers : list string) (min_fscore : Q) (chosen rejected : list GoldEntry)
    (log : list Event) :
  ground_with_gold X fuel input_graphs gold_answers min_fscore
  = (Ok (chosen, rejected), log) →
  Forall (λ x, (min_fscore < entry_f1 x)%Q ∧ is_positive_entry x) chosen
  ∧ Forall is_negative_entry rejected.
Proof.
  intros H. apply ground_with_gold_inv in H as (all_chosen & Hloop & ->).
  apply ground_with_gold_loop_kinds in Hloop as [Hc Hn]; [|constructor..].
  split; [|done]. apply Forall_take.
  by rewrite sorted_desc_Permutation.
Qed.

Lemma Forall_above_weaken (m m' : Q) (l : list GoldEntry) :
  (m <= m')%Q →
  Forall (λ x, (m' < entry_f1 x)%Q ∧ is_positive_entry x) l →
  Forall (λ x, (m < entry_f1 x)%Q ∧ is_positive_entry x) l.
Proof.
  intros Hm H. eapply Forall_impl; [exact H|]. intros x [Hx Hp]. split; [|done].
  by eapply Qle_lt_trans.
Qed.

Lemma refine_loop_kinds (X : Externals) (fuel : nat) (gold_answers : list string)
    (m0 : Q) (suggested_graphs : list Graph) (chosen_graphs : list GoldEntry)
    (bonus_round : bool) (master_g_fscore : Q) (negatives : list GoldEntry)
    (chosen rejected : list GoldEntry) (log : list Event) :
  refine_loop X fuel gold_answers suggested_graphs chosen_graphs bonus_round
              master_g_fscore negatives
  = (Ok (chosen, rejected), log) →
  (m0 <= master_g_fscore)%Q →
  Forall (λ x, (m0 < entry_f1 x)%Q ∧ is_positive_entry x) chosen_graphs →
  Forall is_negative_entry negatives →
  Forall (λ x, (m0 < entry_f1 x)%Q ∧ is_positive_entry x) chosen
  ∧ Forall is_negative_entry rejected.
Proof.
  revert chosen_graphs bonus_round master_g_fscore negatives log.
  induction suggested_graphs as [|s_g rest IH];
    intros chosen_graphs bonus_round master negatives log H Hm Hc Hn.
  - cbn [refine_loop] in H. by injection H as <- <- _.
  - cbn [refine_loop] in H. destruct ((length chosen_graphs =? 0)%nat || bonus_round).
    2: { by injection H as <- <- _. }
    apply M_bind_inv_Ok in H as ([c1 n1] & l1 & l2 & Hg1 & H & _).
    apply ground_with_gold_kinds in Hg1 as [Hc1 Hn1].
    apply (Forall_above_weaken m0) in Hc1; [|done].
    apply M_bind_inv_Ok in H as ([c2 n2] & l3 & l4 & Hcn & H & _).
    assert (Forall (λ x, (m0 < entry_f1 x)%Q ∧ is_positive_entry x) c2
            ∧ Forall is_negative_entry n2) as [Hc2 Hn2].
    { cbn [fst snd] in Hcn. destruct (length (chosen_graphs ++ c1) =? 0)%nat.
      - apply M_bind_inv_Ok in Hcn as ([c3 n3] & l5 & l6 & Hg2 & Hcn & _).
        apply ground_with_gold_kinds in Hg2 as [Hc3 Hn3].
        apply (Forall_above_weaken m0) in Hc3; [|done].
        injection Hcn as <- <- _. cbn [fst snd].
        split; rewrite !Forall_app; by split_and!.
      - injection Hcn as <- <- _. split; rewrite Forall_app; by split. }
    cbn [fst snd] in H. destruct c2 as [|c cs].
    + eapply IH; [exact H|done..].
    + destruct (Qltb (max_key entry_f1 c cs) (5 # 100)).
      * eapply IH; [exact H| |done..].
        apply Qlt_le_weak. eapply Qlt_le_trans; [|apply (max_key_ge entry_f1 c cs c)].
        -- by inversion Hc2 as [|? ? [Hlt _] _].
        -- by left.
      * eapply IH; [exact H|done..].
Qed.

(** One iteration of the gold-guided loop: either the popped entry becomes a
    positive, or entries of greater F1 are put in the pool. *)
Lemma gold_step_kinds (X : Externals) (inner : nat) (gold_answers : list string)
    (st st' : GoldState) (log : list Event) (g : GoldEntry) (rest : list GoldEntry) :
  gold_step X inner gold_answers st = (Ok st', log) →
  pool st = g :: rest →
  Forall is_negative_entry (negative_graphs st) →
  Forall is_negative_entry (negative_graphs st')
  ∧ ((pool st' = rest ∧ positive_graphs st' = positive_graphs st ++ [g])
     ∨ (∃ chosen, chosen ≠ []
                  ∧ Forall (λ x, (entry_f1 g < entry_f1 x)%Q ∧ is_positive_entry x) chosen
                  ∧ pool st' = sorted_desc entry_f1 (rest ++ chosen)
                  ∧ positive_graphs st' = positive_graphs st)).
Proof.
  unfold gold_step. intros H Hpool Hn. rewrite Hpool in H.
  destruct (Qltb (entry_f1 g) (7 # 10)).
  - apply M_bind_inv_Ok in H as ([c n] & l1 & l2 & Hr & H & _).
    apply (refine_loop_kinds _ _ _ (entry_f1 g)) in Hr as [Hc Hn'];
      [|apply Qle_refl|constructor|done].
    cbn [fst snd] in H. destruct (0 <? length c)%nat eqn:Hlen.
    + injection H as <- _. split; [done|]. right. exists c. split_and!; try done.
      intros ->. done.
    + injection H as <- _. split; [done|]. by left.
  - injection H as <- _. split; [done|]. by left.
Qed.

Lemma gold_reachable_kinds (X : Externals) (inner : nat) (gold_answers : list string)
    (seed : Graph) (st : GoldState) :
  GoldReachable X inner gold_answers seed st →
  Forall is_positive_entry (pool st)
  ∧ Forall is_positive_entry (positive_graphs st)
  ∧ Forall is_negative_entry (negative_graphs st)
  ∧ (pool st ≠ [] ∨ positive_graphs st ≠ []).
Proof.
  induction 1 as [g Hg|st st' log Hreach (IHpool & IHpos & IHneg & _) Hcont Hstep].
  - split_and!; [|constructor|constructor|by left].
    constructor; [by eexists|constructor].
  - destruct (pool st) as [|g rest] eqn:Hpool.
    { unfold gold_continue in Hcont. by rewrite Hpool in Hcont. }
    inversion IHpool as [|? ? Hg Hrest]; subst.
    destruct (gold_step_kinds _ _ _ _ _ _ _ _ Hstep Hpool IHneg)
      as [Hneg [[-> ->]|(chosen & Hne & Hch & -> & ->)]].
    + split_and!; try done.
      * rewrite Forall_app. split; [done|]. by constructor.
      * right. by destruct (positive_graphs st).
    + split_and!; try done.
      * rewrite sorted_desc_Permutation, Forall_app. split; [done|].
        eapply Forall_impl; [exact Hch|]. by intros x [_ ?].
      * left. intros Hnil.
        pose proof (Permutation_length (sorted_desc_Permutation entry_f1 (rest ++ chosen)))
          as Hlen.
        rewrite Hnil, length_app in Hlen. destruct chosen; [done|]. simpl in Hlen. lia.
Qed.




(** An iteration of the gold-guided loop puts in the pool only entries whose
    F1 is strictly greater than the F1 of the entry it has popped. *)
Theorem gold_step_improves (X : Externals) (inner : nat) (gold_answers : list string)
    (seed : Graph) (st st' : GoldState) (log : list Event) (g : GoldEntry)
    (rest : list GoldEntry) :
  GoldReachable X inner gold_answers seed st →
  gold_step X inner gold_answers st = (Ok st', log) →
  pool st = g :: rest →
  ∀ y, y ∈ pool st' → y ∈ rest ∨ (entry_f1 g < entry_f1 y)%Q.
Proof.
  intros Hreach Hstep Hpool y Hy.
  destruct (gold_reachable_kinds _ _ _ _ _ Hreach) as (_ & _ & Hneg & _).
  destruct (gold_step_kinds _ _ _ _ _ _ _ _ Hstep Hpool Hneg)
    as [_ [[Hp _]|(chosen & _ & Hch & Hp & _)]]; rewrite Hp in Hy.
  - by left.
  - rewrite sorted_desc_Permutation in Hy. apply elem_of_app in Hy as [Hy|Hy]; [by left|].
    right. rewrite Forall_forall in Hch. by apply Hch.
Qed.

Lemma gold_step_improves_witness :
  ∃ st' log,
    gold_step Toy.world 5 ["x"] (gold_init Toy.seed) = (Ok st', log)
    ∧ ∀ y, y ∈ pool st' → y ∈ [] ∨ (0 < entry_f1 y)%Q.
Proof.
  assert (∃ st' log, gold_step Toy.world 5 ["x"] (gold_init Toy.seed) = (Ok st', log))
    as (st' & log & Hstep).
  { do 2 eexists. vm_compute. reflexivity. }
  exists st', log. split; [exact Hstep|].
  apply (gold_step_improves Toy.world 5 ["x"] Toy.seed (gold_init Toy.seed) st' log
           (Toy.seed, (0, 0, 0)%Q, Answers []) []); [by constructor|exact Hstep|done].
Defined.

(** ** What the model-guided search returns *)

Lemma model_loop_scores (X : Externals) (fuel : nat) (qa_model : list Graph → list Q)
    (beam_size : nat) (st : ModelState) (res : list ModelEntry) (log : list Event) :
  model_loop X fuel qa_model beam_size st = (Ok res, log) →
  Forall (λ e, (- (1) <= entry_score e)%Q) (m_pool st) →
  Forall (λ e, (- (1) < entry_score e)%Q) (m_generated st) →
  non_increasing entry_score res
  ∧ Forall (λ e, (- (1) < entry_score e)%Q) res
  ∧ m_generated st ⊆+ res.
Proof.
  revert st log. induction fuel as [|fuel IH]; intros st log H Hpool Hgen.
  - simpl in H. destruct (m_pool st); [|done]. injection H as <- _.
    split_and!.
    + apply sorted_desc_non_increasing.
    + by rewrite sorted_desc_Permutation.
    + by rewrite sorted_desc_Permutation.
  - cbn [model_loop] in H. destruct (m_pool st) as [|g rest] eqn:Hp.
    + injection H as <- _. split_and!.
      * apply sorted_desc_non_increasing.
      * by rewrite sorted_desc_Permutation.
      * by rewrite sorted_desc_Permutation.
    + apply M_bind_inv_Ok in H as (st1 & l1 & l2 & Hstep & H & _).
      destruct (model_step_inv _ _ _ _ _ _ _ _ Hstep Hp)
        as (chosen & Hp1 & Hg1 & _ & _ & Hgt).
      inversion Hpool as [|? ? Hg Hrest]; subst.
      assert (Forall (λ e, (- (1) < entry_score e)%Q) chosen) as Hch.
      { apply Forall_forall. intros c Hc. eapply Qle_lt_trans; [exact Hg|by apply Hgt]. }
      apply IH in H as (Hs & Hall & Hsub).
      * split_and!; try done. rewrite Hg1 in Hsub.
        etrans; [|exact Hsub]. by apply submseteq_inserts_r.
      * rewrite Hp1, Forall_app. split; [done|].
        eapply Forall_impl; [exact Hch|]. intros c Hc. by apply Qlt_le_weak.
      * rewrite Hg1, Forall_app. by split.
Qed.

(** When [generate_with_model] returns, its list is in non-increasing order
    of score and every score in it is greater than -1.0, the score of the
    seed entry: the seed entry itself is never returned. *)
Theorem generate_with_model_result (X : Externals) (fuel : nat) (seed : Graph)
    (qa_model : list Graph → list Q) (beam_size : nat) (res : list ModelEntry)
    (log : list Event) :
  generate_with_model X fuel seed qa_model beam_size = (Ok res, log) →
  non_increasing entry_score res
  ∧ Forall (λ e, (- (1) < entry_score e)%Q) res.
Proof.
  unfold generate_with_model. intros H.
  apply M_bind_inv_Ok in H as (g & l1 & l2 & _ & H & _).
  apply model_loop_scores in H as (Hs & Hall & _); [done| |constructor].
  constructor; [|constructor]. simpl. apply Qle_refl.
Qed.

Lemma generate_with_model_result_witness :
  ∃ res log,
    generate_with_model Toy.world 10 Toy.seed Toy.toy_model 10 = (Ok res, log)
    ∧ length res = 3%nat
    ∧ non_increasing entry_score res
    ∧ Forall (λ e, (- (1) < entry_score e)%Q) res.
Proof.
  assert (∃ res log,
            generate_with_model Toy.world 10 Toy.seed Toy.toy_model 10 = (Ok res, log)
            ∧ length res = 3%nat) as (res & log & Hrun & Hlen).
  { do 2 eexists. split; vm_compute; reflexivity. }
  destruct (generate_with_model_result _ _ _ _ _ _ _ Hrun) as [Hs Hall].
  by exists res, log.
Defined.

(** ** The caps keep the best candidates *)

Lemma take_sorted_best {A} (key : A → Q) (n : nat) (l : list A) :
  take n (sorted_desc key l) ++ drop n (sorted_desc key l) ≡ₚ l
  ∧ (∀ c d, c ∈ take n (sorted_desc key l) → d ∈ drop n (sorted_desc key l) →
            (key d <= key c)%Q)
  ∧ (drop n (sorted_desc key l) ≠ [] → length (take n (sorted_desc key l)) = n).
Proof.
  split_and!.
  - rewrite take_drop. apply sorted_desc_Permutation.
  - intros c d Hc Hd.
    apply elem_of_take in Hc as (i & Hi & Hlt).
    apply list_elem_of_lookup_1 in Hd as (j & Hj). rewrite lookup_drop in Hj.
    eapply (sorted_desc_non_increasing key l i (n + j)); [done..|lia].
  - intros Hne. rewrite length_take. apply Nat.min_l.
    destruct (decide (n ≤ length (sorted_desc key l))%nat) as [|Hgt]; [done|].
    rewrite drop_ge in Hne by lia. done.
Qed.

(** The chosen list of [ground_with_model] holds pairs of a grounded graph
    and the score that the scorer returned at the position of this graph,
    all above the minimum; what the beam leaves out scores no higher than
    anything it keeps, and it leaves something out only when it is full. *)
Theorem ground_with_model_keeps_best (X : Externals) (input_graphs : list Graph)
    (qa_model : list Graph → list Q) (min_score : Q) (beam_size : nat)
    (chosen : list ModelEntry) (log : list Event) :
  ground_with_model X input_graphs qa_model min_score beam_size = (Ok chosen, log) →
  ∃ grounded_graphs l1 dropped,
    candidates_for_model X input_graphs = (Ok grounded_graphs, l1)
    ∧ chosen ++ dropped
      ≡ₚ List.filter (λ x : ModelEntry, Qltb min_score (entry_score x))
                     (zip grounded_graphs (qa_model grounded_graphs))
    ∧ (∀ g s, (g, s) ∈ chosen →
              (min_score < s)%Q
              ∧ ∃ i, grounded_graphs !! i = Some g
                     ∧ qa_model grounded_graphs !! i = Some s)
    ∧ (∀ c d, c ∈ chosen → d ∈ dropped → (entry_score d <= entry_score c)%Q)
    ∧ (dropped ≠ [] → length chosen = beam_size).
Proof.
  intros H. apply ground_with_model_inv in H
    as (gs & l1 & Hc & [(-> & -> & _)|(_ & _ & _ & ->)]).
  - exists [], l1, []. split_and!; try done.
    + intros g s Hin. by apply elem_of_nil in Hin.
    + intros c d Hin. by apply elem_of_nil in Hin.
  - set (above := List.filter _ _).
    destruct (take_sorted_best entry_score beam_size above) as (Hperm & Hbest & Hfull).
    exists gs, l1, (drop beam_size (sorted_desc entry_score above)).
    split_and!; try done.
    intros g s Hin. apply (subseteq_take beam_size) in Hin.
    rewrite sorted_desc_Permutation in Hin.
    apply list_elem_of_In, filter_In in Hin as [Hin Hs].
    apply Qltb_lt in Hs. split; [done|].
    apply list_elem_of_In, list_elem_of_lookup_1 in Hin as (i & Hi).
    exists i. by apply lookup_zip_with_Some in Hi as (? & ? & [= <- <-] & ? & ?).
Qed.

Lemma ground_with_model_keeps_best_witness :
  ∃ chosen log,
    ground_with_model Toy.world [Toy.skeleton] Toy.toy_model 0 1 = (Ok chosen, log)
    ∧ length chosen = 1%nat
    ∧ ∀ g s, (g, s) ∈ chosen → (0 < s)%Q.
Proof.
  assert (∃ chosen log,
            ground_with_model Toy.world [Toy.skeleton] Toy.toy_model 0 1 = (Ok chosen, log)
            ∧ length chosen = 1%nat) as (chosen & log & Hrun & Hlen).
  { do 2 eexists. split; vm_compute; reflexivity. }
  destruct (ground_with_model_keeps_best _ _ _ _ _ _ _ Hrun)
    as (gs & l1 & dropped & _ & _ & Hal & _).
  exists chosen, log. split; [exact Hrun|]. split; [exact Hlen|].
  intros g s Hin. exact (proj1 (Hal g s Hin)).
Defined.

(** The chosen list of [ground_with_gold] holds the three best of the
    candidates that the loop over the skeletons has chosen (all of them when
    there are at most three): what is left out has no greater F1 than
    anything kept.  The rejected list is not cut. *)
Theorem ground_with_gold_keeps_best (X : Externals) (fuel : nat) (input_graphs : list Graph)
    (gold_answers : list string) (min_fscore : Q) (chosen rejected : list GoldEntry)
    (log : list Event) :
  ground_with_gold X fuel input_graphs gold_answers min_fscore
  = (Ok (chosen, rejected), log) →
  ∃ all_chosen dropped,
    ground_with_gold_loop X fuel gold_answers min_fscore input_graphs [] []
    = (Ok (all_chosen, rejected), log)
    ∧ chosen ++ dropped ≡ₚ all_chosen
    ∧ (∀ c d, c ∈ chosen → d ∈ dropped → (entry_f1 d <= entry_f1 c)%Q)
    ∧ (dropped ≠ [] → length chosen = 3%nat)
    ∧ Forall (λ x, (min_fscore < entry_f1 x)%Q) chosen.
Proof.
  intros H. pose proof (ground_with_gold_kinds _ _ _ _ _ _ _ _ H) as [Hk _].
  apply ground_with_gold_inv in H as (all_chosen & Hloop & ->).
  destruct (take_sorted_best entry_f1 3 all_chosen) as (Hperm & Hbest & Hfull).
  exists all_chosen, (drop 3 (sorted_desc entry_f1 all_chosen)).
  split_and!; try done.
  eapply Forall_impl; [exact Hk|]. by intros x [? _].
Qed.

Lemma ground_with_gold_keeps_best_witness :
  ∃ chosen rejected log,
    ground_with_gold Toy.world 5 [Toy.skeleton] ["x"] 0 = (Ok (chosen, rejected), log)
    ∧ Forall (λ x, (0 < entry_f1 x)%Q) chosen.
Proof.
  assert (∃ chosen rejected log,
            ground_with_gold Toy.world 5 [Toy.skeleton] ["x"] 0
            = (Ok (chosen, rejected), log)) as (chosen & rejected & log & Hrun).
  { do 3 eexists. vm_compute. reflexivity. }
  destruct (ground_with_gold_keeps_best _ _ _ _ _ _ _ _ Hrun)
    as (all_chosen & dropped & _ & _ & _ & _ & Habove).
  by exists chosen, rejected, log.
Defined.

(** ** The importance variants *)

(** The variant that [ground_one_with_gold] appends for a grounded graph
    with more than three answers. *)
Definition importance_variant (X : Externals) (c : Graph * list string)
    : Graph * list string :=
  (set_filter "importance" (copy_graph (fst c)),
   filter_denotation_by_importance X (snd c)).

Lemma add_importance_variants_exact (X : Externals) (fuel i : nat)
    (cands r : list (Graph * list string)) :
  (∀ a, (length (filter_denotation_by_importance X a) ≤ 3)%nat) →
  add_importance_variants X fuel i cands = Ok r →
  r = cands ++ map (importance_variant X) (List.filter many_answers (drop i cands)).
Proof.
  intros Hshort. revert i cands.
  induction fuel as [|fuel IH]; intros i cands H.
  - simpl in H. destruct (cands !! i) as [[s_g answers]|] eqn:Hi; [done|].
    injection H as <-. rewrite drop_ge; [by rewrite app_nil_r|].
    by apply lookup_ge_None.
  - simpl in H. destruct (cands !! i) as [[s_g answers]|] eqn:Hi.
    + rewrite (drop_S _ _ _ Hi). simpl. unfold many_answers at 1. simpl.
      pose proof (lookup_lt_Some _ _ _ Hi) as Hlt.
      apply IH in H. destruct (3 <? length answers)%nat eqn:Hbig.
      * rewrite drop_app_le in H by lia. rewrite List.filter_app in H. simpl in H.
        unfold many_answers at 2 in H. simpl in H.
        assert ((3 <? length (filter_denotation_by_importance X answers))%nat = false)
          as Hsmall by apply Nat.ltb_ge, Hshort.
        rewrite Hsmall, app_nil_r, <- app_assoc in H. exact H.
      * exact H.
    + injection H as <-. rewrite drop_ge; [by rewrite app_nil_r|].
      by apply lookup_ge_None.
Qed.

Lemma zip_with_image {A B} (f : A → B) (l : list A) :
  zip l (map f l) = map (λ x, (x, f x)) l.
Proof. induction l as [|x l IH]; simpl; [done|]. by rewrite IH. Qed.

Lemma filter_map_pair {A B} (f : A → B) (p : A * B → bool) (l : list A) :
  List.filter p (map (λ x, (x, f x)) l)
  = map (λ x, (x, f x)) (List.filter (λ x, p (x, f x)) l).
Proof.
  induction l as [|x l IH]; simpl; [done|].
  destruct (p (x, f x)); simpl; by rewrite IH.
Qed.

(** When the importance filter keeps at most three answers, the graphs that
    [ground_one_with_gold] evaluates are the groundings of the skeleton, in
    the order of the knowledge base, followed by one copy tagged
    [filter: importance] for each grounding whose denotation has more than
    three answers, in the same order. *)
Theorem evaluated_candidates_graphs (X : Externals) (fuel : nat) (s_g : Graph)
    (gold_answers : list string)
    (cands : list (Graph * list (list string) * (Q * Q * Q))) (log : list Event) :
  (∀ a, (length (filter_denotation_by_importance X a) ≤ 3)%nat) →
  evaluated_candidates X fuel s_g gold_answers = (Ok cands, log) →
  let grounded_graphs :=
    map (apply_grounding s_g)
        (flat_map (kb_groundings X) (base_queries s_g ++ extra_queries X s_g)) in
  map (λ c, fst (fst c)) cands
  = grounded_graphs
    ++ map (λ g, set_filter "importance" (copy_graph g))
           (List.filter (λ g, (3 <? length (query_graph_denotations X g))%nat)
                        grounded_graphs).
Proof.
  intros Hshort H grounded_graphs. unfold evaluated_candidates in H.
  rewrite find_groundings_run, M_bind_Ok in H. fold grounded_graphs in H.
  destruct (add_importance_variants X fuel 0 _) as [r| |] eqn:Hr; [|done..].
  unfold lift in H. rewrite M_bind_Ok in H. injection H as <- _.
  apply add_importance_variants_exact in Hr; [|done]. rewrite drop_0 in Hr.
  rewrite map_map. simpl.
  change (map (λ x : Graph * list string, x.1) r) with (map fst r).
  rewrite Hr, zip_with_image, filter_map_pair, map_app, !map_map. simpl.
  by rewrite map_id.
Qed.

Lemma evaluated_candidates_graphs_witness :
  ∃ cands log,
    evaluated_candidates Toy.world 5 Toy.skeleton ["x"] = (Ok cands, log)
    ∧ map (λ c, fst (fst c)) cands = [Toy.grounded_with "P1v"; Toy.grounded_with "P2v"].
Proof.
  assert (∃ cands log, evaluated_candidates Toy.world 5 Toy.skeleton ["x"] = (Ok cands, log))
    as (cands & log & Hrun).
  { do 2 eexists. vm_compute. reflexivity. }
  exists cands, log. split; [exact Hrun|].
  rewrite (evaluated_candidates_graphs Toy.world 5 Toy.skeleton ["x"] cands log);
    [by vm_compute| |exact Hrun].
  intros a. simpl. rewrite length_take. lia.
Defined.

(** ** Approximated groundings *)

Lemma product_elem {A} (lists : list (list A)) (tuple : list A) :
  tuple ∈ product lists ↔ Forall2 (λ x l, x ∈ l) tuple lists.
Proof.
  revert tuple. induction lists as [|l rest IH]; intros tuple; simpl.
  - rewrite list_elem_of_singleton. split; [by intros ->|by inversion 1].
  - rewrite list_elem_of_In, in_flat_map. split.
    + intros (x & Hx & Hin). apply list_elem_of_In, list_elem_of_fmap in Hin
        as (t & -> & Ht). constructor; [by apply list_elem_of_In|by apply IH].
    + inversion 1 as [|x ? t ? Hx Ht]; subst. exists x.
      split; [by apply list_elem_of_In|].
      apply list_elem_of_In, list_elem_of_fmap. exists t. split; [done|by apply IH].
Qed.

Lemma product_length {A} (lists : list (list A)) :
  length (product lists) = foldr (λ l n, length l * n)%nat 1%nat lists.
Proof.
  induction lists as [|l rest IH]; simpl; [done|].
  rewrite <- IH. clear IH. induction l as [|x l IHl]; simpl; [done|].
  by rewrite length_app, length_map, IHl.
Qed.

Lemma product_nil {A} (lists : list (list A)) :
  product lists = [] ↔ [] ∈ lists.
Proof.
  rewrite <- length_zero_iff_nil, product_length.
  induction lists as [|l rest IH]; simpl.
  - split; [done|]. by intros ?%elem_of_nil.
  - rewrite elem_of_cons, <- IH. destruct l as [|x l]; simpl.
    + split; [by left|done].
    + split.
      * intros H. right. lia.
      * intros [?|H]; [done|]. rewrite H. lia.
Qed.

Lemma apply_grounding_one_edge (edge : Edge) (p : gmap string string) :
  first_edge (apply_grounding (mkGraph (Some [edge]) None None None) p)
  = Some (ground_edge p 0 edge).
Proof. reflexivity. Qed.

Lemma edge_groundings_elem (X : Externals) (KB : GroundingService) (edge e' : Edge) :
  e' ∈ edge_groundings X KB edge
  ↔ ∃ p, p ∈ kb_groundings_cached KB (mkGraph (Some [edge]) None None None)
         ∧ e' = ground_edge p 0 edge
         ∧ relation_whitelisted X e' = true.
Proof.
  unfold edge_groundings. rewrite list_elem_of_omap. split.
  - intros (r & Hr & He').
    apply list_elem_of_In, filter_In in Hr as [Hr Hw].
    apply in_map_iff in Hr as (p & <- & Hp).
    rewrite apply_grounding_one_edge in He', Hw. injection He' as <-.
    exists p. split; [by apply list_elem_of_In|done].
  - intros (p & Hp & -> & Hw).
    exists (apply_grounding (mkGraph (Some [edge]) None None None) p).
    split; [|done]. apply list_elem_of_In, filter_In. split.
    + apply in_map. by apply list_elem_of_In.
    + by rewrite apply_grounding_one_edge.
Qed.

Lemma approximate_groundings_frame (X : Externals) (KB : GroundingService) (g r : Graph) :
  r ∈ approximate_groundings X KB g →
  g_tokens r = g_tokens g ∧ g_filter r = g_filter g ∧ get_entities r = get_entities g
  ∧ length (get_edgeSet r) = length (get_edgeSet g).
Proof.
  unfold approximate_groundings. intros Hr.
  apply list_elem_of_fmap in Hr as (edge_set & -> & Hp).
  apply product_elem in Hp. unfold separate_groundings in Hp.
  change (get_edgeSet (set_edgeSet (Some edge_set) (copy_graph g))) with edge_set.
  split_and!; try done.
  apply Forall2_length in Hp. by rewrite length_map in Hp.
Qed.

Lemma approximate_groundings_lookup (X : Externals) (KB : GroundingService) (g r : Graph)
    (i : nat) (e : Edge) :
  r ∈ approximate_groundings X KB g →
  get_edgeSet g !! i = Some e →
  ∃ e', get_edgeSet r !! i = Some e'
        ∧ e' ∈ (if is_free e then edge_groundings X KB e else [e]).
Proof.
  unfold approximate_groundings. intros Hr Hi.
  apply list_elem_of_fmap in Hr as (edge_set & -> & Hp).
  apply product_elem in Hp. unfold separate_groundings in Hp.
  change (get_edgeSet (set_edgeSet (Some edge_set) (copy_graph g))) with edge_set.
  assert (map (λ edge, if is_free edge then edge_groundings X KB edge else [edge])
              (get_edgeSet g) !! i
          = Some (if is_free e then edge_groundings X KB e else [e])) as Hl.
  { change (map ?f) with (fmap (M:=list) f). by rewrite list_lookup_fmap, Hi. }
  destruct (Forall2_lookup_r _ _ _ _ _ Hp Hl) as (e' & He' & Hin).
  by exists e'.
Qed.

(** Every graph of [approximate_groundings] is a copy of [g] with as many
    edges: an edge of [g] that has a type and a relation is kept as it is,
    and a free edge is replaced by one of its own groundings, obtained from
    the cached query for the graph made of this edge alone, with a relation
    of the whitelist. *)
Theorem approximate_groundings_edges (X : Externals) (KB : GroundingService)
    (g r : Graph) :
  r ∈ approximate_groundings X KB g →
  g_tokens r = g_tokens g ∧ g_filter r = g_filter g ∧ get_entities r = get_entities g
  ∧ length (get_edgeSet r) = length (get_edgeSet g)
  ∧ ∀ i e, get_edgeSet g !! i = Some e →
      ∃ e', get_edgeSet r !! i = Some e'
            ∧ (is_free e = false → e' = e)
            ∧ (is_free e = true →
               relation_whitelisted X e' = true
               ∧ ∃ p, p ∈ kb_groundings_cached KB (mkGraph (Some [e]) None None None)
                      ∧ e' = ground_edge p 0 e).
Proof.
  intros Hr.
  destruct (approximate_groundings_frame _ _ _ _ Hr) as (Htok & Hfil & Hent & Hlen).
  split_and!; try done.
  intros i e Hi.
  destruct (approximate_groundings_lookup _ _ _ _ _ _ Hr Hi) as (e' & He' & Hin).
  exists e'. split; [done|]. destruct (is_free e); split; try done.
  - intros _. apply edge_groundings_elem in Hin as (p & Hp' & -> & Hw).
    split; [done|]. by exists p.
  - intros _. by apply list_elem_of_singleton in Hin.
Qed.

Lemma approximate_groundings_edges_witness :
  ∃ e', get_edgeSet ToyKB.grounded_P1 !! 0%nat = Some e'
        ∧ relation_whitelisted Toy.world e' = true.
Proof.
  destruct (approximate_groundings_edges Toy.world ToyKB.service ToyKB.typed_skeleton
              ToyKB.grounded_P1) as (_ & _ & _ & _ & H).
  { vm_compute. by left. }
  destruct (H 0%nat (set_type "direct" Toy.free_edge) eq_refl) as (e' & He' & _ & Hw).
  exists e'. split; [exact He'|]. by apply Hw.
Defined.

(** [approximate_groundings] returns as many graphs as the product of the
    numbers of candidates of the edges (one candidate for an edge that is
    not free): one graph for a graph without edges, and none exactly when
    some free edge has no grounding in the whitelist. *)
Theorem approximate_groundings_count (X : Externals) (KB : GroundingService) (g : Graph) :
  length (approximate_groundings X KB g)
  = foldr (λ l n, length l * n)%nat 1%nat (separate_groundings X KB g)
  ∧ (get_edgeSet g = [] →
     approximate_groundings X KB g = [set_edgeSet (Some []) (copy_graph g)])
  ∧ (approximate_groundings X KB g = []
     ↔ ∃ e, e ∈ get_edgeSet g ∧ is_free e = true ∧ edge_groundings X KB e = []).
Proof.
  unfold approximate_groundings. split_and!.
  - by rewrite length_map, product_length.
  - unfold separate_groundings. by intros ->.
  - rewrite <- length_zero_iff_nil, length_map, length_zero_iff_nil, product_nil.
    unfold separate_groundings. rewrite list_elem_of_fmap. split.
    + intros (e & He & Hin). exists e. destruct (is_free e); [done|done].
    + intros (e & Hin & Hf & He). exists e. by rewrite Hf, He.
Qed.

(** ** Groundings without gold answers *)

Lemma tagged_copy_edges (types : list string) (g : Graph) :
  get_edgeSet (tagged_copy types g) = tag_free_edges types (get_edgeSet g).
Proof. reflexivity. Qed.

Lemma relation_whitelisted_kbID (X : Externals) (e : Edge) :
  relation_whitelisted X e = true → is_Some (e_kbID e).
Proof. unfold relation_whitelisted. destruct (e_kbID e); [by eexists|done]. Qed.

Lemma is_free_false_kbID (e : Edge) : is_free e = false → is_Some (e_kbID e).
Proof.
  unfold is_free. rewrite negb_false_iff, andb_true_iff. intros [_ H].
  destruct (e_kbID e); [by eexists|done].
Qed.

(** Every graph of [find_groundings_with_gold] has the tokens and the filter
    of [g] and as many edges, and comes from one assignment of types to the
    free edges of [g]: either the knowledge base has answered the joint query
    for the tagged copy and the graph is this copy with one of the answers
    applied, or it has not, and the graph is an approximated grounding that
    has passed the verification, in which every edge has a relation and every
    edge that had none in [g] has one of the whitelist. *)
Theorem find_groundings_with_gold_graphs (X : Externals) (KB : GroundingService)
    (g r : Graph) :
  r ∈ find_groundings_with_gold X KB g →
  g_tokens r = g_tokens g ∧ g_filter r = g_filter g
  ∧ length (get_edgeSet r) = length (get_edgeSet g)
  ∧ ∃ types,
      types ∈ type_combinations (length (List.filter is_free (get_edgeSet g)))
      ∧ ((∃ query_results p,
            kb_groundings_or_none KB (tagged_copy types g) = Some query_results
            ∧ p ∈ query_results
            ∧ r = apply_grounding (tagged_copy types g) p)
         ∨ (kb_groundings_or_none KB (tagged_copy types g) = None
            ∧ verify_grounding KB r = true
            ∧ Forall (λ e, is_Some (e_kbID e)) (get_edgeSet r)
            ∧ ∀ i e, get_edgeSet g !! i = Some e → e_kbID e = None →
                ∃ e', get_edgeSet r !! i = Some e'
                      ∧ relation_whitelisted X e' = true)).
Proof.
  unfold find_groundings_with_gold. intros Hr.
  apply list_elem_of_In, in_flat_map in Hr as (types & Htypes & Hr).
  apply list_elem_of_In in Htypes, Hr.
  pose proof (proj1 (type_combinations_elem _ _) Htypes) as [Hlen _].
  pose proof (tagged_copy_spec types g Hlen) as (Htok & Hfil & _ & Hedges & Htag).
  unfold groundings_for_types in Hr.
  destruct (kb_groundings_or_none KB (tagged_copy types g)) as [query_results|] eqn:Hq.
  - apply list_elem_of_fmap in Hr as (p & -> & Hp).
    split_and!; try done.
    + by rewrite apply_grounding_edgeSet, length_imap.
    + exists types. split; [done|]. left. by exists query_results, p.
  - apply list_elem_of_In, filter_In in Hr as [Hr Hv]. apply list_elem_of_In in Hr.
    destruct (approximate_groundings_frame _ _ _ _ Hr) as (Htok' & Hfil' & _ & Hlen').
    assert (∀ i e, get_edgeSet (tagged_copy types g) !! i = Some e →
              ∃ e', get_edgeSet r !! i = Some e'
                    ∧ (is_free e = false → e' = e)
                    ∧ (is_free e = true → relation_whitelisted X e' = true)) as Hap.
    { intros i e Hi.
      destruct (approximate_groundings_lookup _ _ _ _ _ _ Hr Hi) as (e' & He' & Hin).
      exists e'. split; [done|]. destruct (is_free e); split; try done.
      - intros _. by apply edge_groundings_elem in Hin as (p & _ & _ & Hw).
      - intros _. by apply list_elem_of_singleton in Hin. }
    split_and!; try congruence.
    exists types. split; [done|]. right. split_and!; try done.
    + apply Forall_lookup. intros i e' He'.
      destruct (lookup_lt_is_Some_2 (get_edgeSet (tagged_copy types g)) i) as [t Ht].
      { rewrite <- Hlen'. by eapply lookup_lt_Some. }
      destruct (Hap i t Ht) as (e'' & He'' & Hkeep & Hnew).
      rewrite He' in He''. injection He'' as <-.
      destruct (is_free t) eqn:Hf.
      * eapply relation_whitelisted_kbID, Hnew. done.
      * rewrite (Hkeep eq_refl). by apply is_free_false_kbID.
    + intros i e Hi Hk.
      assert (is_free e = true) as Hfree.
      { unfold is_free. rewrite Hk. by rewrite andb_false_r. }
      destruct (Htag i e Hi) as [_ Hty]. destruct (Hty Hfree) as (ty & _ & Ht).
      destruct (Hap i _ Ht) as (e' & He' & _ & Hnew).
      exists e'. split; [done|]. apply Hnew.
      unfold is_free. simpl. by rewrite Hk.
Qed.

Lemma find_groundings_with_gold_graphs_witness :
  length (get_edgeSet ToyKB.grounded_P1) = length (get_edgeSet Toy.skeleton)
  ∧ ∃ types, types ∈ type_combinations 1.
Proof.
  destruct (find_groundings_with_gold_graphs Toy.world ToyKB.service Toy.skeleton
              ToyKB.grounded_P1) as (_ & _ & Hlen & types & Htypes & _).
  { vm_compute. by left. }
  split; [exact Hlen|]. by exists types.
Defined.

Lemma kbID_whitelisted_cases (X : Externals) (e : Edge) :
  kbID_whitelisted X e
  = match e_kbID e with
    | Some _ => Ok (relation_whitelisted X e)
    | None => Raise TypeError
    end.
Proof. unfold kbID_whitelisted, relation_whitelisted. by destruct (e_kbID e). Qed.

Lemma all_res_kbID_Ok (X : Externals) (edges : list Edge) (b : bool) :
  all_res (kbID_whitelisted X) edges = Ok b →
  b = forallb (relation_whitelisted X) edges.
Proof.
  induction edges as [|e es IH]; cbn [all_res forallb]; [by intros [= <-]|].
  rewrite kbID_whitelisted_cases.
  destruct (e_kbID e) as [k|]; [|done].
  destruct (relation_whitelisted X e); simpl; [done|by intros [= <-]].
Qed.

Lemma all_res_kbID_cases (X : Externals) (edges : list Edge) :
  (∃ b, all_res (kbID_whitelisted X) edges = Ok b)
  ∨ (all_res (kbID_whitelisted X) edges = Raise TypeError
     ∧ ∃ pre e post, edges = pre ++ e :: post
                     ∧ Forall (λ e, relation_whitelisted X e = true) pre
                     ∧ e_kbID e = None).
Proof.
  induction edges as [|e es IH]; cbn [all_res]; [left; by eexists|].
  rewrite kbID_whitelisted_cases.
  destruct (e_kbID e) as [k|] eqn:Hk.
  - destruct (relation_whitelisted X e) eqn:Hw; simpl.
    + destruct IH as [IH|[IH (pre & e0 & post & -> & Hpre & He0)]]; [by left|].
      right. split; [done|]. exists (e :: pre), e0, post. split_and!; try done.
      by constructor.
    + left. by eexists.
  - right. split; [done|]. by exists [], e, es.
Qed.

Lemma filter_res_Ok {A} (f : A → Res bool) (p : A → bool) (l : list A) :
  (∀ x, x ∈ l → f x = Ok (p x)) → filter_res f l = Ok (List.filter p l).
Proof.
  induction l as [|x l IH]; intros H; simpl; [done|].
  rewrite (H x) by by left. simpl. rewrite IH; [by destruct (p x)|].
  intros y Hy. apply H. by right.
Qed.

Lemma filter_res_inv {A} (f : A → Res bool) (l r : list A) :
  filter_res f l = Ok r → ∀ x, x ∈ l → ∃ b, f x = Ok b.
Proof.
  revert r. induction l as [|y l IH]; intros r H x Hx; [by apply elem_of_nil in Hx|].
  simpl in H. apply Res_bind_inv_Ok in H as (b & Hb & H).
  apply Res_bind_inv_Ok in H as (r' & Hr' & _).
  apply elem_of_cons in Hx as [->|Hx]; [by exists b|by eapply IH].
Qed.

Lemma filter_res_raise {A} (f : A → Res bool) (l : list A) (x : A) (e : exn) :
  x ∈ l → f x = Raise e →
  (∀ y, y ∈ l → (∃ b, f y = Ok b) ∨ f y = Raise e) →
  filter_res f l = Raise e.
Proof.
  induction l as [|y l IH]; intros Hx Hfx Hall; [by apply elem_of_nil in Hx|].
  simpl. destruct (Hall y) as [[b Hb]|Hy]; [by left| |by rewrite Hy].
  rewrite Hb. simpl. apply elem_of_cons in Hx as [->|Hx]; [congruence|].
  rewrite IH; [done..|]. intros z Hz. apply Hall. by right.
Qed.

Lemma ground_without_gold_filter (X : Externals) (KB : GroundingService)
    (input_graphs res : list Graph) :
  ground_without_gold X KB input_graphs = Ok res →
  res = List.filter (λ g, forallb (relation_whitelisted X) (get_edgeSet g))
                    (flat_map (find_groundings_with_gold X KB) input_graphs).
Proof.
  unfold ground_without_gold. intros H.
  pose proof (filter_res_inv _ _ _ H) as Hall.
  rewrite (filter_res_Ok _ (λ g, forallb (relation_whitelisted X) (get_edgeSet g)))
    in H; [by injection H|].
  intros g Hg. destruct (Hall g Hg) as [b Hb]. rewrite Hb.
  by rewrite (all_res_kbID_Ok _ _ _ Hb).
Qed.

Lemma whitelisted_edges_kbID (X : Externals) (r : Graph) (e : Edge) :
  forallb (relation_whitelisted X) (get_edgeSet r) = true →
  e ∈ get_edgeSet r →
  ∃ kbID, e_kbID e = Some kbID ∧ drop_last_char kbID ∈ property_whitelist X.
Proof.
  intros Hr He.
  rewrite forallb_forall in Hr. apply list_elem_of_In, Hr in He.
  unfold relation_whitelisted in He. destruct (e_kbID e) as [k|]; [|done].
  exists k. split; [done|]. by apply bool_decide_eq_true in He.
Qed.

(** When [ground_without_gold] returns, it returns the groundings of the
    input graphs, in their order, in which every edge has a relation of the
    whitelist, and only these. *)
Theorem ground_without_gold_result (X : Externals) (KB : GroundingService)
    (input_graphs res : list Graph) :
  ground_without_gold X KB input_graphs = Ok res →
  res = List.filter (λ g, forallb (relation_whitelisted X) (get_edgeSet g))
                    (flat_map (find_groundings_with_gold X KB) input_graphs)
  ∧ ∀ r e, r ∈ res → e ∈ get_edgeSet r →
      ∃ kbID, e_kbID e = Some kbID
              ∧ drop_last_char kbID ∈ property_whitelist X.
Proof.
  intros H. pose proof (ground_without_gold_filter _ _ _ _ H) as Hres.
  split; [done|]. intros r e Hr He. rewrite Hres in Hr.
  apply list_elem_of_In, filter_In in Hr as [_ Hr].
  by eapply whitelisted_edges_kbID.
Qed.

Lemma ground_without_gold_result_witness :
  ∃ res, ground_without_gold Toy.world ToyKB.service [Toy.skeleton] = Ok res
         ∧ ∀ r e, r ∈ res → e ∈ get_edgeSet r →
             ∃ kbID, e_kbID e = Some kbID
                     ∧ drop_last_char kbID ∈ property_whitelist Toy.world.
Proof.
  assert (∃ res, ground_without_gold Toy.world ToyKB.service [Toy.skeleton] = Ok res)
    as [res Hrun].
  { eexists. vm_compute. reflexivity. }
  exists res. split; [exact Hrun|].
  exact (proj2 (ground_without_gold_result _ _ _ _ Hrun)).
Defined.

(** [ground_without_gold] either returns or raises [TypeError]; it raises
    exactly when some grounding has an edge without relation that is
    reached, that is, with only whitelisted edges in front of it. *)
Theorem ground_without_gold_error (X : Externals) (KB : GroundingService)
    (input_graphs : list Graph) :
  ((∃ res, ground_without_gold X KB input_graphs = Ok res)
   ∨ ground_without_gold X KB input_graphs = Raise TypeError)
  ∧ (ground_without_gold X KB input_graphs = Raise TypeError
     ↔ ∃ g pre e post,
         g ∈ flat_map (find_groundings_with_gold X KB) input_graphs
         ∧ get_edgeSet g = pre ++ e :: post
         ∧ Forall (λ e, relation_whitelisted X e = true) pre
         ∧ e_kbID e = None).
Proof.
  unfold ground_without_gold.
  set (groundings := flat_map _ _).
  set (f := λ g, all_res (kbID_whitelisted X) (get_edgeSet g)).
  assert (Hcases : ∀ g, (∃ b, f g = Ok b) ∨ f g = Raise TypeError).
  { intros g. destruct (all_res_kbID_cases X (get_edgeSet g)) as [?|[? _]];
      [by left|by right]. }
  assert (Hdec : (∃ g, g ∈ groundings ∧ f g = Raise TypeError)
                 ∨ ¬ ∃ g, g ∈ groundings ∧ f g = Raise TypeError).
  { generalize groundings. intros l. induction l as [|y l [(g & Hg & Hfg)|IH]].
    - right. by intros (g & Hg%elem_of_nil & _).
    - left. exists g. split; [by right|done].
    - destruct (Hcases y) as [[b Hb]|Hy].
      + right. intros (g & Hg & Hfg). apply elem_of_cons in Hg as [->|Hg].
        * congruence.
        * apply IH. by exists g.
      + left. exists y. split; [by left|done]. }
  destruct Hdec as [(g & Hg & Hfg)|Hnone].
  - assert (filter_res f groundings = Raise TypeError) as Hraise.
    { eapply filter_res_raise; [exact Hg|exact Hfg|]. intros y _. apply Hcases. }
    split; [by right|]. split; [|done]. intros _.
    destruct (all_res_kbID_cases X (get_edgeSet g))
      as [[b Hb]|[_ (pre & e & post & Hsplit & Hpre & He)]].
    + unfold f in Hfg. congruence.
    + by exists g, pre, e, post.
  - assert (filter_res f groundings
            = Ok (List.filter (λ g, forallb (relation_whitelisted X) (get_edgeSet g))
                              groundings)) as Hok.
    { apply filter_res_Ok. intros g Hg. destruct (Hcases g) as [[b Hb]|Hr].
      - rewrite Hb. unfold f in Hb. by rewrite (all_res_kbID_Ok _ _ _ Hb).
      - exfalso. apply Hnone. by exists g. }
    split; [left; by eexists|]. rewrite Hok. split; [done|].
    intros (g & pre & e & post & Hg & Hsplit & Hpre & He). exfalso.
    apply Hnone. exists g. split; [done|]. unfold f. rewrite Hsplit.
    clear -Hpre He. induction Hpre as [|x pre Hx _ IH]; cbn [all_res app].
    + rewrite kbID_whitelisted_cases. by rewrite He.
    + rewrite kbID_whitelisted_cases, Hx.
      destruct (relation_whitelisted_kbID X x Hx) as [k ->]. exact IH.
Qed.

Example ground_without_gold_missing_relation :
  ground_without_gold Toy.world ToyKB.service [ToyKB.two_free_edges] = Raise TypeError.
Proof. vm_compute. reflexivity. Qed.

(** ** The search without gold answers *)

Lemma find_groundings_with_gold_entities (X : Externals) (KB : GroundingService)
    (g r : Graph) :
  r ∈ find_groundings_with_gold X KB g → get_entities r = get_entities g.
Proof.
  unfold find_groundings_with_gold. intros Hr.
  apply list_elem_of_In, in_flat_map in Hr as (types & _ & Hr).
  apply list_elem_of_In in Hr. unfold groundings_for_types in Hr.
  destruct (kb_groundings_or_none KB (tagged_copy types g)) as [query_results|].
  - by apply list_elem_of_fmap in Hr as (p & -> & _).
  - apply list_elem_of_In, filter_In in Hr as [Hr _]. apply list_elem_of_In in Hr.
    by destruct (approximate_groundings_frame _ _ _ _ Hr) as (_ & _ & -> & _).
Qed.

(** When [generate_without_gold] returns, every graph in its result is a
    grounding of a generated graph that has passed the verification and has
    been stripped of its entities: it has no entity, and every one of its
    edges has a relation of the whitelist. *)
Theorem generate_without_gold_result (X : Externals) (KB : GroundingService)
    (fuel : nat) (ungrounded_graph : Graph)
    (restrict_actions expand_actions non_linking_actions : list (Graph → list Graph))
    (res : list Graph) (r : Graph) :
  generate_without_gold X KB fuel ungrounded_graph
                        restrict_actions expand_actions non_linking_actions = Ok res →
  r ∈ res →
  get_entities r = []
  ∧ (∀ e, e ∈ get_edgeSet r →
          ∃ kbID, e_kbID e = Some kbID ∧ drop_last_char kbID ∈ property_whitelist X)
  ∧ ∃ generated_graphs s,
      plain_loop X fuel restrict_actions expand_actions non_linking_actions
                 (mkPlainState [ungrounded_graph] []) = Ok generated_graphs
      ∧ s ∈ generated_graphs
      ∧ verify_grounding KB s = true
      ∧ r ∈ find_groundings_with_gold X KB (del_entities s).
Proof.
  unfold generate_without_gold. intros H Hr.
  apply Res_bind_inv_Ok in H as (generated & Hloop & H).
  pose proof (ground_without_gold_filter _ _ _ _ H) as Hres.
  assert (∀ e, e ∈ get_edgeSet r →
            ∃ kbID, e_kbID e = Some kbID ∧ drop_last_char kbID ∈ property_whitelist X)
    as Hwl.
  { intros e He. pose proof Hr as Hr'. rewrite Hres in Hr'.
    apply list_elem_of_In, filter_In in Hr' as [_ Hr'].
    by eapply whitelisted_edges_kbID. }
  assert (r ∈ flat_map (find_groundings_with_gold X KB)
                       (map del_entities (List.filter (verify_grounding KB) generated)))
    as Hin.
  { rewrite Hres in Hr. by apply list_elem_of_In, filter_In in Hr as [?%list_elem_of_In _]. }
  apply list_elem_of_In, in_flat_map in Hin as (s' & Hs' & Hin).
  apply in_map_iff in Hs' as (s & <- & Hs). apply filter_In in Hs as [Hs Hv].
  apply list_elem_of_In in Hin, Hs.
  split_and!.
  - by rewrite (find_groundings_with_gold_entities _ _ _ _ Hin).
  - exact Hwl.
  - by exists generated, s.
Qed.

Lemma generate_without_gold_result_witness :
  ∃ res r,
    generate_without_gold Toy.world ToyKB.service 5 Toy.seed [ToyKB.propose] [] [] = Ok res
    ∧ r ∈ res ∧ get_entities r = []
    ∧ ∀ e, e ∈ get_edgeSet r →
           ∃ kbID, e_kbID e = Some kbID
                   ∧ drop_last_char kbID ∈ property_whitelist Toy.world.
Proof.
  assert (∃ r rest,
            generate_without_gold Toy.world ToyKB.service 5 Toy.seed [ToyKB.propose] [] []
            = Ok (r :: rest)) as (r & rest & Hrun).
  { do 2 eexists. vm_compute. reflexivity. }
  destruct (generate_without_gold_result _ _ _ _ _ _ _ _ r Hrun) as (He & Hwl & _);
    [by left|].
  exists (r :: rest), r. split; [exact Hrun|]. split; [by left|]. by split.
Defined.

(** When the restriction actions propose nothing for the graph given,
    [generate_without_gold] ends after one iteration and returns no graph:
    the graph given is not itself among the generated graphs, whatever the
    knowledge base would answer for it. *)
Theorem generate_without_gold_no_proposal (X : Externals) (KB : GroundingService)
    (fuel : nat) (ungrounded_graph : Graph)
    (restrict_actions expand_actions non_linking_actions : list (Graph → list Graph)) :
  apply_actions restrict_actions ungrounded_graph = [] →
  generate_without_gold X KB (S fuel) ungrounded_graph
                        restrict_actions expand_actions non_linking_actions = Ok [].
Proof.
  intros Hnone. unfold generate_without_gold.
  cbn [plain_loop p_pool]. unfold plain_step. cbn [p_pool p_generated].
  rewrite Hnone. simpl. by destruct fuel.
Qed.

Lemma generate_without_gold_no_proposal_witness :
  generate_without_gold Toy.world ToyKB.service 1 Toy.skeleton [ToyKB.propose] [] [] = Ok [].
Proof.
  by apply (generate_without_gold_no_proposal Toy.world ToyKB.service 0 Toy.skeleton
              [ToyKB.propose] [] []).
Defined.

(** ** Post-processing of the answers *)

(** The doctest of [post_process_answers_given_graph]. *)
Example post_process_answers_given_graph_doctest :
  PostProcess.post_process_answers_given_graph PostProcess.text 2
    [["eng"; "english"]]
    (mkGraph (Some [mkEdge None (Some "P37v") (Some "Q843") None None None None])
             None None None)
  = Ok [["eng"; "english"; "eng language"; "english language"];
        ["pakistani english"; "pakistani english language"]].
Proof. vm_compute. reflexivity. Qed.

(** For a cast relation each answer set is extended by the first words of its
    answers; an answer of white space only has none. *)
Example post_process_answers_given_graph_first_words :
  PostProcess.post_process_answers_given_graph PostProcess.text 0
    [[" Bella Swan"; "  "; "Edward"]]
    (mkGraph (Some [mkEdge None (Some "P161v") None None None None None]) None None None)
  = Ok [[" Bella Swan"; "  "; "Edward"; "Bella"; "Edward"]].
Proof. vm_compute. reflexivity. Qed.

Lemma string_length_append (a b : string) :
  String.length (a +:+ b) = (String.length a + String.length b)%nat.
Proof. induction a as [|c a IH]; simpl; [done|]. by rewrite IH. Qed.

(** An answer set in which every answer has more than seven characters,
    and so is not ["english"]. *)
Definition long_answers (answer_set : list string) : Prop :=
  Forall (λ a, (7 < String.length a)%nat) answer_set.

Lemma long_answers_not_english (answer_set : list string) :
  long_answers answer_set → str_in "english" answer_set = false.
Proof.
  intros Hlong. unfold str_in. apply bool_decide_eq_false. intros Hin.
  unfold long_answers in Hlong. rewrite Forall_forall in Hlong.
  apply Hlong in Hin. simpl in Hin. lia.
Qed.

Section PostProcessProperties.
Context (T : TextService).

Lemma language_body_prefix (edge : Edge) (answer_set : list string) :
  answer_set `prefix_of` fst (PostProcess.language_body T edge answer_set).
Proof.
  unfold PostProcess.language_body. simpl.
  destruct (forallb _ answer_set); [by apply prefix_app_r|done].
Qed.

Lemma language_body_appended_long (edge : Edge) (answer_set extra : list string) :
  snd (PostProcess.language_body T edge answer_set) = Some extra → long_answers extra.
Proof.
  unfold PostProcess.language_body. simpl.
  destruct (e_rightkbID edge) as [k|]; [|done].
  destruct (_ && _); [|done]. destruct (demonym_label T k) as [d|]; [|done].
  intros [= <-]. repeat constructor; rewrite string_length_append; simpl; lia.
Qed.

Lemma language_body_long (edge : Edge) (answer_set : list string) :
  long_answers answer_set →
  long_answers (fst (PostProcess.language_body T edge answer_set))
  ∧ snd (PostProcess.language_body T edge answer_set) = None.
Proof.
  intros Hlong.
  assert (long_answers (fst (PostProcess.language_body T edge answer_set))) as Hfst.
  { unfold PostProcess.language_body. simpl. destruct (forallb _ answer_set); [|done].
    apply Forall_app. split; [done|]. apply Forall_map.
    eapply Forall_impl; [exact Hlong|]. intros a Ha. simpl in Ha.
    rewrite string_length_append. lia. }
  split; [done|]. revert Hfst. unfold PostProcess.language_body. simpl. intros Hfst.
  rewrite (long_answers_not_english _ Hfst). by destruct (e_rightkbID edge).
Qed.

(** The loop over the answer sets, started at position [i] with the answer
    sets from position [k] on appended by the loop itself. *)
Lemma language_loop_returns (fuel i k : nat) (edge : Edge) (labels : list (list string)) :
  (∀ j s, (k ≤ j)%nat → labels !! j = Some s → long_answers s) →
  (length labels - i + (k - i) ≤ fuel)%nat →
  ∃ out,
    PostProcess.language_loop T fuel i edge labels = Ok out
    ∧ (length labels ≤ length out ≤ length labels + (k - i))%nat
    ∧ ∀ j s, labels !! j = Some s → ∃ s', out !! j = Some s' ∧ s `prefix_of` s'.
Proof.
  revert i labels. induction fuel as [|fuel IH]; intros i labels Hlong Hfuel.
  - exists labels. destruct (labels !! i) as [s|] eqn:Hi.
    { apply lookup_lt_Some in Hi. lia. }
    simpl. rewrite Hi. split_and!; [done|lia|lia|]. intros j s Hj. by exists s.
  - simpl. destruct (labels !! i) as [s|] eqn:Hi.
    2: { exists labels. split_and!; [done|lia|lia|]. intros j s Hj. by exists s. }
    pose proof (lookup_lt_Some _ _ _ Hi) as Hlt.
    pose proof (language_body_prefix edge s) as Hpre.
    set (r := PostProcess.language_body T edge s) in *.
    set (labels' := match snd r with
                    | Some extra => <[i := fst r]> labels ++ [extra]
                    | None => <[i := fst r]> labels
                    end).
    assert (Hlen : (length labels ≤ length labels' ≤ length labels + 1)%nat
                   ∧ ((k ≤ i)%nat → length labels' = length labels)).
    { unfold labels'. destruct (snd r) as [extra|] eqn:Hr.
      - rewrite length_app, length_insert. simpl. split; [lia|]. intros Hk.
        destruct (language_body_long edge s) as [_ Hnone]; [by eapply Hlong|].
        fold r in Hnone. congruence.
      - rewrite length_insert. split; [lia|done]. }
    assert (Hlong' : ∀ j s0, (k ≤ j)%nat → labels' !! j = Some s0 → long_answers s0).
    { intros j s0 Hk Hj. unfold labels' in Hj.
      assert (<[i := fst r]> labels !! j = Some s0 → long_answers s0) as Hins.
      { intros Hj'. destruct (decide (i = j)) as [<-|Hne].
        - rewrite list_lookup_insert_eq in Hj' by done. injection Hj' as <-.
          exact (proj1 (language_body_long edge s (Hlong i s Hk Hi))).
        - rewrite list_lookup_insert_ne in Hj' by done. by eapply Hlong. }
      destruct (snd r) as [extra|] eqn:Hr; [|by apply Hins].
      apply lookup_app_Some in Hj as [Hj|[_ Hj]]; [by apply Hins|].
      apply list_lookup_singleton_Some in Hj as [_ <-].
      by eapply language_body_appended_long. }
    assert (Hkeep : ∀ j s0, labels !! j = Some s0 →
                      ∃ s1, labels' !! j = Some s1 ∧ s0 `prefix_of` s1).
    { intros j s0 Hj.
      assert (∃ s1, <[i := fst r]> labels !! j = Some s1 ∧ s0 `prefix_of` s1)
        as (s1 & Hs1 & Hp).
      { destruct (decide (i = j)) as [<-|Hne].
        - exists (fst r). rewrite list_lookup_insert_eq by done.
          split; [done|]. congruence.
        - exists s0. by rewrite list_lookup_insert_ne. }
      exists s1. split; [|done]. unfold labels'.
      destruct (snd r); [|done]. by apply lookup_app_l_Some. }
    destruct (IH (S i) labels' Hlong') as (out & Hout & Hbound & Hpref).
    { destruct Hlen as [Hlen Hsame]. destruct (decide (k ≤ i)%nat) as [Hk|Hk].
      - rewrite (Hsame Hk). lia.
      - lia. }
    exists out. split; [exact Hout|]. split.
    + destruct Hlen as [Hlen Hsame]. destruct (decide (k ≤ i)%nat) as [Hk|Hk].
      * rewrite (Hsame Hk) in Hbound. lia.
      * lia.
    + intros j s0 Hj. destruct (Hkeep j s0 Hj) as (s1 & Hs1 & Hp1).
      destruct (Hpref j s1 Hs1) as (s2 & Hs2 & Hp2).
      exists s2. split; [done|]. by etrans.
Qed.

(** With fuel for twice as many steps as there are answer sets,
    [post_process_answers_given_graph] returns: the loop over the answer
    sets ends although it appends to the list that it iterates over.  The
    result has every answer set of the input at its position, extended at
    its end only, and at most as many new answer sets behind them. *)
Theorem post_process_answers_given_graph_keeps (fuel : nat)
    (model_answers_labels : list (list string)) (g : Graph) :
  (2 * length model_answers_labels ≤ fuel)%nat →
  ∃ out,
    PostProcess.post_process_answers_given_graph T fuel model_answers_labels g = Ok out
    ∧ (length model_answers_labels ≤ length out ≤ 2 * length model_answers_labels)%nat
    ∧ ∀ i answer_set,
        model_answers_labels !! i = Some answer_set →
        ∃ answer_set', out !! i = Some answer_set' ∧ answer_set `prefix_of` answer_set'.
Proof.
  intros Hfuel. unfold PostProcess.post_process_answers_given_graph.
  assert (∃ mid,
    match List.filter (λ e, bool_decide (base_relation e = "P37")) (get_edgeSet g) with
    | [] => Ok model_answers_labels
    | edge :: _ => PostProcess.language_loop T fuel 0 edge model_answers_labels
    end = Ok mid
    ∧ (length model_answers_labels ≤ length mid ≤ 2 * length model_answers_labels)%nat
    ∧ ∀ i s, model_answers_labels !! i = Some s →
        ∃ s', mid !! i = Some s' ∧ s `prefix_of` s') as (mid & -> & Hlen & Hpre).
  { destruct (List.filter _ (get_edgeSet g)) as [|edge rest].
    - exists model_answers_labels. split_and!; [done|lia|lia|].
      intros i s Hi. by exists s.
    - destruct (language_loop_returns fuel 0 (length model_answers_labels) edge
                  model_answers_labels) as (out & Hout & Hbound & Hp).
      + intros j s Hj Hs. apply lookup_lt_Some in Hs. lia.
      + lia.
      + exists out. split_and!; [done|lia|lia|done]. }
  simpl. eexists. split; [reflexivity|].
  destruct (List.filter _ (get_edgeSet g)) as [|edge rest]; [by split|].
  rewrite length_map. split; [done|]. intros i s Hi.
  destruct (Hpre i s Hi) as (s' & Hs' & Hp).
  exists (s' ++ omap (first_token T) s'). split.
  - change (map ?f mid) with (fmap (M:=list) f mid). by rewrite list_lookup_fmap, Hs'.
  - by apply prefix_app_r.
Qed.

(** For a graph without language relation (P37) and without cast relation
    (P175, P453, P161), [post_process_answers_given_graph] returns the
    answers as they are. *)
Theorem post_process_answers_given_graph_other_relations (fuel : nat)
    (model_answers_labels : list (list string)) (g : Graph) :
  Forall (λ e, base_relation e ∉ ["P37"; "P175"; "P453"; "P161"]) (get_edgeSet g) →
  PostProcess.post_process_answers_given_graph T fuel model_answers_labels g
  = Ok model_answers_labels.
Proof.
  intros Hnone. unfold PostProcess.post_process_answers_given_graph.
  assert (List.filter (λ e, bool_decide (base_relation e = "P37")) (get_edgeSet g) = [])
    as ->.
  { induction Hnone as [|e es He _ IH]; simpl; [done|].
    rewrite bool_decide_eq_false_2; [done|]. intros Heq. apply He. rewrite Heq. by left. }
  assert (List.filter (λ e, str_in (base_relation e) ["P175"; "P453"; "P161"])
                      (get_edgeSet g) = []) as ->.
  { induction Hnone as [|e es He _ IH]; simpl; [done|].
    unfold str_in at 1. rewrite bool_decide_eq_false_2; [done|].
    intros Hin. apply He. by right. }
  done.
Qed.

End PostProcessProperties.

Lemma post_process_answers_given_graph_keeps_witness :
  ∃ out,
    PostProcess.post_process_answers_given_graph PostProcess.text 2 [["eng"; "english"]]
      (mkGraph (Some [mkEdge None (Some "P37v") (Some "Q843") None None None None])
               None None None) = Ok out
    ∧ (1 ≤ length out ≤ 2)%nat.
Proof.
  destruct (post_process_answers_given_graph_keeps PostProcess.text 2 [["eng"; "english"]]
              (mkGraph (Some [mkEdge None (Some "P37v") (Some "Q843") None None None None])
                       None None None)) as (out & Hout & Hlen & _); [simpl; lia|].
  by exists out.
Defined.

Lemma post_process_answers_given_graph_other_relations_witness :
  PostProcess.post_process_answers_given_graph PostProcess.text 0 [["Q5"]]
    Toy.chosen_P1.1.1 = Ok [["Q5"]].
Proof.
  apply post_process_answers_given_graph_other_relations.
  repeat constructor. vm_compute. intros H. by repeat (apply elem_of_cons in H as [H|H]; [done|]);
    apply elem_of_nil in H.
Defined.

(** ** Pruning before the scorer *)

Lemma filter_res_elem {A} (f : A → Res bool) (l r : list A) (x : A) :
  filter_res f l = Ok r → x ∈ r → x ∈ l ∧ f x = Ok true.
Proof.
  revert r. induction l as [|y l IH]; intros r H Hx; simpl in H.
  - injection H as <-. by apply elem_of_nil in Hx.
  - apply Res_bind_inv_Ok in H as (b & Hb & H).
    apply Res_bind_inv_Ok in H as (r' & Hr' & [= <-]).
    destruct b.
    + apply elem_of_cons in Hx as [->|Hx]; [split; [by left|done]|].
      destruct (IH _ Hr' Hx) as [Hin Hf]. split; [by right|done].
    + destruct (IH _ Hr' Hx) as [Hin Hf]. split; [by right|done].
Qed.

Lemma direct_relations_of_elem (X : Externals) (graphs : list Graph)
    (direct_relations : list string) (g : Graph) :
  direct_relations_of X graphs = Ok direct_relations →
  g ∈ graphs →
  type_in (get_graph_last_edge X g) relation_types = true →
  not_qualifier (get_graph_last_edge X g) = Ok true →
  base_relation (get_graph_last_edge X g) ∈ direct_relations.
Proof.
  revert direct_relations. induction graphs as [|y l IH]; intros dr H Hg Hty Hq.
  { by apply elem_of_nil in Hg. }
  cbn [direct_relations_of] in H.
  apply Res_bind_inv_Ok in H as (b & Hb & H).
  apply Res_bind_inv_Ok in H as (r & Hr & [= <-]).
  apply elem_of_cons in Hg as [->|Hg].
  - rewrite Hty, Hq in Hb. injection Hb as <-. by left.
  - specialize (IH _ Hr Hg Hty Hq). destruct b; [by right|done].
Qed.

(** Among the graphs that [ground_with_model] hands to the scorer, a graph
    whose last edge has a qualifier relation (a [kbID] ending in [q] or [r])
    never has the base relation of a graph whose last edge is a direct,
    reverse or v-structure edge with another ending; and a graph whose last
    edge has a hop never has, as the pair of its hop relation and its type,
    the pair of relation and type of the last edge of such a graph. *)
Theorem candidates_for_model_pruned (X : Externals) (input_graphs : list Graph)
    (grounded_graphs : list Graph) (log : list Event) (g g' : Graph) :
  candidates_for_model X input_graphs = (Ok grounded_graphs, log) →
  g ∈ grounded_graphs → g' ∈ grounded_graphs →
  type_in (get_graph_last_edge X g') relation_types = true →
  (not_qualifier (get_graph_last_edge X g) = Ok false →
   not_qualifier (get_graph_last_edge X g') = Ok true →
   base_relation (get_graph_last_edge X g) ≠ base_relation (get_graph_last_edge X g'))
  ∧ (has_hop (get_graph_last_edge X g) = true →
     dash (mjoin (e_hopUp (get_graph_last_edge X g))) (e_type (get_graph_last_edge X g))
     ≠ dash (e_kbID (get_graph_last_edge X g')) (e_type (get_graph_last_edge X g'))
     ∧ dash (mjoin (e_hopDown (get_graph_last_edge X g)))
            (e_type (get_graph_last_edge X g))
       ≠ dash (e_kbID (get_graph_last_edge X g')) (e_type (get_graph_last_edge X g'))).
Proof.
  unfold candidates_for_model. intros H Hg Hg' Hty.
  apply M_bind_inv_Ok in H as (gs0 & l1 & l2 & _ & H & _).
  apply M_bind_inv_Ok in H as (gs1 & l3 & l4 & _ & H & _).
  set (decorated := if replace_entities_on (config X) then _ else _) in H.
  apply M_bind_inv_Ok in H as (dr & l5 & l6 & Hdr & H & _).
  injection Hdr as Hdr _.
  apply M_bind_inv_Ok in H as (mid & l7 & l8 & Hmid & H & _).
  injection Hmid as Hmid _. injection H as <- _.
  apply list_elem_of_In, filter_In in Hg as [Hg Hhop], Hg' as [Hg' _].
  apply list_elem_of_In in Hg, Hg'.
  split.
  - intros Hq Hq' Heq.
    destruct (filter_res_elem _ _ _ _ Hmid Hg) as [_ Hkept].
    destruct (filter_res_elem _ _ _ _ Hmid Hg') as [Hdec' _].
    simpl in Hkept. rewrite Hq in Hkept. simpl in Hkept. injection Hkept as Hkept.
    apply negb_true_iff, bool_decide_eq_false in Hkept. apply Hkept.
    rewrite Heq. by eapply direct_relations_of_elem.
  - intros Hh. unfold keeps_hop in Hhop. unfold has_hop in Hh.
    apply orb_true_iff in Hhop as [Hhop|Hhop].
    { apply andb_true_iff in Hhop as [H1 H2].
      apply negb_true_iff in H1, H2. by rewrite H1, H2 in Hh. }
    apply andb_true_iff in Hhop as [H1 H2].
    apply negb_true_iff, bool_decide_eq_false in H1, H2.
    assert (dash (e_kbID (get_graph_last_edge X g')) (e_type (get_graph_last_edge X g'))
            ∈ first_order_relations_of X mid) as Hin.
    { unfold first_order_relations_of.
      apply (list_elem_of_fmap_2
               (λ g, dash (e_kbID (get_graph_last_edge X g))
                          (e_type (get_graph_last_edge X g)))).
      apply list_elem_of_In, filter_In. split; [by apply list_elem_of_In|done]. }
    split; intros Heq; [apply H1|apply H2]; by rewrite Heq.
Qed.

(** The qualifier of the property that also occurs as a direct relation is
    pruned; the qualifier of the other property is kept. *)
Example candidates_for_model_prunes_qualifier :
  fst (candidates_for_model ToyQualifiers.world [Toy.skeleton])
  = Ok [Toy.grounded_with "P1v"; Toy.grounded_with "P2q"].
Proof. vm_compute. reflexivity. Qed.

Lemma candidates_for_model_pruned_witness :
  base_relation (get_graph_last_edge ToyQualifiers.world (Toy.grounded_with "P2q"))
  ≠ base_relation (get_graph_last_edge ToyQualifiers.world (Toy.grounded_with "P1v")).
Proof.
  assert (∃ log, candidates_for_model ToyQualifiers.world [Toy.skeleton]
                 = (Ok [Toy.grounded_with "P1v"; Toy.grounded_with "P2q"], log))
    as [log Hrun].
  { eexists. vm_compute. reflexivity. }
  refine (proj1 (candidates_for_model_pruned ToyQualifiers.world _ _ _
                   (Toy.grounded_with "P2q") (Toy.grounded_with "P1v") Hrun _ _ _) _ _).
  - by right; left.
  - by left.
  - reflexivity.
  - reflexivity.
  - reflexivity.
Defined.

(** ** Graph objects *)

Lemma edge_at_alter (σ : Heap.Store) (f : Edge → Edge) (r r' : nat) :
  f empty_edge = empty_edge →
  Heap.edge_at (Heap.write_edge r f σ) r'
  = if bool_decide (r' = r) then f (Heap.edge_at σ r') else Heap.edge_at σ r'.
Proof.
  intros Hf. unfold Heap.edge_at, Heap.write_edge. simpl.
  case_bool_decide as Hr.
  - subst r'. rewrite lookup_alter_eq. by destruct (Heap.edge_objs σ !! r).
  - by rewrite lookup_alter_ne.
Qed.

Lemma label_edges_objs (X : Externals) (refs : list nat) (σ : Heap.Store) :
  Heap.graph_objs (Heap.label_edges X refs σ) = Heap.graph_objs σ
  ∧ Heap.list_objs (Heap.label_edges X refs σ) = Heap.list_objs σ
  ∧ ∀ r, Heap.edge_objs (Heap.label_edges X refs σ) !! r
         = if bool_decide (r ∈ refs) then label_edge X <$> Heap.edge_objs σ !! r
           else Heap.edge_objs σ !! r.
Proof.
  revert σ. induction refs as [|r0 rest IH]; intros σ; cbn [Heap.label_edges].
  - by split_and!.
  - destruct (IH (Heap.write_edge r0 (label_edge X) σ)) as (Hg & Hl & He).
    split_and!; try done. intros r. rewrite He. simpl.
    destruct (decide (r = r0)) as [->|Hne].
    + rewrite lookup_alter_eq.
      rewrite (bool_decide_eq_true_2 (r0 ∈ r0 :: rest)) by (by left).
      case_bool_decide; [|done].
      destruct (Heap.edge_objs σ !! r0); simpl; [|done]. by rewrite label_edge_twice.
    + rewrite lookup_alter_ne by done.
      case_bool_decide as Hin.
      * rewrite bool_decide_eq_true_2; [done|]. by right.
      * rewrite bool_decide_eq_false_2; [done|].
        intros [?|?]%elem_of_cons; done.
Qed.

Lemma label_edges_edge_at (X : Externals) (refs : list nat) (σ : Heap.Store) (r : nat) :
  Heap.edge_at (Heap.label_edges X refs σ) r
  = if bool_decide (r ∈ refs) then label_edge X (Heap.edge_at σ r) else Heap.edge_at σ r.
Proof.
  destruct (label_edges_objs X refs σ) as (_ & _ & He).
  unfold Heap.edge_at. rewrite He. case_bool_decide; [|done].
  by destruct (Heap.edge_objs σ !! r).
Qed.

Lemma copy_edges_spec (refs rs : list nat) (σ σ' : Heap.Store) :
  Heap.copy_edges refs σ = (rs, σ') →
  (∀ r, r ∈ refs → is_Some (Heap.edge_objs σ !! r)) →
  Heap.graph_objs σ' = Heap.graph_objs σ
  ∧ Heap.list_objs σ' = Heap.list_objs σ
  ∧ NoDup rs
  ∧ (∀ r, r ∈ rs → Heap.edge_objs σ !! r = None ∧ is_Some (Heap.edge_objs σ' !! r))
  ∧ map (Heap.edge_at σ') rs = map (Heap.edge_at σ) refs
  ∧ (∀ r, r ∉ rs → Heap.edge_objs σ' !! r = Heap.edge_objs σ !! r).
Proof.
  revert rs σ σ'. induction refs as [|r0 rest IH]; intros rs σ σ' H Hex.
  - injection H as <- <-. split_and!; try done.
    + constructor.
    + intros r Hr. by apply elem_of_nil in Hr.
  - cbn [Heap.copy_edges] in H. unfold Heap.new_edge in H.
    set (r' := fresh (dom (Heap.edge_objs σ))) in *.
    set (σ1 := Heap.mkStore _ _ _) in H.
    destruct (Heap.copy_edges rest σ1) as [rs2 σ2] eqn:Hcopy.
    injection H as <- <-.
    assert (Heap.edge_objs σ !! r' = None) as Hfresh.
    { apply not_elem_of_dom, is_fresh. }
    destruct (IH rs2 σ1 σ2 Hcopy) as (Hg & Hl & Hnd & Hnew & Hmap & Hold).
    { intros r Hr. simpl. apply lookup_insert_is_Some'. right. apply Hex. by right. }
    assert (∀ r, r ∈ rs2 → r ≠ r') as Hne.
    { intros r Hr ->. destruct (Hnew r' Hr) as [Hn _]. simpl in Hn.
      by rewrite lookup_insert_eq in Hn. }
    split_and!; try done.
    + constructor; [|done]. intros Hin. by apply (Hne r' Hin).
    + intros r [->|Hr]%elem_of_cons.
      * split; [done|]. rewrite Hold; [|intros Hin; by apply (Hne r' Hin)].
        simpl. by rewrite lookup_insert_eq.
      * destruct (Hnew r Hr) as [Hn Hs]. split; [|done].
        simpl in Hn. by rewrite lookup_insert_ne in Hn by (symmetry; by apply Hne).
    + cbn [map]. f_equal.
      * unfold Heap.edge_at at 1. rewrite Hold; [|intros Hin; by apply (Hne r' Hin)].
        simpl. by rewrite lookup_insert_eq.
      * rewrite Hmap. apply map_ext_in. intros r Hr%list_elem_of_In.
        unfold Heap.edge_at. simpl. rewrite lookup_insert_ne; [done|].
        intros <-. destruct (Hex r') as [e He]; [by right|]. congruence.
    + intros r Hr. apply not_elem_of_cons in Hr as [Hr1 Hr2].
      rewrite Hold by done. simpl. by rewrite lookup_insert_ne.
Qed.

Lemma ground_edges_spec (grounding : gmap string string) (i : nat) (refs : list nat)
    (σ : Heap.Store) :
  NoDup refs →
  (∀ r, r ∈ refs → is_Some (Heap.edge_objs σ !! r)) →
  Heap.graph_objs (Heap.ground_edges grounding i refs σ) = Heap.graph_objs σ
  ∧ Heap.list_objs (Heap.ground_edges grounding i refs σ) = Heap.list_objs σ
  ∧ (∀ r, r ∉ refs →
          Heap.edge_objs (Heap.ground_edges grounding i refs σ) !! r = Heap.edge_objs σ !! r)
  ∧ map (Heap.edge_at (Heap.ground_edges grounding i refs σ)) refs
    = imap (λ k, ground_edge grounding (i + k)) (map (Heap.edge_at σ) refs).
Proof.
  revert i σ. induction refs as [|r0 rest IH]; intros i σ Hnd Hex.
  - by split_and!.
  - cbn [Heap.ground_edges]. apply NoDup_cons in Hnd as [Hr0 Hnd].
    set (σ1 := Heap.write_edge r0 (ground_edge grounding i) σ).
    destruct (IH (S i) σ1 Hnd) as (Hg & Hl & Hold & Hmap).
    { intros r Hr. simpl. destruct (decide (r = r0)) as [->|Hne].
      - rewrite lookup_alter_eq. apply fmap_is_Some, Hex. by left.
      - rewrite lookup_alter_ne by done. apply Hex. by right. }
    split_and!; try done.
    + intros r Hr. apply not_elem_of_cons in Hr as [Hr1 Hr2].
      rewrite Hold by done. simpl. by rewrite lookup_alter_ne.
    + cbn [map imap]. f_equal.
      * unfold Heap.edge_at at 1. rewrite Hold by done. simpl.
        rewrite lookup_alter_eq, Nat.add_0_r. unfold Heap.edge_at.
        destruct (Hex r0) as [e ->]; [by left|]. done.
      * rewrite Hmap.
        assert (map (Heap.edge_at σ1) rest = map (Heap.edge_at σ) rest) as ->.
        { apply map_ext_in. intros r Hr%list_elem_of_In.
          unfold Heap.edge_at. simpl. rewrite lookup_alter_ne; [done|].
          intros <-. done. }
        apply imap_ext. intros k e _. simpl. f_equal. lia.
Qed.

(** A graph has the same value in two stores that have the same graph object
    at its reference and the same objects at the references it holds. *)
Lemma graph_value_frame (σ σ' : Heap.Store) (k : nat) :
  Heap.graph_objs σ' !! k = Heap.graph_objs σ !! k →
  (∀ r, r ∈ Heap.edge_refs σ k → Heap.edge_objs σ' !! r = Heap.edge_objs σ !! r) →
  (∀ a, Heap.ListEntity a ∈ Heap.entity_refs σ k →
        Heap.list_objs σ' !! a = Heap.list_objs σ !! a) →
  Heap.graph_value σ' k = Heap.graph_value σ k.
Proof.
  intros Hg He Hl. unfold Heap.graph_value, Heap.edge_refs, Heap.entity_refs in *.
  unfold Heap.graph_at in *. rewrite Hg.
  destruct (Heap.graph_objs σ !! k) as [o|]; [|done]. simpl in *.
  f_equal.
  - destruct (Heap.o_edgeSet o) as [refs|]; [|done]. simpl in *. f_equal.
    apply map_ext_in. intros r Hr%list_elem_of_In. unfold Heap.edge_at. by rewrite He.
  - destruct (Heap.o_entities o) as [ents|]; [|done]. simpl in *. f_equal.
    apply map_ext_in. intros [e|a] Hr%list_elem_of_In; [done|]. simpl. by rewrite Hl.
Qed.

Lemma apply_grounding_ref_spec (σ σ' : Heap.Store) (l l' : nat)
    (grounding : gmap string string) :
  (∀ r, r ∈ Heap.edge_refs σ l → is_Some (Heap.edge_objs σ !! r)) →
  Heap.apply_grounding_ref l grounding σ = (l', σ') →
  Heap.graph_objs σ !! l' = None
  ∧ (∀ r, r ∈ Heap.edge_refs σ' l' → Heap.edge_objs σ !! r = None)
  ∧ Heap.graph_value σ' l' = apply_grounding (Heap.graph_value σ l) grounding
  ∧ (∀ k, k ≠ l' → Heap.graph_objs σ' !! k = Heap.graph_objs σ !! k)
  ∧ (∀ r, r ∉ Heap.edge_refs σ' l' → Heap.edge_objs σ' !! r = Heap.edge_objs σ !! r)
  ∧ Heap.list_objs σ' = Heap.list_objs σ.
Proof.
  intros Hex H. unfold Heap.apply_grounding_ref, Heap.copy_graph_ref in H.
  destruct (Heap.copy_edges _ σ) as [rs σ1] eqn:Hcopy.
  destruct (copy_edges_spec _ _ _ _ Hcopy Hex) as (Hg1 & Hl1 & Hnd & Hnew & Hmap & Hold).
  unfold Heap.new_graph in H. rewrite Hg1 in H.
  set (new := fresh (dom (Heap.graph_objs σ))) in *.
  set (σ2 := Heap.mkStore _ _ _) in H.
  assert (Heap.edge_refs σ2 new = rs) as Hrefs.
  { unfold Heap.edge_refs, Heap.graph_at. simpl. by rewrite lookup_insert_eq. }
  rewrite Hrefs in H. injection H as <- <-.
  destruct (ground_edges_spec grounding 0 rs σ2 Hnd) as (Hg & Hl & Hframe & Hground).
  { intros r Hr. by apply Hnew. }
  assert (Heap.edge_refs (Heap.ground_edges grounding 0 rs σ2) new = rs) as Hrefs'.
  { unfold Heap.edge_refs, Heap.graph_at. rewrite Hg. simpl. by rewrite lookup_insert_eq. }
  rewrite Hrefs'. split_and!.
  - apply not_elem_of_dom, is_fresh.
  - intros r Hr. by apply Hnew.
  - unfold Heap.graph_value, Heap.graph_at. rewrite Hg. simpl. rewrite lookup_insert_eq.
    simpl. unfold apply_grounding, copy_graph, set_edgeSet. simpl.
    fold (Heap.graph_at σ l). f_equal.
    + f_equal. rewrite Hground. unfold get_edgeSet. simpl.
      assert (map (Heap.edge_at σ2) rs = map (Heap.edge_at σ1) rs) as -> by done.
      rewrite Hmap. by destruct (Heap.o_edgeSet (Heap.graph_at σ l)).
    + f_equal. unfold get_entities. simpl.
      assert (∀ r, Heap.entity_value (Heap.ground_edges grounding 0 rs σ2) r
                   = Heap.entity_value σ r) as Hent.
      { intros [e|a]; [done|]. simpl. by rewrite Hl, <- Hl1. }
      destruct (Heap.o_entities (Heap.graph_at σ l)) as [ents|]; simpl; [|done].
      apply map_ext. intros r. apply Hent.
  - intros k Hk. rewrite Hg. simpl. by rewrite lookup_insert_ne.
  - intros r Hr. rewrite Hframe by done. simpl. by apply Hold.
  - by rewrite Hl.
Qed.

(** *** What the loops of the entity linking write *)

Lemma writes_own_lists_refl (entities : list Heap.Work) (σ : Heap.Store)
    (r : Res (list Heap.Work)) :
  (∀ entities', r = Ok entities' → entities' = entities) →
  writes_own_lists entities σ (r, σ).
Proof. intros H. split_and!; try done. simpl. by intros ? ->%H. Qed.

Lemma given_elem (entities entities' : list Heap.Work) (r : Heap.EntityRef) :
  map given_of entities' = map given_of entities →
  Heap.Given r ∈ entities' → Heap.Given r ∈ entities.
Proof.
  intros Hmap Hin.
  assert (Some r ∈ map given_of entities) as Hr.
  { rewrite <- Hmap. by apply (list_elem_of_fmap_2 given_of _ (Heap.Given r)). }
  apply list_elem_of_fmap in Hr as ([e|r'] & Heq & Hw); [done|].
  by injection Heq as ->.
Qed.

Lemma writes_own_lists_trans (entities entities1 : list Heap.Work) (σ σ1 : Heap.Store)
    (out : Res (list Heap.Work) * Heap.Store) :
  writes_own_lists entities σ (Ok entities1, σ1) →
  writes_own_lists entities1 σ1 out →
  writes_own_lists entities σ out.
Proof.
  intros (Hg1 & He1 & Hl1 & Hs1) (Hg2 & He2 & Hl2 & Hs2). simpl in *.
  specialize (Hs1 _ eq_refl).
  split_and!; try congruence.
  - intros a Ha. rewrite Hl2, Hl1; [done..|].
    intros Hin. apply Ha. by eapply given_elem.
  - intros entities' Hout. by rewrite (Hs2 _ Hout).
Qed.

Lemma assign_links_writes (j : nat) (links : list string) (entities : list Heap.Work)
    (σ : Heap.Store) :
  writes_own_lists entities σ (Heap.assign_links j links entities σ).
Proof.
  unfold Heap.assign_links.
  destruct (entities !! j) as [[e|[e|a]]|] eqn:Hj.
  - split_and!; try done. simpl. intros ? [= <-].
    change (map given_of) with (fmap (M:=list) given_of).
    rewrite list_fmap_insert. simpl. apply list_insert_id.
    by rewrite list_lookup_fmap, Hj.
  - by apply writes_own_lists_refl.
  - split_and!; try done; simpl.
    + intros a' Ha'. rewrite lookup_alter_ne; [done|].
      intros <-. apply Ha'. by eapply list_elem_of_lookup_2.
    + by intros ? [= <-].
  - apply writes_own_lists_refl. by intros ? [= <-].
Qed.

Lemma add_character_linkings_ref_writes (X : Externals) (films : list string) (j : nat)
    (entities : list Heap.Work) (σ : Heap.Store) :
  writes_own_lists entities σ (Heap.add_character_linkings_ref X films j entities σ).
Proof.
  revert entities σ. induction films as [|film_id rest IH]; intros entities σ;
    cbn [Heap.add_character_linkings_ref].
  - apply writes_own_lists_refl. by intros ? [= <-].
  - destruct (entities !! j) as [w|]; [|apply writes_own_lists_refl; by intros ? [= <-]].
    match goal with |- context [Heap.assign_links j ?links entities σ] =>
      pose proof (assign_links_writes j links entities σ) as Hw;
      destruct (Heap.assign_links j links entities σ) as [[entities1| |] σ1]
    end; [|done..].
    eapply writes_own_lists_trans; [exact Hw|apply IH].
Qed.

Lemma link_characters_ref_writes (X : Externals) (positions : list nat)
    (entities : list Heap.Work) (σ : Heap.Store) :
  writes_own_lists entities σ (Heap.link_characters_ref X positions entities σ).
Proof.
  revert entities σ. induction positions as [|j rest IH]; intros entities σ;
    cbn [Heap.link_characters_ref].
  - apply writes_own_lists_refl. by intros ? [= <-].
  - destruct (entities !! j) as [w|]; [|apply writes_own_lists_refl; by intros ? [= <-]].
    destruct (film_ids _ _) as [films| |]; [|by apply writes_own_lists_refl..].
    pose proof (add_character_linkings_ref_writes X films j entities σ) as Hw.
    destruct (Heap.add_character_linkings_ref X films j entities σ)
      as [[entities1| |] σ1]; [|done..].
    eapply writes_own_lists_trans; [exact Hw|apply IH].
Qed.

(** *** Entities given as tuples *)

Lemma add_character_linkings_ref_tuples (X : Externals) (films : list string) (j : nat)
    (entities : list Heap.Work) (σ : Heap.Store) (w : Heap.Work) :
  entities !! j = Some w → is_tuple_or_new w →
  match add_character_linkings X films (Heap.view σ w) with
  | Ok e' =>
    ∃ w', Heap.add_character_linkings_ref X films j entities σ
          = (Ok (<[j := w']> entities), σ)
          ∧ Heap.view σ w' = e' ∧ is_tuple_or_new w'
  | Raise e => Heap.add_character_linkings_ref X films j entities σ = (Raise e, σ)
  | OutOfFuel => Heap.add_character_linkings_ref X films j entities σ = (OutOfFuel, σ)
  end.
Proof.
  revert entities w. induction films as [|film_id rest IH]; intros entities w Hj Hw.
  - simpl. exists w. by rewrite list_insert_id.
  - cbn [add_character_linkings Heap.add_character_linkings_ref]. rewrite Hj.
    unfold Heap.assign_links. rewrite Hj.
    destruct w as [e|[e|a]]; [| |by destruct (Hw a)].
    + cbn [Heap.view Heap.work_is_list w_mutable Heap.work_value w_span w_links w_tag].
      set (e2 := mkEntity _ _ _).
      specialize (IH (<[j := Heap.Fresh e2]> entities) (Heap.Fresh e2)).
      assert (j < length entities)%nat as Hlt by by eapply lookup_lt_Some.
      rewrite list_lookup_insert_eq in IH by done.
      specialize (IH eq_refl ltac:(done)).
      change (Heap.view σ (Heap.Fresh e2))
        with (mkWEntity true (ent_span e) (ent_tag e) (ent_links e2)) in IH.
      destruct (add_character_linkings X rest _) as [e'| |]; [|done..].
      destruct IH as (w' & Hrun & Hview & Hw').
      exists w'. by rewrite Hrun, list_insert_insert_eq.
    + done.
Qed.

Lemma link_characters_ref_tuples (X : Externals) (positions : list nat)
    (entities : list Heap.Work) (σ : Heap.Store) :
  Forall is_tuple_or_new entities →
  match link_characters X positions (map (Heap.view σ) entities) with
  | Ok es =>
    ∃ entities', Heap.link_characters_ref X positions entities σ = (Ok entities', σ)
                 ∧ map (Heap.view σ) entities' = es
  | Raise e => Heap.link_characters_ref X positions entities σ = (Raise e, σ)
  | OutOfFuel => Heap.link_characters_ref X positions entities σ = (OutOfFuel, σ)
  end.
Proof.
  revert entities. induction positions as [|j rest IH]; intros entities Hall.
  - simpl. by exists entities.
  - cbn [link_characters Heap.link_characters_ref].
    change (map (Heap.view σ) entities) with (Heap.view σ <$> entities).
    rewrite list_lookup_fmap.
    destruct (entities !! j) as [w|] eqn:Hj; simpl; [|by exists entities].
    change (Heap.view σ <$> entities) with (map (Heap.view σ) entities).
    destruct (film_ids (Heap.view σ w) (map (Heap.view σ) entities)) as [films| |];
      simpl; [|done..].
    pose proof (add_character_linkings_ref_tuples X films j entities σ w Hj) as Hsim.
    rewrite Forall_lookup in Hall. specialize (Hsim (Hall j w Hj)).
    destruct (add_character_linkings X films (Heap.view σ w)) as [e'| |]; simpl;
      [|by rewrite Hsim..].
    destruct Hsim as (w' & -> & <- & Hw').
    specialize (IH (<[j := w']> entities)).
    change (map (Heap.view σ) (<[j := w']> entities))
      with (Heap.view σ <$> <[j := w']> entities) in IH.
    rewrite list_fmap_insert in IH. apply IH.
    apply Forall_lookup. intros k x Hk.
    destruct (decide (k = j)) as [->|Hne].
    + rewrite list_lookup_insert_eq in Hk by by eapply lookup_lt_Some.
      by injection Hk as <-.
    + rewrite list_lookup_insert_ne in Hk by done. by eapply Hall.
Qed.

Lemma positions_from_map {A B} (f : A → B) (p : B → bool) (i : nat) (l : list A) :
  positions_from (λ x, p (f x)) i l = positions_from p i (map f l).
Proof.
  revert i. induction l as [|x l IH]; intros i; [done|]. simpl. by rewrite IH.
Qed.

Lemma forallb_map_comp {A B} (f : A → B) (p : B → bool) (l : list A) :
  forallb p (map f l) = forallb (λ x, p (f x)) l.
Proof. induction l as [|x l IH]; [done|]. simpl. by rewrite IH. Qed.

Lemma to_tuple_view (σ : Heap.Store) (w : Heap.Work) :
  to_tuple (Heap.view σ w) = Heap.work_value σ w.
Proof. unfold to_tuple, Heap.view. simpl. by destruct (Heap.work_value σ w). Qed.

Lemma link_entities_in_graph_ref_tuples (X : Externals) (l : nat) (σ : Heap.Store) :
  Forall is_tuple (Heap.entity_refs σ l) →
  match link_entities_in_graph X (Heap.graph_value σ l) with
  | Ok g' =>
    ∃ σ', Heap.link_entities_in_graph_ref X l σ = (Ok l, σ')
          ∧ Heap.graph_value σ' l = g'
          ∧ Heap.edge_objs σ' = Heap.edge_objs σ
          ∧ Heap.list_objs σ' = Heap.list_objs σ
          ∧ ∀ k, k ≠ l → Heap.graph_objs σ' !! k = Heap.graph_objs σ !! k
  | Raise e => Heap.link_entities_in_graph_ref X l σ = (Raise e, σ)
  | OutOfFuel => Heap.link_entities_in_graph_ref X l σ = (OutOfFuel, σ)
  end.
Proof.
  intros Htuples.
  unfold link_entities_in_graph, Heap.link_entities_in_graph_ref.
  assert (get_entities (Heap.graph_value σ l)
          = map (Heap.entity_value σ) (Heap.entity_refs σ l)) as Hents.
  { unfold get_entities, Heap.graph_value, Heap.entity_refs. simpl.
    by destruct (Heap.o_entities (Heap.graph_at σ l)). }
  rewrite Hents, forallb_map_comp.
  destruct (forallb _ (Heap.entity_refs σ l)) eqn:Hall.
  { simpl. by exists σ. }
  assert (map (link_one X) (map (Heap.entity_value σ) (Heap.entity_refs σ l))
          = map (Heap.view σ) (map (Heap.link_one_ref X σ) (Heap.entity_refs σ l))) as ->.
  { rewrite !map_map. apply map_ext_in. intros r Hr%list_elem_of_In.
    rewrite Forall_forall in Htuples. destruct (Htuples r Hr) as [e ->].
    unfold link_one, Heap.link_one_ref. simpl.
    by destruct (bool_decide (ent_links e = None) && negb (bool_decide (ent_tag e = "CD"))). }
  set (entities := map (Heap.link_one_ref X σ) (Heap.entity_refs σ l)).
  assert (Forall is_tuple_or_new entities) as Hnew.
  { apply Forall_forall. intros w Hw. apply list_elem_of_fmap in Hw as (r & -> & Hr).
    rewrite Forall_forall in Htuples. destruct (Htuples r Hr) as [e ->].
    unfold Heap.link_one_ref. simpl. by destruct (_ && _). }
  assert (has_v_structure_marker X (Heap.graph_value σ l)
          = existsb (λ w, str_in w (default [] (Heap.o_tokens (Heap.graph_at σ l))))
                    (v_structure_markers X)) as -> by done.
  rewrite (positions_from_map (Heap.view σ) is_character).
  assert (∀ ws,
    Heap.graph_value
      (Heap.write_graph l
         (Heap.assign_entities (map (λ w, Heap.TupleEntity (Heap.work_value σ w)) ws)) σ) l
    = set_entities (map to_tuple (map (Heap.view σ) ws)) (Heap.graph_value σ l)) as Hfinal.
  { intros ws. unfold Heap.graph_value, Heap.graph_at, Heap.write_graph. simpl.
    rewrite lookup_alter_eq.
    destruct (Heap.graph_objs σ !! l) as [o|] eqn:Ho.
    - simpl. unfold set_entities. simpl. f_equal. f_equal.
      rewrite !map_map. apply map_ext. intros w. simpl. by rewrite to_tuple_view.
    - exfalso. unfold Heap.entity_refs, Heap.graph_at in Hall. by rewrite Ho in Hall. }
  destruct (existsb _ (v_structure_markers X)).
  - pose proof (link_characters_ref_tuples X
                  (positions_from is_character 0 (map (Heap.view σ) entities))
                  entities σ Hnew) as Hsim.
    destruct (link_characters X _ (map (Heap.view σ) entities)) as [es| |]; simpl;
      [|by rewrite Hsim..].
    destruct Hsim as (entities' & -> & <-).
    eexists. split; [reflexivity|]. split; [apply Hfinal|].
    split_and!; try done. intros k Hk. simpl. by rewrite lookup_alter_ne.
  - simpl. eexists. split; [reflexivity|]. split; [apply Hfinal|].
    split_and!; try done. intros k Hk. simpl. by rewrite lookup_alter_ne.
Qed.

Lemma link_entities_in_graph_ref_frame (X : Externals) (l : nat) (σ : Heap.Store) :
  Heap.edge_objs (snd (Heap.link_entities_in_graph_ref X l σ)) = Heap.edge_objs σ
  ∧ (∀ k, k ≠ l →
          Heap.graph_objs (snd (Heap.link_entities_in_graph_ref X l σ)) !! k
          = Heap.graph_objs σ !! k)
  ∧ (∀ a, Heap.ListEntity a ∉ Heap.entity_refs σ l →
          Heap.list_objs (snd (Heap.link_entities_in_graph_ref X l σ)) !! a
          = Heap.list_objs σ !! a)
  ∧ (∀ l', fst (Heap.link_entities_in_graph_ref X l σ) = Ok l' →
           l' = l
           ∧ Heap.edge_refs (snd (Heap.link_entities_in_graph_ref X l σ)) l
             = Heap.edge_refs σ l
           ∧ (snd (Heap.link_entities_in_graph_ref X l σ) = σ
              ∨ Forall is_tuple
                  (Heap.entity_refs (snd (Heap.link_entities_in_graph_ref X l σ)) l)))
  ∧ (∀ e, fst (Heap.link_entities_in_graph_ref X l σ) = Raise e →
          Heap.graph_objs (snd (Heap.link_entities_in_graph_ref X l σ)) = Heap.graph_objs σ).
Proof.
  unfold Heap.link_entities_in_graph_ref.
  destruct (forallb _ (Heap.entity_refs σ l)) eqn:Hall.
  { simpl. split_and!; try done. intros l' [= <-]. split_and!; try done. by left. }
  set (entities := map (Heap.link_one_ref X σ) (Heap.entity_refs σ l)).
  assert (∀ a, Heap.ListEntity a ∉ Heap.entity_refs σ l →
               Heap.Given (Heap.ListEntity a) ∉ entities) as Hgiven.
  { intros a Ha Hin. apply Ha.
    apply list_elem_of_fmap in Hin as (r & Hr & Hin). unfold Heap.link_one_ref in Hr.
    destruct (_ && _); [done|]. by injection Hr as <-. }
  assert (∀ out, writes_own_lists entities σ out →
    let r := match out with
             | (Ok entities, σ) =>
               (Ok l, Heap.write_graph l
                        (Heap.assign_entities
                           (map (λ w, Heap.TupleEntity (Heap.work_value σ w)) entities)) σ)
             | (Raise e, σ) => (Raise e, σ)
             | (OutOfFuel, σ) => (OutOfFuel, σ)
             end in
    Heap.edge_objs (snd r) = Heap.edge_objs σ
    ∧ (∀ k, k ≠ l → Heap.graph_objs (snd r) !! k = Heap.graph_objs σ !! k)
    ∧ (∀ a, Heap.ListEntity a ∉ Heap.entity_refs σ l →
            Heap.list_objs (snd r) !! a = Heap.list_objs σ !! a)
    ∧ (∀ l', fst r = Ok l' →
             l' = l ∧ Heap.edge_refs (snd r) l = Heap.edge_refs σ l
             ∧ (snd r = σ ∨ Forall is_tuple (Heap.entity_refs (snd r) l)))
    ∧ (∀ e, fst r = Raise e → Heap.graph_objs (snd r) = Heap.graph_objs σ)) as Hout.
  { intros [[ws| |] σ1] (Hg & He & Hl & _); simpl in *.
    - split_and!; try done.
      + intros k Hk. by rewrite lookup_alter_ne, Hg.
      + intros a Ha. by apply Hl, Hgiven.
      + intros l' [= <-]. split; [done|].
        unfold Heap.entity_refs, Heap.edge_refs, Heap.graph_at. simpl.
        rewrite lookup_alter_eq, Hg.
        destruct (Heap.graph_objs σ !! l) as [o|] eqn:Ho; simpl.
        * split; [done|]. right. apply Forall_forall. intros r Hr.
          apply list_elem_of_fmap in Hr as (w & -> & _). by eexists.
        * split; [done|]. right. constructor.
    - split_and!; try done.
      + intros k Hk. by rewrite Hg.
      + intros a Ha. by apply Hl, Hgiven.
    - split_and!; try done.
      + intros k Hk. by rewrite Hg.
      + intros a Ha. by apply Hl, Hgiven. }
  destruct (existsb _ (v_structure_markers X)).
  - exact (Hout _ (link_characters_ref_writes X _ entities σ)).
  - refine (Hout (Ok entities, σ) _). apply writes_own_lists_refl. by intros ? [= <-].
Qed.

(** C7, as the claim states it, fails.  [add_canonical_labels_to_entities]
    returns the reference it was given, and the graph behind it has changed
    (its edge now carries a canonical label); [link_entities_in_graph]
    likewise returns its argument with the entities written into it.  And a
    graph that another reference reaches is changed: the graph that
    [approximate_groundings] returns for a graph with a grounded and a free
    edge holds the grounded edge object of its input, so that labelling the
    new graph labels the edge of the input graph. *)
Lemma graph_transformations_write_their_input :
  (∃ σ', Heap.add_canonical_labels_to_entities_ref Toy.world 0 ToyHeap.store = (0%nat, σ')
         ∧ Heap.graph_value ToyHeap.store 0 = Toy.skeleton
         ∧ Heap.graph_value σ' 0
           = mkGraph (Some [Toy.labelled_edge_free]) (Some []) None None)
  ∧ (∃ σ', Heap.link_entities_in_graph_ref Toy.world 1 ToyHeap.store = (Ok 1%nat, σ')
           ∧ Heap.graph_value ToyHeap.store 1 = Toy.norway
           ∧ Heap.graph_value σ' 1 = Toy.norway_linked)
  ∧ (∃ new_g σ1 σ2,
       Heap.approximate_groundings_ref Toy.world ToyKB.service 0 ToyHeap.two_edges
       = ([new_g], σ1)
       ∧ new_g ≠ 0%nat
       ∧ Heap.edge_refs σ1 new_g !! 0%nat = Heap.edge_refs σ1 0 !! 0%nat
       ∧ Heap.add_canonical_labels_to_entities_ref Toy.world new_g σ1 = (new_g, σ2)
       ∧ get_edgeSet (Heap.graph_value σ1 0) !! 0%nat = Some ToyHeap.grounded_edge
       ∧ get_edgeSet (Heap.graph_value σ2 0) !! 0%nat
         = Some (set_canonical_right "label" ToyHeap.grounded_edge)).
Proof.
  split_and!.
  - eexists. split; [reflexivity|]. split; by vm_compute.
  - eexists. split; [by vm_compute|]. split; by vm_compute.
  - do 3 eexists. split; [by vm_compute|]. split; [done|]. split; [by vm_compute|].
    split; [reflexivity|]. split; by vm_compute.
Qed.

(** An entity that the caller gives as a list is written in place: the
    linked character Bella, a list, gets its character linkings, and the
    graph gets the new tuples.  This happens also in a call that raises
    afterwards: with the linked character Edward, a tuple, behind Bella, the
    list of Bella is written before Edward raises [TypeError]. *)
Example link_entities_in_graph_writes_list_entity :
  (∃ σ', Heap.link_entities_in_graph_ref Toy.world 0 ToyHeap.bella_alone = (Ok 0%nat, σ')
         ∧ Heap.list_objs ToyHeap.bella_alone !! 0%nat
           = Some (mkEntity ["Bella"] "PERSON" (Some ["Q8"]))
         ∧ Heap.list_objs σ' !! 0%nat
           = Some (mkEntity ["Bella"] "PERSON" (Some ["Q9"; "Q9"; "Q8"]))
         ∧ Heap.entity_refs σ' 0
           = [Heap.TupleEntity (mkEntity ["Bella"] "PERSON" (Some ["Q9"; "Q9"; "Q8"]));
              Heap.TupleEntity (mkEntity ["Twilight"] "NNP" (Some ["Q1"; "Q2"]))])
  ∧ (∃ σ', Heap.link_entities_in_graph_ref Toy.world 0 ToyHeap.bella_as_list
           = (Raise TypeError, σ')
           ∧ Heap.list_objs ToyHeap.bella_as_list !! 0%nat
             = Some (mkEntity ["Bella"] "PERSON" (Some ["Q8"]))
           ∧ Heap.list_objs σ' !! 0%nat
             = Some (mkEntity ["Bella"] "PERSON" (Some ["Q9"; "Q9"; "Q9"]))
           ∧ Heap.graph_objs σ' = Heap.graph_objs ToyHeap.bella_as_list).
Proof.
  split; eexists; (split; [by vm_compute|]); repeat split; by vm_compute.
Qed.

Lemma add_canonical_labels_to_entities_ref_value (X : Externals) (σ : Heap.Store) (l k : nat) :
  Heap.graph_value (Heap.label_edges X (Heap.edge_refs σ l) σ) k
  = set_edgeSet
      (map (λ r, if bool_decide (r ∈ Heap.edge_refs σ l)
                 then label_edge X (Heap.edge_at σ r) else Heap.edge_at σ r)
       <$> Heap.o_edgeSet (Heap.graph_at σ k))
      (Heap.graph_value σ k).
Proof.
  destruct (label_edges_objs X (Heap.edge_refs σ l) σ) as (Hg & Hl & _).
  unfold Heap.graph_value, Heap.graph_at, set_edgeSet. rewrite Hg. simpl. f_equal.
  - destruct (Heap.o_edgeSet _) as [refs|]; [|done]. simpl. f_equal.
    apply map_ext. intros r. apply label_edges_edge_at.
  - destruct (Heap.o_entities _) as [ents|]; [|done]. simpl. f_equal.
    apply map_ext. intros [e|a]; [done|]. simpl. by rewrite Hl.
Qed.

(** C7 (amended).  [apply_grounding] works on a copy: it returns a new graph
    object whose edges are new edge objects, with the value that the grounding
    gives, and every object that the store held before, the input graph among
    them, is as it was.  [add_canonical_labels_to_entities] and
    [link_entities_in_graph] make no copy: each returns the reference it was
    given.  [add_canonical_labels_to_entities] writes the edge objects of its
    argument and nothing else: a graph that holds none of them has the value
    it had, and a graph that holds one of them sees its label.
    [link_entities_in_graph] writes no edge object and no graph object but
    its argument, to which it assigns a list of tuples when it returns
    (unless it returns at once, writing nothing), and not when it raises; of
    the entity lists it can write only those that its argument holds.  When
    the entities of the argument are tuples, no entity list is written, the
    argument gets the value that the function computes from its value, every
    other graph has the value it had, and a call that raises writes nothing. *)
Theorem graph_objects_frame (X : Externals) (σ : Heap.Store) (l : nat) :
  ((∀ r, r ∈ Heap.edge_refs σ l → is_Some (Heap.edge_objs σ !! r)) →
   ∀ grounding,
     ∃ l' σ',
       Heap.apply_grounding_ref l grounding σ = (l', σ')
       ∧ Heap.graph_objs σ !! l' = None
       ∧ (∀ r, r ∈ Heap.edge_refs σ' l' → Heap.edge_objs σ !! r = None)
       ∧ Heap.graph_value σ' l' = apply_grounding (Heap.graph_value σ l) grounding
       ∧ (∀ k o, Heap.graph_objs σ !! k = Some o → Heap.graph_objs σ' !! k = Some o)
       ∧ (∀ r e, Heap.edge_objs σ !! r = Some e → Heap.edge_objs σ' !! r = Some e)
       ∧ Heap.list_objs σ' = Heap.list_objs σ
       ∧ ∀ k, is_Some (Heap.graph_objs σ !! k) →
              (∀ r, r ∈ Heap.edge_refs σ k → is_Some (Heap.edge_objs σ !! r)) →
              Heap.graph_value σ' k = Heap.graph_value σ k)
  ∧ (∃ σ',
       Heap.add_canonical_labels_to_entities_ref X l σ = (l, σ')
       ∧ Heap.graph_objs σ' = Heap.graph_objs σ
       ∧ Heap.list_objs σ' = Heap.list_objs σ
       ∧ (∀ r, Heap.edge_at σ' r
               = if bool_decide (r ∈ Heap.edge_refs σ l)
                 then label_edge X (Heap.edge_at σ r) else Heap.edge_at σ r)
       ∧ Heap.graph_value σ' l = add_canonical_labels_to_entities X (Heap.graph_value σ l)
       ∧ (∀ k, (∀ r, r ∈ Heap.edge_refs σ k → r ∉ Heap.edge_refs σ l) →
               Heap.graph_value σ' k = Heap.graph_value σ k)
       ∧ (∀ k i r, Heap.edge_refs σ k !! i = Some r → r ∈ Heap.edge_refs σ l →
                   get_edgeSet (Heap.graph_value σ' k) !! i
                   = Some (label_edge X (Heap.edge_at σ r))))
  ∧ (∃ res σ',
       Heap.link_entities_in_graph_ref X l σ = (res, σ')
       ∧ Heap.edge_objs σ' = Heap.edge_objs σ
       ∧ (∀ k, k ≠ l → Heap.graph_objs σ' !! k = Heap.graph_objs σ !! k)
       ∧ (∀ a, Heap.ListEntity a ∉ Heap.entity_refs σ l →
               Heap.list_objs σ' !! a = Heap.list_objs σ !! a)
       ∧ (∀ l', res = Ok l' →
                l' = l ∧ Heap.edge_refs σ' l = Heap.edge_refs σ l
                ∧ (σ' = σ ∨ Forall is_tuple (Heap.entity_refs σ' l)))
       ∧ (∀ e, res = Raise e → Heap.graph_objs σ' = Heap.graph_objs σ)
       ∧ (Forall is_tuple (Heap.entity_refs σ l) →
          Heap.list_objs σ' = Heap.list_objs σ
          ∧ match link_entities_in_graph X (Heap.graph_value σ l) with
            | Ok g' => res = Ok l ∧ Heap.graph_value σ' l = g'
            | Raise e => res = Raise e ∧ σ' = σ
            | OutOfFuel => res = OutOfFuel ∧ σ' = σ
            end
          ∧ ∀ k, k ≠ l → Heap.graph_value σ' k = Heap.graph_value σ k)).
Proof.
  split_and!.
  - intros Hex grounding.
    destruct (Heap.apply_grounding_ref l grounding σ) as [l' σ'] eqn:Hrun.
    destruct (apply_grounding_ref_spec _ _ _ _ _ Hex Hrun)
      as (Hnew & Hfresh & Hval & Hg & He & Hl).
    assert (∀ r e, Heap.edge_objs σ !! r = Some e → Heap.edge_objs σ' !! r = Some e) as He'.
    { intros r e Hr. rewrite He; [done|]. intros Hin. apply Hfresh in Hin. congruence. }
    assert (∀ k o, Heap.graph_objs σ !! k = Some o → Heap.graph_objs σ' !! k = Some o) as Hg'.
    { intros k o Hk. rewrite Hg; [done|]. intros ->. congruence. }
    exists l', σ'. split_and!; try done.
    intros k [o Hk] Hedges. apply graph_value_frame.
    + by rewrite (Hg' _ _ Hk).
    + intros r Hr. destruct (Hedges r Hr) as [e Hr']. by rewrite (He' _ _ Hr').
    + intros a _. by rewrite Hl.
  - destruct (label_edges_objs X (Heap.edge_refs σ l) σ) as (Hg & Hl & _).
    eexists. split; [reflexivity|]. split_and!; try done.
    + intros r. apply label_edges_edge_at.
    + rewrite add_canonical_labels_to_entities_ref_value.
      unfold add_canonical_labels_to_entities, set_edgeSet, Heap.graph_value,
        Heap.edge_refs. simpl. f_equal.
      destruct (Heap.o_edgeSet (Heap.graph_at σ l)) as [refs|]; [|done]. simpl. f_equal.
      rewrite map_map. apply map_ext_in. intros r Hr%list_elem_of_In.
      by rewrite bool_decide_eq_true_2.
    + intros k Hk. rewrite add_canonical_labels_to_entities_ref_value.
      unfold set_edgeSet, Heap.graph_value. simpl. f_equal.
      unfold Heap.edge_refs at 1 in Hk.
      destruct (Heap.o_edgeSet (Heap.graph_at σ k)) as [refs|]; [|done]. simpl in *.
      f_equal. apply map_ext_in. intros r Hr%list_elem_of_In.
      rewrite bool_decide_eq_false_2; [done|]. by apply Hk.
    + intros k i r Hi Hr. rewrite add_canonical_labels_to_entities_ref_value.
      unfold get_edgeSet, set_edgeSet. simpl. unfold Heap.edge_refs at 1 in Hi.
      destruct (Heap.o_edgeSet (Heap.graph_at σ k)) as [refs|]; [|done]. simpl in *.
      change (map ?f refs) with (f <$> refs). rewrite list_lookup_fmap, Hi. simpl.
      by rewrite bool_decide_eq_true_2.
  - destruct (link_entities_in_graph_ref_frame X l σ) as (He & Hg & Hl & Hok & Hraise).
    pose proof (link_entities_in_graph_ref_tuples X l σ) as Htuples.
    destruct (Heap.link_entities_in_graph_ref X l σ) as [res σ'] eqn:Hrun. simpl in *.
    exists res, σ'. split_and!; try done.
    intros Hall. specialize (Htuples Hall).
    destruct (link_entities_in_graph X (Heap.graph_value σ l)) as [g'| |].
    + destruct Htuples as (σ2 & [= -> ->] & Hval & _ & Hlists & _).
      split_and!; try done.
      intros k Hk. apply graph_value_frame; [by apply Hg|by rewrite He|by rewrite Hlists].
    + by injection Htuples as -> ->.
    + by injection Htuples as -> ->.
Qed.

Lemma graph_objects_frame_witness :
  (∃ l' σ', Heap.apply_grounding_ref 0 {[ "r0d" := "P1v" ]} ToyHeap.store = (l', σ')
            ∧ Heap.graph_objs ToyHeap.store !! l' = None
            ∧ Heap.graph_value σ' l' = Toy.grounded_with "P1v"
            ∧ Heap.graph_value σ' 0 = Toy.skeleton
            ∧ Heap.graph_value σ' 1 = Toy.norway)
  ∧ (∃ σ', Heap.link_entities_in_graph_ref Toy.world 1 ToyHeap.store = (Ok 1%nat, σ')
           ∧ Heap.graph_value σ' 1 = Toy.norway_linked
           ∧ Heap.graph_value σ' 0 = Toy.skeleton).
Proof.
  split.
  - destruct (graph_objects_frame Toy.world ToyHeap.store 0) as (Happly & _).
    destruct (Happly) with (grounding := ({[ "r0d" := "P1v" ]} : gmap string string))
      as (l' & σ' & Hrun & Hfresh & _ & Hval & _ & _ & _ & Hframe).
    { intros r Hr. vm_compute in Hr. apply list_elem_of_singleton in Hr as ->.
      by eexists. }
    exists l', σ'. split_and!; [done..| | |].
    + by rewrite Hval.
    + rewrite Hframe; [done|by eexists|].
      intros r Hr. vm_compute in Hr. apply list_elem_of_singleton in Hr as ->. by eexists.
    + rewrite Hframe; [done|by eexists|].
      intros r Hr. vm_compute in Hr. by apply elem_of_nil in Hr.
  - destruct (graph_objects_frame Toy.world ToyHeap.store 1)
      as (_ & _ & res & σ' & Hrun & _ & _ & _ & _ & _ & Htuples).
    destruct Htuples as (_ & Hmatch & Hframe).
    { repeat constructor; by eexists. }
    assert (link_entities_in_graph Toy.world (Heap.graph_value ToyHeap.store 1)
            = Ok Toy.norway_linked) as Hpure by by vm_compute.
    rewrite Hpure in Hmatch. destruct Hmatch as [-> Hval].
    exists σ'. split_and!; [done..|].
    by rewrite Hframe.
Defined.
